(** * BBF agent (bbf/agents/spr_agent.py): a shallow embedding and its properties

    The training controller of the BBF agent is embedded function by function.
    Python floats and JAX arrays are modelled by real numbers and lists of
    real numbers (the mathematical contract of the code, exact arithmetic);
    Python integers by [Z]; dictionaries by stdpp's [gmap]; calls that raise
    by [option].  The network, the optimizer and the random-number generator
    are external collaborators and enter as records of functions. *)

From Stdlib Require Import Reals Lra Lia ZArith.
From stdpp Require Import gmap strings list fin_maps option.

#[local] Set Warnings "-register-all".
#[local] Open Scope R_scope.

(* ================================================================== *)
(** * Part I: the embedding *)
(* ================================================================== *)

(** ** Array helpers *)

(** [jnp.sum] over a one-dimensional array. *)
Definition Rsum (l : list R) : R := foldr Rplus 0 l.
#[global] Arguments Rsum : simpl never.

(** [jnp.clip x lo hi] (also [np.clip]): [minimum (maximum x lo) hi]. *)
Definition clip (x lo hi : R) : R := Rmin (Rmax x lo) hi.

(** A binary element-wise operation on two one-dimensional arrays under NumPy
    broadcasting: equal lengths combine point-wise, a length-one operand is
    stretched, anything else is a shape error. *)
Definition broadcast (op : R -> R -> R) (xs ys : list R) : option (list R) :=
  if decide (length xs = length ys) then Some (zip_with op xs ys)
  else match xs, ys with
       | [x], _ => Some (map (op x) ys)
       | _, [y] => Some (map (fun x => op x y) xs)
       | _, _ => None
       end.

Definition broadcast_mul : list R -> list R -> option (list R) := broadcast Rmult.
Definition broadcast_add : list R -> list R -> option (list R) := broadcast Rplus.

#[global] Instance Rlt_decision (x y : R) : Decision (x < y) := Rlt_dec x y.
#[global] Instance Req_decision : EqDecision R := Req_dec_T.

(** A strictly increasing, equally spaced grid of [n] atoms starting at [v]
    with spacing [d] (what [jnp.linspace] builds for the agent's support). *)
Fixpoint grid (v d : R) (n : nat) : list R :=
  match n with
  | O => []
  | S n' => v :: grid (v + d) d n'
  end.

(** ** project_distribution (lines 30-70) *)

(** Projects [(supports, weights)] onto [target_support].  Indexing an empty
    [target_support] raises; with a single atom the source divides by zero
    (the properties below assume at least two atoms, where [jnp.squeeze]
    leaves the result as it is). *)
Definition project_distribution (supports weights target_support : list R)
  : option (list R) :=
  match target_support with
  | [] => None
  | v_min :: _ =>
      let v_max := List.last target_support 0 in
      let num_dims := length target_support in
      let delta_z := (v_max - v_min) / (INR num_dims - 1) in
      let clipped_support := map (fun s => clip s v_min v_max) supports in
      let numerator :=
        map (fun z_i => map (fun c => Rabs (c - z_i)) clipped_support)
            target_support in
      let quotient := map (map (fun x => 1 - x / delta_z)) numerator in
      let clipped_quotient := map (map (fun q => clip q 0 1)) quotient in
      inner_prod ← mapM (fun row => broadcast_mul row weights) clipped_quotient;
      Some (map Rsum inner_prod)
  end.

(** A valid support: at least two atoms, strictly increasing, equally spaced. *)
Definition valid_support (target_support : list R) : Prop :=
  exists v d n, 0 < d /\ (2 <= n)%nat /\ target_support = grid v d n.

(** The mass the projection assigns to atom [z]: every clipped support point
    contributes its weight times the triangular kernel of Eq7. *)
Definition atom_mass (v_min v_max d : R) (supports weights : list R) (z : R) : R :=
  Rsum (zip_with Rmult
          (map (fun s => clip (1 - Rabs (clip s v_min v_max - z) / d) 0 1) supports)
          weights).

(** ** prefetch_to_device (lines 79-90) *)

(** An iterator is a state with a [next] function; [None] is [StopIteration]
    (the state is kept, so an exhausted iterator stays exhausted).
    [iter_take next k s] is what [k] successive calls of [next] yield. *)
Fixpoint iter_take {A I : Type} (next : I -> option (A * I)) (k : nat) (s : I)
  : list A :=
  match k with
  | O => []
  | S k' => match next s with
            | None => []
            | Some (a, s') => a :: iter_take next k' s'
            end
  end.

(** The inner function [enqueue(n)]: appends up to [n] elements of the
    iterator to the queue ([itertools.islice] stops at exhaustion). *)
Fixpoint enqueue {A I : Type} (next : I -> option (A * I)) (n : nat) (it : I)
  (queue : list A) : I * list A :=
  match n with
  | O => (it, queue)
  | S n' => match next it with
            | None => (it, queue)
            | Some (data, it') => enqueue next n' it' (queue ++ [data])
            end
  end.

(** Control points of the generator body. *)
Inductive prefetch_state (A I : Type) : Type :=
  | PStart (it : I)
  | PFill (n : nat) (it : I) (queue : list A)
  | PLoop (it : I) (queue : list A)
  | PYielded (it : I) (queue : list A)
  | PDone (it : I) (queue : list A).
Arguments PStart {A I} it.
Arguments PFill {A I} n it queue.
Arguments PLoop {A I} it queue.
Arguments PYielded {A I} it queue.
Arguments PDone {A I} it queue.

(** The test [while queue] followed by [yield queue.popleft()]. *)
Definition prefetch_pop {A I : Type} (it : I) (queue : list A)
  : option (A * prefetch_state A I) :=
  match queue with
  | [] => None
  | x :: queue' => Some (x, PYielded it queue')
  end.

(** One call of [next] on the generator [prefetch_to_device(iterator, size)]:
    from the start it runs [enqueue(size)], from a [yield] it runs
    [enqueue(1)]; then the loop test and the next [yield]. *)
Definition prefetch_next {A I : Type} (next : I -> option (A * I)) (size : nat)
  (st : prefetch_state A I) : option (A * prefetch_state A I) :=
  match st with
  | PStart it => let '(it', queue) := enqueue next size it [] in prefetch_pop it' queue
  | PYielded it queue =>
      let '(it', queue') := enqueue next 1 it queue in prefetch_pop it' queue'
  | PFill n it queue =>
      let '(it', queue') := enqueue next n it queue in prefetch_pop it' queue'
  | PLoop it queue => prefetch_pop it queue
  | PDone _ _ => None
  end.

(** The same body, one queue operation at a time: [PFill n] is inside
    [enqueue] with [n] elements still to fetch; every [append] and every
    [popleft] is one step.  The second component is the value yielded. *)
Definition prefetch_step {A I : Type} (next : I -> option (A * I)) (size : nat)
  (st : prefetch_state A I) : option (prefetch_state A I * option A) :=
  match st with
  | PStart it => Some (PFill size it [], None)
  | PFill O it queue => Some (PLoop it queue, None)
  | PFill (S n) it queue =>
      match next it with
      | None => Some (PLoop it queue, None)
      | Some (data, it') => Some (PFill n it' (queue ++ [data]), None)
      end
  | PLoop it [] => Some (PDone it [], None)
  | PLoop it (x :: queue) => Some (PYielded it queue, Some x)
  | PYielded it queue => Some (PFill 1 it queue, None)
  | PDone _ _ => None
  end.

Definition prefetch_reach {A I : Type} (next : I -> option (A * I)) (size : nat)
  : relation (prefetch_state A I) :=
  rtc (fun st st' => exists out, prefetch_step next size st = Some (st', out)).

Definition queue_of {A I : Type} (st : prefetch_state A I) : list A :=
  match st with
  | PStart _ => []
  | PFill _ _ queue | PLoop _ queue | PYielded _ queue | PDone _ queue => queue
  end.

(** The first [k] elements of the queue followed by the iterator. *)
Fixpoint take_queued {A I : Type} (next : I -> option (A * I)) (k : nat)
  (queue : list A) (it : I) : list A :=
  match k with
  | O => []
  | S k' => match queue with
            | x :: queue' => x :: take_queued next k' queue' it
            | [] => iter_take next (S k') it
            end
  end.

(** Room left in the queue at each control point. *)
Definition prefetch_inv {A I : Type} (size : nat) (st : prefetch_state A I) : Prop :=
  match st with
  | PStart _ => True
  | PFill n _ queue => (length queue + n <= size)%nat
  | PLoop _ queue | PDone _ queue => (length queue <= size)%nat
  | PYielded _ queue => (length queue + 1 <= size)%nat
  end.

(** The iterator over a Python list, used in the examples. *)
Definition list_next {A : Type} (l : list A) : option (A * list A) :=
  match l with
  | [] => None
  | x :: l' => Some (x, l')
  end.

(** ** Parameter trees: copy_params (lines 98-120), interpolate_weights
    (lines 124-166) *)

(** A parameter (or optimizer-state) tree: a dictionary from names to
    subtrees, or anything that is not a dictionary (an array, a tuple). *)
Inductive tree (A : Type) : Type :=
  | Leaf (a : A)
  | Node (m : gmap string (tree A)).
Arguments Leaf {A} a.
Arguments Node {A} m.

(** Parameters proper: the leaves are arrays. *)
Abbreviation params := (tree (list R)).

(** [t[k]]: a missing key raises, and so does a string index into a leaf. *)
Definition subscript {A : Type} (t : tree A) (k : string) : option (tree A) :=
  match t with
  | Leaf _ => None
  | Node m => m !! k
  end.

(** The dictionary behind [t.keys()] and [t.items()]. *)
Definition dict_of {A : Type} (t : tree A) : option (gmap string (tree A)) :=
  match t with
  | Leaf _ => None
  | Node m => Some m
  end.

(** A dictionary built entry by entry from calls that may raise. *)
Definition map_sequence {A : Type} (m : gmap string (option A))
  : option (gmap string A) :=
  if bool_decide (map_Forall (fun _ o => is_Some o) m)
  then Some (omap (fun o => o) m) else None.

Fixpoint copy_params {A : Type} (source target : tree A) (keys : list string)
  : option (tree A) :=
  match source with
  | Node m =>
      fresh_dict ← map_sequence (map_imap (fun k v =>
        Some (if bool_decide (k ∈ keys) then Some v
              else target_k ← subscript target k; copy_params v target_k keys)) m);
      Some (Node fresh_dict)
  | Leaf _ => Some target
  end.

(** [jax.tree_util.tree_map f t1 t2]: both trees must have the same structure
    (the same keys at every dictionary); [f] combines matching leaves. *)
Fixpoint tree_map2 {A : Type} (f : A -> A -> option A) (t1 t2 : tree A)
  : option (tree A) :=
  match t1, t2 with
  | Leaf a, Leaf b => Leaf <$> f a b
  | Node m1, Node m2 =>
      if bool_decide (dom m1 = dom m2) then
        Node <$> map_sequence (map_imap (fun k v1 =>
                   Some (v2 ← m2 !! k; tree_map2 f v1 v2)) m1)
      else None
  | _, _ => None
  end.

(** [old_param * old_weight + new_param * new_weight] on two arrays. *)
Definition combination (old_weight new_weight : R) (old_param new_param : list R)
  : option (list R) :=
  broadcast_add (map (fun x => x * old_weight) old_param)
                (map (fun x => x * new_weight) new_param).

(** The first loop of [interpolate_weights]:
    [for k in keys: combined_params[k] = tree_map(combination, old[k], new[k])]. *)
Fixpoint interpolate_keys (old_weight new_weight : R) (old_params new_params : params)
  (keys : list string) (combined_params : gmap string params)
  : option (gmap string params) :=
  match keys with
  | [] => Some combined_params
  | k :: keys' =>
      old_k ← subscript old_params k;
      new_k ← subscript new_params k;
      c ← tree_map2 (combination old_weight new_weight) old_k new_k;
      interpolate_keys old_weight new_weight old_params new_params keys'
        (<[k := c]> combined_params)
  end.

(** [old_params = old_params["params"]] when the outer layer is stripped. *)
Definition strip_layer {A : Type} (strip_params_layer : bool) (t : tree A)
  : option (tree A) :=
  if strip_params_layer then subscript t "params" else Some t.

(** [if keys is None: keys = old_params.keys()]. *)
Definition interpolated_keys {A : Type} (keys : option (list string))
  (old_items : gmap string A) : list string :=
  match keys with
  | None => (map_to_list old_items).*1
  | Some keys => keys
  end.

(** The second loop of [interpolate_weights]:
    [for k, v in old_params.items(): if k not in keys: combined_params[k] = v]. *)
Definition carry_over (keys : list string) (combined_params old_items : gmap string params)
  : gmap string params :=
  map_fold (fun k v combined =>
              if bool_decide (k ∈ keys) then combined else <[k := v]> combined)
           combined_params old_items.

Definition interpolate_weights (old_params new_params : params)
  (keys : option (list string)) (old_weight new_weight : R)
  (strip_params_layer : bool) : option params :=
  old_params ← strip_layer strip_params_layer old_params;
  new_params ← strip_layer strip_params_layer new_params;
  old_items ← dict_of old_params;
  let keys := interpolated_keys keys old_items in
  combined_params ← interpolate_keys old_weight new_weight old_params new_params
                      keys ∅;
  let combined_params := carry_over keys combined_params old_items in
  Some (if strip_params_layer then Node {[ "params" := Node combined_params ]}
        else Node combined_params).

(** The groups of a parameter tree (below the outer "params" layer when it is
    stripped). *)
Definition groups_of {A : Type} (strip_params_layer : bool) (t : tree A)
  : option (gmap string (tree A)) :=
  strip_layer strip_params_layer t ≫= dict_of.

(** The group [g] below the outer "params" layer. *)
Definition group_of {A : Type} (g : string) (t : tree A) : option (tree A) :=
  groups_of true t ≫= fun groups => groups !! g.

(** Two trees with the same keys at every dictionary and related leaves. *)
Inductive same_structure {A : Type} (leaf_ok : A -> A -> Prop)
  : tree A -> tree A -> Prop :=
  | same_leaf a b : leaf_ok a b -> same_structure leaf_ok (Leaf a) (Leaf b)
  | same_node m1 m2 :
      dom m1 = dom m2 ->
      (forall k v1 v2, m1 !! k = Some v1 -> m2 !! k = Some v2 ->
                       same_structure leaf_ok v1 v2) ->
      same_structure leaf_ok (Node m1) (Node m2).

Definition same_shape (a b : list R) : Prop := length a = length b.
Definition any_leaf {A : Type} (a b : A) : Prop := True.

(** No dictionary key of the tree, at any depth, is one of [keys]. *)
Inductive key_free {A : Type} (keys : list string) : tree A -> Prop :=
  | key_free_leaf a : key_free keys (Leaf a)
  | key_free_node m :
      (forall k v, m !! k = Some v -> k ∉ keys) ->
      (forall k v, m !! k = Some v -> key_free keys v) ->
      key_free keys (Node m).

(** ** External collaborators *)

(** [jax.random]: splitting a key in two, splitting it in [n], and drawing
    a batch of integers uniformly in [[lo, hi)]. *)
Record Random (key : Type) : Type := {
  split : key -> key * key;
  split_n : key -> nat -> list key;
  randint : key -> nat -> Z -> Z -> list Z;
}.
Arguments split {key} _ _.
Arguments split_n {key} _ _ _.
Arguments randint {key} _ _ _ _ _.

(** The network module [spr_networks]: [net_init] is
    [network_def.init(rng, method=init_fn, x=zeros(state_shape), actions,
    do_rollout, support)], [get_policy] applies the policy head to one
    observation and returns its logits and a sampled action,
    [process_inputs] is the input preprocessing. *)
Record Network (key obs : Type) : Type := {
  net_init : key -> list nat -> bool -> list R -> params;
  get_policy : params -> obs -> key -> list R * Z;
  process_inputs : list obs -> key -> list obs;
}.
Arguments net_init {key obs} _ _ _ _ _.
Arguments get_policy {key obs} _ _ _ _.
Arguments process_inputs {key obs} _ _ _.

(** The optax optimizer: [opt_init] is [optimizer.init]; a state is a tuple of
    named tuples, each seen through [_asdict()]. *)
Record Optimizer (O : Type) : Type := {
  opt_init : params -> list (gmap string (tree O));
}.
Arguments opt_init {O} _ _.

(** ** jit_reset (lines 181-278) *)

(** [fresh._replace] with the given fields as keyword arguments: every given
    field must be a field of the
    named tuple. *)
Definition namedtuple_replace {O : Type} (fresh fields : gmap string (tree O))
  : option (gmap string (tree O)) :=
  if bool_decide (dom fields ⊆ dom fresh) then Some (fields ∪ fresh) else None.

(** One round of the loop over [range(len(optim_state))]. *)
Definition reset_optim_entry {O : Type} (optimizer_state : list (gmap string (tree O)))
  (keys_to_copy : list string) (i : nat) (fresh : gmap string (tree O))
  : option (gmap string (tree O)) :=
  old ← optimizer_state !! i;
  optim_to_copy ← copy_params (Node old) (Node fresh) keys_to_copy;
  fields ← dict_of optim_to_copy;
  namedtuple_replace fresh fields.

(** The parameter logic shared by the online and the target network:
    shrink-and-perturb on [shrink_perturb_keys] (when there are any), then
    [copy_params] of the old values into the fresh initialization. *)
Definition reset_params (old_params fresh_params : params)
  (shrink_perturb_keys : list string) (shrink_factor perturb_factor : R)
  (keys_to_copy : list string) : option params :=
  old_params ← (match shrink_perturb_keys with
                 | [] => Some old_params
                 | _ => interpolate_weights old_params fresh_params
                          (Some shrink_perturb_keys) shrink_factor perturb_factor true
                 end);
  copy_params old_params fresh_params keys_to_copy.

Definition jit_reset {key obs O : Type} (rnd : Random key)
  (online_params target_network_params : params)
  (optimizer_state : list (gmap string (tree O)))
  (network_def : Network key obs) (optimizer : Optimizer O) (rng : key)
  (state_shape : list nat) (do_rollout : bool) (support : list R)
  (reset_target : bool) (shrink_perturb_keys : list string)
  (shrink_factor perturb_factor : R) (keys_to_copy : list string)
  : option (params * params * list (gmap string (tree O)) * params) :=
  let '(online_rng, target_rng) := split rnd rng in
  let random_params := net_init network_def online_rng state_shape do_rollout support in
  let target_random_params :=
    net_init network_def target_rng state_shape do_rollout support in
  online_params ← reset_params online_params random_params shrink_perturb_keys
                    shrink_factor perturb_factor keys_to_copy;
  let optim_state := opt_init optimizer online_params in
  updated_optim_state ←
    mapM (fun '(i, fresh) => reset_optim_entry optimizer_state keys_to_copy i fresh)
         (imap pair optim_state);
  target_network_params ←
    (if reset_target
     then reset_params target_network_params target_random_params
            shrink_perturb_keys shrink_factor perturb_factor keys_to_copy
     else Some target_network_params);
  Some (online_params, target_network_params, updated_optim_state, random_params).

(** ** select_action (lines 331-360) *)

(** [jnp.argmax]: the first index of the maximum. *)
Fixpoint argmax_from (best : R) (best_i i : nat) (l : list R) : nat :=
  match l with
  | [] => best_i
  | x :: l' =>
      if decide (best < x) then argmax_from x i (S i) l'
      else argmax_from best best_i (S i) l'
  end.

Definition argmax (l : list R) : Z :=
  match l with
  | [] => 0
  | x :: l' => Z.of_nat (argmax_from x 0 1 l')
  end.

(** [jax.nn.softmax]. *)
Definition softmax (logits : list R) : list R :=
  let e := map exp logits in map (fun x => x / Rsum e) e.

(** The jitted action selection: the policy head is applied to every
    observation of the batch ([jax.vmap], one key per observation, [split_n]
    returning as many keys as asked); [jnp.where] on the static flag
    [eval_mode] picks the arg-max of the logits or the sampled actions. *)
Definition select_action {key obs : Type} (rnd : Random key)
  (network_def : Network key obs) (params : params) (state : list obs) (rng : key)
  (num_actions : Z) (eval_mode : bool) : key * list Z * list (list R) :=
  let '(rng, key) := split rnd rng in
  let state := process_inputs network_def state key in
  let '(rng, key) := split rnd key in
  let key := split_n rnd key (length state) in
  let logits_w_samples := zip_with (get_policy network_def params) state key in
  let logits := logits_w_samples.*1 in
  let samples := logits_w_samples.*2 in
  let new_actions := if eval_mode then map argmax logits else samples in
  (rng, new_actions, map softmax logits).

(** [scipy.stats.entropy] of a vector of non-negative numbers. *)
Definition entropy (pk : list R) : R :=
  let pk := map (fun p => p / Rsum pk) pk in
  Rsum (map (fun p => if decide (0 < p) then - (p * ln p) else 0) pk).

(** ** The agent (class BBFAgent) *)

Module BBFAgent.

(** The attributes set once by the constructor. *)
Record Config (key obs O : Type) : Type := {
  network_def : Network key obs;
  optimizer : Optimizer O;
  jax_random : Random key;
  num_actions : Z;
  min_replay_history : R;
  eval_mode : bool;
  state_shape : list nat;
  _support : list R;
  spr_weight : R;
  reset_every : Z;
  no_resets_after : Z;
  reset_offset : Z;
  reset_target : bool;
  shrink_perturb_keys : list string;
  shrink_factor : R;
  perturb_factor : R;
}.
Arguments network_def {key obs O} _.
Arguments optimizer {key obs O} _.
Arguments jax_random {key obs O} _.
Arguments num_actions {key obs O} _.
Arguments min_replay_history {key obs O} _.
Arguments eval_mode {key obs O} _.
Arguments state_shape {key obs O} _.
Arguments _support {key obs O} _.
Arguments spr_weight {key obs O} _.
Arguments reset_every {key obs O} _.
Arguments no_resets_after {key obs O} _.
Arguments reset_offset {key obs O} _.
Arguments reset_target {key obs O} _.
Arguments shrink_perturb_keys {key obs O} _.
Arguments shrink_factor {key obs O} _.
Arguments perturb_factor {key obs O} _.

(** The agent object [self]: the configuration and the attributes the
    methods below assign to. *)
Record t (key obs O : Type) : Type := {
  config : Config key obs O;
  training_steps : Z;
  _rng : key;
  online_params : params;
  target_network_params : params;
  optimizer_state : list (gmap string (tree O));
  random_params : params;
  cumulative_resets : Z;
  next_reset : Z;
  cycle_grad_steps : Z;
  stats_ent : R;
}.
Arguments config {key obs O} _.
Arguments training_steps {key obs O} _.
Arguments _rng {key obs O} _.
Arguments online_params {key obs O} _.
Arguments target_network_params {key obs O} _.
Arguments optimizer_state {key obs O} _.
Arguments random_params {key obs O} _.
Arguments cumulative_resets {key obs O} _.
Arguments next_reset {key obs O} _.
Arguments cycle_grad_steps {key obs O} _.
Arguments stats_ent {key obs O} _.

(** The tuple [keys_to_copy] of [reset_weights]. *)
Definition keys_to_copy : list string :=
  ["encoder"; "transition_model"; "_log_alpha"].

(** [reset_weights] (lines 1198-1239); the log messages are left out. *)
Definition reset_weights {key obs O : Type} (self : t key obs O)
  : option (t key obs O) :=
  let cfg := config self in
  let cumulative_resets' := (cumulative_resets self + 1)%Z in
  let interval := reset_every cfg in
  let next_reset' := (interval + training_steps self)%Z in
  if bool_decide (next_reset' > no_resets_after cfg + reset_offset cfg)%Z then
    Some {| config := cfg;
            training_steps := training_steps self;
            _rng := _rng self;
            online_params := online_params self;
            target_network_params := target_network_params self;
            optimizer_state := optimizer_state self;
            random_params := random_params self;
            cumulative_resets := cumulative_resets';
            next_reset := next_reset';
            cycle_grad_steps := cycle_grad_steps self;
            stats_ent := stats_ent self |}
  else
    let '(rng, reset_rng) := split (jax_random cfg) (_rng self) in
    '(online_params', target_network_params', optimizer_state', random_params') ←
      jit_reset (jax_random cfg)
        (online_params self) (target_network_params self) (optimizer_state self)
        (network_def cfg) (optimizer cfg) reset_rng (state_shape cfg)
        (bool_decide (0 < spr_weight cfg)) (_support cfg) (reset_target cfg)
        (shrink_perturb_keys cfg) (shrink_factor cfg) (perturb_factor cfg)
        keys_to_copy;
    Some {| config := cfg;
            training_steps := training_steps self;
            _rng := rng;
            online_params := online_params';
            target_network_params := target_network_params';
            optimizer_state := optimizer_state';
            random_params := random_params';
            cumulative_resets := cumulative_resets';
            next_reset := next_reset';
            cycle_grad_steps := 0;
            stats_ent := stats_ent self |}.

(** The reset test of [_train_step] (lines 1411-1412). *)
Definition reset_triggered {key obs O : Type} (self : t key obs O) : bool :=
  bool_decide (reset_every (config self) > 0)%Z
  && bool_decide (training_steps self > next_reset self)%Z.

Definition reset_check {key obs O : Type} (self : t key obs O)
  : option (t key obs O) :=
  if reset_triggered self then reset_weights self else Some self.

(** The policy head on a batch of observations, with the keys
    [select_action] derives from the agent's key: logits and sampled action
    per observation. *)
Definition policy_outputs {key obs O : Type} (self : t key obs O)
  (state : list obs) (select_params : params) : list (list R * Z) :=
  let cfg := config self in
  let key := (split (jax_random cfg) (_rng self)).2 in
  let state := process_inputs (network_def cfg) state key in
  let key := (split (jax_random cfg) key).2 in
  zip_with (get_policy (network_def cfg) select_params) state
           (split_n (jax_random cfg) key (length state)).

(** [select_action] (lines 1489-1522).  The batch entropy statistic reads
    [probs[0]], which raises on an empty batch; the log message is left
    out. *)
Definition select_action {key obs O : Type} (self : t key obs O)
  (state : list obs) (select_params : params) (eval_mode_arg : bool)
  : option (t key obs O * list Z) :=
  let cfg := config self in
  if negb eval_mode_arg
     && bool_decide (IZR (training_steps self) < min_replay_history cfg) then
    let '(rng, key) := split (jax_random cfg) (_rng self) in
    Some ({| config := cfg;
             training_steps := training_steps self;
             _rng := rng;
             online_params := online_params self;
             target_network_params := target_network_params self;
             optimizer_state := optimizer_state self;
             random_params := random_params self;
             cumulative_resets := cumulative_resets self;
             next_reset := next_reset self;
             cycle_grad_steps := cycle_grad_steps self;
             stats_ent := stats_ent self |},
          randint (jax_random cfg) key (length state) 0 (num_actions cfg))
  else
    let '(rng, action, probs) :=
      select_action (jax_random cfg) (network_def cfg) select_params state
        (_rng self) (num_actions cfg) false in
    stats_ent' ←
      (if negb (eval_mode cfg)
       then probs0 ← probs !! 0%nat;
            Some (99 / 100 * stats_ent self + 1 / 100 * entropy probs0)
       else Some (stats_ent self));
    Some ({| config := cfg;
             training_steps := training_steps self;
             _rng := rng;
             online_params := online_params self;
             target_network_params := target_network_params self;
             optimizer_state := optimizer_state self;
             random_params := random_params self;
             cumulative_resets := cumulative_resets self;
             next_reset := next_reset self;
             cycle_grad_steps := cycle_grad_steps self;
             stats_ent := stats_ent' |},
          action).

End BBFAgent.

(** ** exponential_decay_scheduler (lines 281-324) *)

(** [np.log] on the reals.  At a non-positive argument NumPy returns [-inf] or
    [nan] and goes on computing with it; the real-number model stops there
    ([None]). *)
Definition np_log (x : R) : option R :=
  if decide (0 < x) then Some (ln x) else None.

(** The schedule returned for a configuration, applied to [step].  With
    [decay_period == 0] the logarithms are computed but not used. *)
Definition exponential_decay_scheduler
  (decay_period warmup_steps initial_value final_value : R) (reverse : bool)
  (step : R) : option R :=
  let initial_value := if reverse then 1 - initial_value else initial_value in
  let final_value := if reverse then 1 - final_value else final_value in
  let start := np_log initial_value in
  let end_ := np_log final_value in
  if decide (decay_period = 0) then
    Some (if decide (step < warmup_steps) then initial_value else final_value)
  else
    let steps_left := decay_period + warmup_steps - step in
    let bonus_frac := steps_left / decay_period in
    let bonus := clip bonus_frac 0 1 in
    start ← start;
    end_ ← end_;
    let new_value := bonus * (start - end_) + end_ in
    let new_value := exp new_value in
    Some (if reverse then 1 - new_value else new_value).

(** ** Priorities (softmax_cross_entropy_loss_with_logits, lines 73-76;
    the value loss of loss_fn, lines 547-548 and 581; the write-back of
    _training_step_update, lines 1323-1333) *)

(** [flax.linen.log_softmax]. *)
Definition log_softmax (logits : list R) : list R :=
  let lse := ln (Rsum (map exp logits)) in
  map (fun x => x - lse) logits.

Definition softmax_cross_entropy_loss_with_logits (labels logits : list R)
  : option R :=
  prod ← broadcast_mul labels (log_softmax logits);
  Some (- Rsum prod).

(** [jnp.mean] of a one-dimensional array. *)
Definition mean (l : list R) : R := Rsum l / INR (length l).

(** The entry "DQNLoss" of [aux_losses] for one sub-batch: the mean over the
    sub-batch of the per-transition cross entropies ([jax.vmap] over the
    targets and the logits of the chosen actions). *)
Definition DQNLoss (target chosen_action_logits : list (list R)) : option R :=
  dqn_loss ← mapM (fun '(labels, logits) =>
                     softmax_cross_entropy_loss_with_logits labels logits)
                  (zip target chosen_action_logits);
  Some (mean dqn_loss).

(** [priorities = np.sqrt(dqn_loss + 1e-10)]. *)
Definition priorities (dqn_loss : list R) : list R :=
  map (fun x => sqrt (x + 1 / 10 ^ 10)) dqn_loss.

(** [target_output] (lines 705-726) for one transition, given the
    probabilities the target network assigns to the action chosen by the
    policy ([probabilities[next_qt_argmax]]). *)
Definition target_output (next_probabilities : list R) (rewards : R)
  (terminals : bool) (support : list R) (cumulative_gamma : R)
  : option (list R) :=
  let gamma_with_terminal :=
    cumulative_gamma * (1 - (if terminals then 1 else 0)) in
  let target_support :=
    map (fun z => rewards + gamma_with_terminal * z) support in
  project_distribution target_support next_probabilities support.

(** What the value loss reads of a sampled transition. *)
Record transition : Type := {
  tr_next_probabilities : list R;
  tr_reward : R;
  tr_terminal : bool;
  tr_cumulative_gamma : R;
  tr_chosen_action_logits : list R;
}.

(** The "DQNLoss" of one sub-batch of transitions ([train_one_batch]). *)
Definition sub_batch_loss (support : list R) (sub_batch : list transition)
  : option R :=
  target ← mapM (fun tr =>
                   target_output (tr_next_probabilities tr) (tr_reward tr)
                     (tr_terminal tr) support (tr_cumulative_gamma tr))
                sub_batch;
  DQNLoss target (map tr_chosen_action_logits sub_batch).

(** The priorities a training step writes back: [jax.lax.scan] stacks the
    "DQNLoss" of the sub-batches, and [_training_step_update] takes the
    square roots. *)
Definition written_priorities (support : list R)
  (sub_batches : list (list transition)) : option (list R) :=
  dqn_loss ← mapM (sub_batch_loss support) sub_batches;
  Some (priorities dqn_loss).

(** A sub-batch of targets and logits as the training step builds it: at
    least one transition, and per transition as many target probabilities as
    logits. *)
Definition well_shaped_sub_batch (sub_batch : list (list R) * list (list R)) : Prop :=
  sub_batch.1 <> []
  /\ Forall2 (fun labels logits => length labels = length logits)
             sub_batch.1 sub_batch.2.

(** A transition whose next-state probabilities (a softmax output) are
    non-negative, one per atom of the support, with one logit per atom. *)
Definition well_formed_transition (support : list R) (tr : transition) : Prop :=
  length (tr_next_probabilities tr) = length support
  /\ Forall (fun p => 0 <= p) (tr_next_probabilities tr)
  /\ length (tr_chosen_action_logits tr) = length support.

(** ** The SPR loss of loss_fn (lines 552-572) *)

#[global] Instance R_inhabited : Inhabited R := populate 0.

(** [m.transpose(1, 0, ...)]: the first two axes of [m] have lengths
    [length m] and [cols] (an array knows its shape even when it is empty). *)
Fixpoint transpose {A : Type} (cols : nat) (m : list (list A)) : list (list A) :=
  match m with
  | [] => replicate cols []
  | row :: rows => zip_with cons row (transpose cols rows)
  end.

(** [v.reshape(2, 2048)] on the last axis: the latent must have 4096
    components, and is cut in two groups of 2048. *)
Definition reshape_groups (v : list R) : option (list (list R)) :=
  if decide (length v = (2 * 2048)%nat) then Some [take 2048 v; drop 2048 v]
  else None.

(** [jnp.linalg.norm(v, 2, -1, keepdims=True)] and the division by it. *)
Definition norm2 (v : list R) : R := sqrt (Rsum (map (fun x => x ^ 2) v)).
Definition normalize (v : list R) : list R := map (fun x => x / norm2 v) v.

(** [jnp.power(p - t, 2).sum((-1, -2))] for one time step of one example. *)
Definition squared_distance (p t : list (list R)) : R :=
  Rsum (map Rsum (zip_with (zip_with (fun a b => (a - b) ^ 2)) p t)).

(** A [same_trajectory] flag as a factor. *)
Definition mask_value (flag : bool) : R := if flag then 1 else 0.

(** [m.mean(0)] of an array of shape [(length m, cols)]. *)
Definition mean_axis0 (cols : nat) (m : list (list R)) : list R :=
  map mean (transpose cols m).

(** The SPR loss, one value per example of the batch.  [spr_predictions]
    ([x.latent]) has shape (B, T, 4096), [spr_targets] shape (T, B, 4096) and
    [same_traj_mask] (after [same_traj_mask[:, 1:]]) shape (B, T); arrays of
    equal shapes are combined point-wise. *)
Definition spr_loss (T B : nat) (spr_predictions spr_targets : list (list (list R)))
  (same_traj_mask : list (list bool)) : option (list R) :=
  let spr_predictions := transpose T spr_predictions in
  spr_predictions ← mapM (mapM reshape_groups) spr_predictions;
  let spr_predictions := map (map (map normalize)) spr_predictions in
  spr_targets ← mapM (mapM reshape_groups) spr_targets;
  let spr_targets := map (map (map normalize)) spr_targets in
  let spr_loss := zip_with (zip_with squared_distance) spr_predictions spr_targets in
  let spr_loss :=
    zip_with (zip_with (fun d flag => d * mask_value flag)) spr_loss
             (transpose T same_traj_mask) in
  Some (map (fun x => x * (1 / 2)) (mean_axis0 B spr_loss)).

(** The entry "SPRLoss" of [aux_losses] (line 583): [jnp.mean(spr_loss)],
    the mean over the batch of the values per example. *)
Definition SPRLoss (T B : nat) (spr_predictions spr_targets : list (list (list R)))
  (same_traj_mask : list (list bool)) : option R :=
  spr_loss ← spr_loss T B spr_predictions spr_targets same_traj_mask;
  Some (mean spr_loss).

(** An array of shape [(n, c)], and one of shape [(n, c, 4096)]. *)
Definition rect {A : Type} (n c : nat) (m : list (list A)) : Prop :=
  length m = n /\ Forall (fun row => length row = c) m.

Definition latents (n c : nat) (m : list (list (list R))) : Prop :=
  rect n c m /\ Forall (Forall (fun v => length v = (2 * 2048)%nat)) m.

(** The two groups of a latent, each normalized on its own. *)
Definition normalized_groups (v : list R) : list (list R) :=
  map normalize [take 2048 v; drop 2048 v].

(** What the code computes for one example, from its predicted latents, its
    target latents and its flags along time: per step the squared distance
    between the separately normalized groups, zeroed where the flag is
    false, averaged over all the steps, halved. *)
Definition spr_loss_example (predictions targets : list (list R))
  (flags : list bool) : R :=
  mean (zip_with (fun d flag => d * mask_value flag)
          (zip_with squared_distance (map normalized_groups predictions)
                    (map normalized_groups targets))
          flags)
  * (1 / 2).

(** The loss of one example as the specification words it: both latents of a
    step normalized onto the unit sphere, squared Euclidean distance, steps
    with a false flag zeroed, average over the valid steps, one half. *)
Definition spr_loss_spec_example (predictions targets : list (list R))
  (flags : list bool) : R :=
  Rsum (zip_with (fun d flag => d * mask_value flag)
          (zip_with (fun p t =>
                       Rsum (zip_with (fun a b => (a - b) ^ 2)
                                      (normalize p) (normalize t)))
                    predictions targets)
          flags)
  / INR (length (filter (fun flag => flag = true) flags))
  * (1 / 2).

(** ** Concrete data for the examples *)

Definition ex_old_groups : gmap string params :=
  {[ "encoder" := Leaf [3]; "head" := Node {[ "kernel" := Leaf [1; 2] ]} ]}.
Definition ex_new_groups : gmap string params :=
  {[ "encoder" := Leaf [7]; "head" := Node {[ "kernel" := Leaf [5; 6] ]} ]}.
Definition ex_old_params : params := Node {[ "params" := Node ex_old_groups ]}.
Definition ex_new_params : params := Node {[ "params" := Node ex_new_groups ]}.

(** A head that contains a sub-module named like a group to copy. *)
Definition ex_nested_old : params :=
  Node {[ "params" := Node {[ "head" := Node {[ "encoder" := Leaf [1] ]} ]} ]}.
Definition ex_nested_new : params :=
  Node {[ "params" := Node {[ "head" := Node {[ "encoder" := Leaf [2] ]} ]} ]}.

Definition ex_random : Random nat :=
  {| split k := ((2 * k)%nat, (2 * k + 1)%nat);
     split_n k n := map (Nat.add k) (seq 0 n);
     randint _ n lo _ := replicate n lo |}.

(** A network whose initialization is [fresh] and whose policy head has
    logits [0, 1] and samples action 0. *)
Definition ex_network (fresh : params) : Network nat nat :=
  {| net_init _ _ _ _ := fresh;
     get_policy _ _ _ := ([0; 1], 0%Z);
     process_inputs state _ := state |}.

Definition ex_optimizer : Optimizer unit := {| opt_init _ := [] |}.

Definition ex_config (fresh : params) (eval_mode : bool)
  (shrink_perturb_keys : list string) : BBFAgent.Config nat nat unit :=
  {| BBFAgent.network_def := ex_network fresh;
     BBFAgent.optimizer := ex_optimizer;
     BBFAgent.jax_random := ex_random;
     BBFAgent.num_actions := 2;
     BBFAgent.min_replay_history := 20;
     BBFAgent.eval_mode := eval_mode;
     BBFAgent.state_shape := [84; 84; 4]%nat;
     BBFAgent._support := [-1; 0; 1];
     BBFAgent.spr_weight := 5;
     BBFAgent.reset_every := 10;
     BBFAgent.no_resets_after := 100;
     BBFAgent.reset_offset := 1;
     BBFAgent.reset_target := true;
     BBFAgent.shrink_perturb_keys := shrink_perturb_keys;
     BBFAgent.shrink_factor := 8 / 10;
     BBFAgent.perturb_factor := 2 / 10 |}.

(** An agent at step [training_steps] whose next reset is due after step
    [next_reset], with 3 resets and 5 gradient steps in the cycle so far. *)
Definition ex_agent (online fresh : params) (eval_mode : bool)
  (shrink_perturb_keys : list string) (training_steps next_reset : Z)
  : BBFAgent.t nat nat unit :=
  {| BBFAgent.config := ex_config fresh eval_mode shrink_perturb_keys;
     BBFAgent.training_steps := training_steps;
     BBFAgent._rng := 1%nat;
     BBFAgent.online_params := online;
     BBFAgent.target_network_params := online;
     BBFAgent.optimizer_state := [];
     BBFAgent.random_params := online;
     BBFAgent.cumulative_resets := 3;
     BBFAgent.next_reset := next_reset;
     BBFAgent.cycle_grad_steps := 5;
     BBFAgent.stats_ent := 0 |}.

(** Two latents of 4096 components with unit groups: [ex_u] has a one in
    the first place of each group, [ex_v] in the second. *)
Definition unit_first (n : nat) : list R := 1 :: replicate n 0.
Definition unit_second (n : nat) : list R := 0 :: 1 :: replicate n 0.
Definition ex_u : list R := unit_first 2047 ++ unit_first 2047.
Definition ex_v : list R := unit_second 2046 ++ unit_second 2046.

(** What [copy_params] makes of the two example dictionaries when the
    encoder is kept. *)
Definition ex_copied_groups : gmap string params :=
  {[ "encoder" := Leaf [3]; "head" := Node {[ "kernel" := Leaf [5; 6] ]} ]}.

(** The two example dictionaries with the head averaged. *)
Definition ex_mixed_groups : gmap string params :=
  {[ "encoder" := Leaf [3];
     "head" := Node {[ "kernel" := Leaf [1 * (1 / 2) + 5 * (1 / 2);
                                          2 * (1 / 2) + 6 * (1 / 2)] ]} ]}.

(** The example target after a Polyak step towards the example online
    network with [tau = 1/2]. *)
Definition ex_polyak_groups : gmap string params :=
  {[ "encoder" := Leaf [3 * (1 - 1 / 2) + 7 * (1 / 2)];
     "head" := Node {[ "kernel" := Leaf [1 * (1 - 1 / 2) + 5 * (1 / 2);
                                          2 * (1 - 1 / 2) + 6 * (1 / 2)] ]} ]}.

(** An optimizer whose state is one named tuple with a step count and a
    moment of the shape of the parameters, and a state of it after five
    steps on the example parameters. *)
Definition ex_momentum : Optimizer (list R) :=
  {| opt_init p := [ {[ "count" := Leaf [0]; "mu" := p ]} ] |}.
Definition ex_momentum_state : list (gmap string params) :=
  [ {[ "count" := Leaf [5]; "mu" := ex_old_params ]} ].
Definition ex_copied_params : params :=
  Node {[ "params" := Node ex_copied_groups ]}.

(** The example agent at step 95 with a reset due after step 90, and what
    the reset check makes of it: the reset is counted and skipped (the next
    one would fall after [no_resets_after]). *)
Definition ex_agent_due : BBFAgent.t nat nat unit :=
  ex_agent ex_old_params ex_new_params false [] 95 90.
Definition ex_agent_skipped : BBFAgent.t nat nat unit :=
  {| BBFAgent.config := ex_config ex_new_params false [];
     BBFAgent.training_steps := 95;
     BBFAgent._rng := 1%nat;
     BBFAgent.online_params := ex_old_params;
     BBFAgent.target_network_params := ex_old_params;
     BBFAgent.optimizer_state := [];
     BBFAgent.random_params := ex_old_params;
     BBFAgent.cumulative_resets := 4;
     BBFAgent.next_reset := 105;
     BBFAgent.cycle_grad_steps := 5;
     BBFAgent.stats_ent := 0 |}.

(** ** Tactics for the concrete examples *)

(** Lookups in the small concrete dictionaries of the examples. *)
Ltac split_lookup H :=
  repeat first
    [ rewrite lookup_singleton_Some in H; destruct H as [<- <-]
    | rewrite lookup_insert_Some in H; destruct H as [[<- <-]|[_ H]]
    | rewrite lookup_empty in H; discriminate H ].

Ltac same_structure_tac :=
  repeat first
    [ apply same_leaf; reflexivity
    | apply same_node;
      [ compute_done
      | let k := fresh "k" in
        let H1 := fresh "H1" in
        let H2 := fresh "H2" in
        intros k ? ? H1 H2; split_lookup H1; vm_compute in H2;
        try discriminate H2; injection H2 as <- ] ].

(** ** Further functions of the file *)

(** The state of an iterator after [k] elements were drawn from it ([None]
    when it is exhausted before). *)
Fixpoint iter_after {A I : Type} (next : I -> option (A * I)) (k : nat) (s : I)
  : option I :=
  match k with
  | O => Some s
  | S k' => match next s with
            | None => None
            | Some (_, s') => iter_after next k' s'
            end
  end.

(** [copy_within_frozen_tree] (lines 93-95): [old[prefix]] must be a
    dictionary; [copy(add_or_replace=new)] lets the entries of [new] win. *)
Definition copy_within_frozen_tree {A : Type} (old : tree A)
  (new : gmap string (tree A)) (prefix : string) : option (tree A) :=
  old_prefix ← subscript old prefix;
  old_entry ← dict_of old_prefix;
  old_items ← dict_of old;
  let new_entry := Node (new ∪ old_entry) in
  Some (Node (<[prefix := new_entry]> old_items)).

(** The number of dictionaries and leaves of a tree. *)
Fixpoint tree_size {A : Type} (t : tree A) : nat :=
  match t with
  | Leaf _ => 1
  | Node m => S (map_fold (fun _ t' acc => tree_size t' + acc)%nat 0%nat m)
  end.

(** [t[k1][k2]...]: the subtree under a path of keys. *)
Fixpoint tree_at {A : Type} (path : list string) (t : tree A) : option (tree A) :=
  match path with
  | [] => Some t
  | k :: path' => subscript t k ≫= tree_at path'
  end.

(** The abstract value of an array leaf is its shape. *)
Definition same_aval (a b : list R) : option (list R) :=
  if decide (length a = length b) then Some a else None.

(** The target-network update of [train_one_batch] (lines 631-643):
    [jax.lax.cond(step % target_update_every == 0, target_update_step,
    lambda old, new: old, target_params, online_params)], where
    [target_update_step] is [interpolate_weights] with [keys=None] and the
    weights [1 - tau] and [tau].  [lax.cond] traces both branches whatever
    the predicate and raises unless their outputs have the same tree
    structure and shapes.  The remainder follows the sign of the divisor, as
    Python's; the property below that reads the predicate assumes a positive
    period. *)
Definition target_update (target_params online_params : params)
  (target_update_tau : R) (target_update_every step : Z) : option params :=
  updated ← interpolate_weights target_params online_params None
              (1 - target_update_tau) target_update_tau true;
  _ ← tree_map2 same_aval updated target_params;
  Some (if bool_decide (step `mod` target_update_every = 0)%Z
        then updated else target_params).

(** ** The schedules of the agent (BBFAgent.__init__, lines 948-957 and
    986-998; _train_step, lines 1364-1399) *)

(** The largest integer not above [x]. *)
Definition floor (x : R) : Z := (up x - 1)%Z.

(** [int(np.round(x))]: the nearest integer, a half going to the even
    neighbour. *)
Definition np_round (x : R) : Z :=
  let n := floor x in
  let r := x - IZR n in
  if decide (r < 1 / 2) then n
  else if decide (1 / 2 < r) then (n + 1)%Z
  else if Z.even n then n else (n + 1)%Z.

(** [self.update_horizon_scheduler], applied to [x]: the constant
    [update_horizon] without a [max_update_horizon]; otherwise the rounded
    exponential schedule from [max_update_horizon] down to [update_horizon]
    (the quotient of the two raises when [max_update_horizon] is 0). *)
Definition update_horizon_scheduler (update_horizon : Z)
  (max_update_horizon : option Z) (cycle_steps x : R) : option Z :=
  match max_update_horizon with
  | None => Some update_horizon
  | Some max_update_horizon =>
      if decide (max_update_horizon = 0%Z) then None
      else
        n ← exponential_decay_scheduler cycle_steps 0 1
               (IZR update_horizon / IZR max_update_horizon) false x;
        Some (np_round (n * IZR max_update_horizon))
  end.

(** [self.gamma_scheduler], applied to [x]. *)
Definition gamma_scheduler (min_gamma : option R) (cycle_steps gamma x : R)
  : option R :=
  match min_gamma with
  | None => Some gamma
  | Some min_gamma =>
      if decide (cycle_steps <= 1) then Some gamma
      else exponential_decay_scheduler cycle_steps 0 min_gamma gamma true x
  end.

(** [np.cumprod]. *)
Fixpoint cumprod_from (acc : R) (l : list R) : list R :=
  match l with
  | [] => []
  | x :: l' => acc * x :: cumprod_from (acc * x) l'
  end.

(** [self.cumulative_gamma = (np.ones((max_update_horizon,)) * gamma).cumprod()]. *)
Definition cumulative_gamma (max_update_horizon : nat) (gamma : R) : list R :=
  cumprod_from 1 (map (fun one => one * gamma) (replicate max_update_horizon 1)).

(** The inner function [linearly_decaying_epsilon] of [_train_step]: the
    branch that is live interpolates from [1e-2] down to [epsilon]; the
    division by a zero [decay_period] raises. *)
Definition linearly_decaying_epsilon (decay_period step warmup_steps epsilon : R)
  : option R :=
  let steps_left := decay_period + warmup_steps - step in
  if decide (decay_period = 0) then None
  else
    let bonus := (1 / 100 - epsilon) * steps_left / decay_period in
    let bonus := clip bonus 0 (1 / 100 - epsilon) in
    Some (epsilon + bonus).

(** [self.x_ent_coef = linearly_decaying_epsilon(int(80e3),
    self.training_steps, 0, .0)]. *)
Definition x_ent_coef (training_steps : Z) : option R :=
  linearly_decaying_epsilon 80000 (IZR training_steps) 0 0.

(** ** The support and the replay settings of the agent
    (BBFAgent.__init__, lines 893-896; set_replay_settings, lines 1116-1143) *)

(** [jnp.linspace(start, stop, num)]: [num] equally spaced points, the two
    end points included. *)
Definition linspace (start stop : R) (num : nat) : list R :=
  map (fun i => start + INR i * ((stop - start) / (INR num - 1))) (seq 0 num).

(** [self._support]: [vmin = float(vmin) if vmin else -vmax] takes a [vmin]
    of zero for a missing one. *)
Definition agent_support (vmin : option R) (vmax : R) (num_atoms : nat) : list R :=
  let vmin := match vmin with
              | Some v => if decide (v = 0) then - vmax else v
              | None => - vmax
              end in
  linspace vmin vmax num_atoms.

(** [int(x)] on a float: towards zero. *)
Definition int_trunc (x : R) : Z :=
  if decide (0 <= x) then floor x else (- floor (- x))%Z.

(** The attributes [set_replay_settings] assigns. *)
Record replay_settings : Type := {
  rs_num_updates_per_train_step : Z;
  rs_update_period : Z;
  rs_min_replay_history : R;
  rs_batches_to_group : Z;
}.

(** [set_replay_settings] on the integer attributes [_replay_ratio],
    [n_envs], [_batch_size], [_batches_to_group] and on
    [min_replay_history]; [//] and [%] are Python's floor division and
    remainder, a division by zero and a failed [assert] raise.  The log
    messages are left out. *)
Definition set_replay_settings (replay_ratio n_envs batch_size batches_to_group : Z)
  (min_replay_history : R) : option replay_settings :=
  if decide (batch_size = 0)%Z then None
  else
    let num_updates_per_train_step :=
      Z.max 1 (replay_ratio * n_envs / batch_size) in
    if decide (replay_ratio = 0)%Z then None
    else
      let update_period := Z.max 1 (batch_size / replay_ratio * n_envs) in
      if decide (n_envs = 0)%Z then None
      else
        let min_replay_history := min_replay_history / IZR n_envs in
        let batches_to_group :=
          Z.min batches_to_group num_updates_per_train_step in
        if decide (batches_to_group = 0)%Z then None
        else if decide (num_updates_per_train_step `mod` batches_to_group = 0)%Z
        then
          Some {| rs_num_updates_per_train_step :=
                    int_trunc (Rmax 1 (IZR num_updates_per_train_step
                                       / IZR batches_to_group));
                  rs_update_period := update_period;
                  rs_min_replay_history := min_replay_history;
                  rs_batches_to_group := batches_to_group |}
        else None.

(** ** The loss weights of _training_step_update (lines 1252-1255) *)

(** [np.max] of a one-dimensional array; it raises on an empty one. *)
Definition np_max (l : list R) : option R :=
  match l with
  | [] => None
  | x :: l' => Some (foldl Rmax x l')
  end.

(** [loss_weights = 1.0 / np.sqrt(probs + 1e-10)], then
    [loss_weights /= np.max(loss_weights)].  The properties below assume
    sampling probabilities that are not negative, where the square root is
    that of a positive number. *)
Definition loss_weights (probs : list R) : option (list R) :=
  let loss_weights := map (fun p => 1 / sqrt (p + 1 / 10 ^ 10)) probs in
  m ← np_max loss_weights;
  Some (map (fun w => w / m) loss_weights).

(** ** The state of the environments (delete_one, lines 1460-1462) *)

(** A bound of a Python slice on a sequence of length [n]: a negative bound
    counts from the end, and bounds outside the sequence are clamped. *)
Definition slice_bound (n : nat) (i : Z) : nat :=
  if decide (i < 0)%Z then Z.to_nat (Z.max 0 (i + Z.of_nat n))
  else Z.to_nat (Z.min i (Z.of_nat n)).

(** [self.state = np.concatenate([self.state[:env_id],
    self.state[env_id + 1:]], 0)], the state as the list of its rows (one
    per environment). *)
Definition delete_one {A : Type} (state : list A) (env_id : Z) : list A :=
  take (slice_bound (length state) env_id) state
  ++ drop (slice_bound (length state) (env_id + 1)) state.

(** ** The TD error and the policy loss of loss_fn (lines 520-550) *)

(** One entry of [jnp.nan_to_num(target * jnp.log(target))]: the product is
    NaN where the probability is not positive, and NaN is replaced by 0. *)
Definition xlogx (t : R) : R := if decide (0 < t) then t * ln t else 0.

(** [td_error = dqn_loss + jnp.nan_to_num(target * jnp.log(target)).sum(-1)]
    for one transition of the batch. *)
Definition td_error (target chosen_action_logits : list R) : option R :=
  dqn_loss ← softmax_cross_entropy_loss_with_logits target chosen_action_logits;
  Some (dqn_loss + Rsum (map xlogx target)).

(** [a[i]] for a traced index [i] that is not negative: an index past the
    end is clamped to the last entry. *)
Definition jnp_index (a : list R) (i : nat) : option R :=
  a !! Nat.min i (length a - 1).

(** [policy_loss] for one example, [samples] being the action drawn by
    [jax.random.categorical]: the loss and the entropy [x_ent] ([ent_coef]
    is computed and not used). *)
Definition policy_loss (q_values logits : list R) (samples : nat)
  (x_ent_coef : R) : option (R * R) :=
  let log_prob := log_softmax logits in
  let prob := softmax logits in
  q_sample ← jnp_index q_values samples;
  weighted ← broadcast_mul q_values prob;
  let q_values := q_sample - Rsum weighted in
  entropy_terms ← broadcast_mul prob log_prob;
  let x_ent := - Rsum entropy_terms in
  log_prob_sample ← jnp_index log_prob samples;
  Some (- (q_values * log_prob_sample) + x_ent_coef * (- x_ent), x_ent).

(** A latent whose two groups both have a norm other than zero (the
    normalization divides by the norms). *)
Definition nonzero_groups (v : list R) : Prop :=
  norm2 (take 2048 v) <> 0 /\ norm2 (drop 2048 v) <> 0.

(* ================================================================== *)
(** * Part II: properties *)
(* ================================================================== *)

Lemma Rsum_nil : Rsum [] = 0.
Proof. reflexivity. Qed.

Lemma Rsum_cons x l : Rsum (x :: l) = x + Rsum l.
Proof. reflexivity. Qed.

(** ** Sums and clipping *)

Lemma Rsum_app l1 l2 : Rsum (l1 ++ l2) = Rsum l1 + Rsum l2.
Proof.
  induction l1 as [|x l1 IH]; simpl; [rewrite Rsum_nil; lra | rewrite !Rsum_cons, IH; lra].
Qed.

Lemma Rsum_map_plus {A} (f g : A -> R) (l : list A) :
  Rsum (map (fun x => f x + g x) l) = Rsum (map f l) + Rsum (map g l).
Proof.
  induction l as [|x l IH]; simpl; [rewrite !Rsum_nil; lra | rewrite !Rsum_cons, IH; lra].
Qed.

Lemma Rsum_map_scale {A} (f : A -> R) (c : R) (l : list A) :
  Rsum (map (fun x => f x * c) l) = Rsum (map f l) * c.
Proof.
  induction l as [|x l IH]; simpl; [rewrite !Rsum_nil; lra | rewrite !Rsum_cons, IH; lra].
Qed.

Lemma Rsum_nonneg l : Forall (fun x => 0 <= x) l -> 0 <= Rsum l.
Proof. induction 1; [rewrite Rsum_nil; lra | rewrite Rsum_cons; lra]. Qed.

Lemma clip_bounds x lo hi : lo <= hi -> lo <= clip x lo hi <= hi.
Proof.
  intros H. unfold clip, Rmin, Rmax.
  repeat destruct (Rle_dec _ _); lra.
Qed.

Lemma clip_id x lo hi : lo <= x <= hi -> clip x lo hi = x.
Proof.
  intros H. unfold clip, Rmin, Rmax.
  repeat destruct (Rle_dec _ _); lra.
Qed.

Lemma clip_low x lo hi : lo <= hi -> x <= lo -> clip x lo hi = lo.
Proof.
  intros H1 H2. unfold clip, Rmin, Rmax.
  repeat destruct (Rle_dec _ _); lra.
Qed.

(** ** The grid *)

Lemma grid_length v d n : length (grid v d n) = n.
Proof. revert v; induction n as [|n IH]; intros v; simpl; [done | by rewrite IH]. Qed.

Lemma grid_lookup v d n i :
  (i < n)%nat -> grid v d n !! i = Some (v + INR i * d).
Proof.
  revert v i; induction n as [|n IH]; intros v i Hi; [lia|].
  destruct i as [|i]; simpl.
  - f_equal. lra.
  - rewrite IH by lia. f_equal.
    destruct i; simpl; lra.
Qed.

Lemma grid_last v d n :
  (1 <= n)%nat -> List.last (grid v d n) 0 = v + (INR n - 1) * d.
Proof.
  revert v; induction n as [|n IH]; intros v Hn; [lia|].
  destruct n as [|n].
  - simpl. lra.
  - change (grid v d (S (S n))) with (v :: grid (v + d) d (S n)).
    change (List.last (v :: grid (v + d) d (S n)) 0)
      with (List.last (grid (v + d) d (S n)) 0).
    rewrite IH by lia. rewrite !S_INR. lra.
Qed.

(** The triangular kernel of Eq7: the mass a clipped point [c] gives to the
    atom [z] on a grid of spacing [d]. *)
Lemma kernel_nonneg d z c : 0 <= clip (1 - Rabs (c - z) / d) 0 1.
Proof. apply clip_bounds; lra. Qed.

Lemma kernel_far d z c :
  0 < d -> d <= Rabs (c - z) -> clip (1 - Rabs (c - z) / d) 0 1 = 0.
Proof.
  intros Hd H. apply clip_low; [lra|].
  assert (1 <= Rabs (c - z) / d); [|lra].
  apply (Rmult_le_reg_r d); [done|]. unfold Rdiv.
  rewrite Rmult_assoc, Rinv_l by lra. lra.
Qed.

Lemma kernel_near d z c :
  0 < d -> Rabs (c - z) <= d ->
  clip (1 - Rabs (c - z) / d) 0 1 = 1 - Rabs (c - z) / d.
Proof.
  intros Hd H. apply clip_id.
  assert (0 <= Rabs (c - z) / d <= 1); [|lra]. split.
  - apply Rmult_le_pos; [apply Rabs_pos | left; by apply Rinv_0_lt_compat].
  - apply (Rmult_le_reg_r d); [done|]. unfold Rdiv.
    rewrite Rmult_assoc, Rinv_l by lra. lra.
Qed.

(** Atoms at least one spacing above the point receive nothing. *)
Lemma kernel_sum_above d n v c :
  0 < d -> c + d <= v ->
  Rsum (map (fun z => clip (1 - Rabs (c - z) / d) 0 1) (grid v d n)) = 0.
Proof.
  intros Hd. revert v; induction n as [|n IH]; intros v Hv; simpl; [done|].
  rewrite Rsum_cons, IH by lra.
  rewrite kernel_far; [lra | done |].
  rewrite Rabs_left by lra. lra.
Qed.

(** Mass conservation for one point inside the grid's range. *)
Lemma kernel_sum_one d n v c :
  0 < d -> (1 <= n)%nat -> v <= c <= v + (INR n - 1) * d ->
  Rsum (map (fun z => clip (1 - Rabs (c - z) / d) 0 1) (grid v d n)) = 1.
Proof.
  intros Hd. revert v; induction n as [|n IH]; intros v Hn Hc; [lia|].
  rewrite S_INR in Hc. simpl. rewrite Rsum_cons.
  destruct n as [|n].
  - simpl in *. assert (c = v) as -> by lra.
    rewrite kernel_near; [|done|]; rewrite Rminus_diag, Rabs_R0; [|lra].
    unfold Rdiv. rewrite Rmult_0_l, Rsum_nil. lra.
  - destruct (Rle_dec (v + d) c) as [Hge|Hlt].
    + rewrite kernel_far; [|done|rewrite Rabs_right; lra].
      rewrite IH; [lra | lia |]. rewrite S_INR in *. lra.
    + simpl. rewrite Rsum_cons, kernel_sum_above by lra.
      rewrite !kernel_near; try done.
      * rewrite (Rabs_right (c - v)) by lra.
        rewrite (Rabs_left1 (c - (v + d))) by lra.
        field. lra.
      * rewrite Rabs_left1; lra.
      * rewrite Rabs_right; lra.
Qed.

(** ** project_distribution in closed form *)

Lemma broadcast_mul_same xs ys :
  length xs = length ys -> broadcast_mul xs ys = Some (zip_with Rmult xs ys).
Proof. intros H. unfold broadcast_mul, broadcast. by rewrite decide_True. Qed.

Lemma mapM_broadcast_rows (rows : list (list R)) (ws : list R) :
  Forall (fun row => length row = length ws) rows ->
  mapM (fun row => broadcast_mul row ws) rows
  = Some (map (fun row => zip_with Rmult row ws) rows).
Proof.
  induction 1 as [|row rows Hrow _ IH]; [done|].
  cbn. rewrite broadcast_mul_same by done. cbn.
  change (mapM (fun row => broadcast_mul row ws) rows ≫= _)
    with (mapM (fun row => broadcast_mul row ws) rows ≫=
            (fun k => Some (zip_with Rmult row ws :: k))).
  by rewrite IH.
Qed.

Lemma project_distribution_grid supports weights v d n :
  0 < d -> (2 <= n)%nat -> length supports = length weights ->
  project_distribution supports weights (grid v d n)
  = Some (map (atom_mass v (v + (INR n - 1) * d) d supports weights) (grid v d n)).
Proof.
  intros Hd Hn Hlen. unfold project_distribution.
  destruct n as [|n]; [lia|].
  change (grid v d (S n)) with (v :: grid (v + d) d n) at 1.
  cbv zeta. rewrite grid_length, grid_last by lia.
  assert (2 <= INR (S n)) by (apply (le_INR 2); lia).
  replace ((v + (INR (S n) - 1) * d - v) / (INR (S n) - 1)) with d
    by (field; lra).
  rewrite mapM_broadcast_rows.
  - cbn [mbind option_bind]. f_equal.
    rewrite !map_map. apply map_ext; intros z. unfold atom_mass.
    by rewrite !map_map.
  - rewrite !Forall_map. apply Forall_true; intros z.
    by rewrite !length_map.
Qed.

Lemma atom_mass_nonneg v_min v_max d supports weights z :
  Forall (fun w => 0 <= w) weights ->
  0 <= atom_mass v_min v_max d supports weights z.
Proof.
  intros Hw. unfold atom_mass. apply Rsum_nonneg.
  revert supports; induction Hw as [|w ws Hw Hws IH]; intros [|s ss]; cbn;
    try constructor; [|apply IH].
  apply Rmult_le_pos; [apply kernel_nonneg | done].
Qed.

(** Exchanging the two sums: the total projected mass is the weighted sum of
    the per-point kernel totals. *)
Lemma atom_mass_total v_min v_max d (ts supports weights : list R) :
  length supports = length weights ->
  Forall (fun s =>
    Rsum (map (fun z => clip (1 - Rabs (clip s v_min v_max - z) / d) 0 1) ts) = 1)
    supports ->
  Rsum (map (atom_mass v_min v_max d supports weights) ts) = Rsum weights.
Proof.
  revert weights; induction supports as [|s ss IH]; intros [|w ws] Hlen Hall;
    try discriminate.
  - rewrite Rsum_nil. clear Hall.
    induction ts as [|z ts IHts]; cbn; [done|].
    rewrite Rsum_cons, IHts. unfold atom_mass; cbn. rewrite Rsum_nil. lra.
  - inversion Hall as [|? ? Hs Hss]; subst.
    erewrite map_ext; last first.
    { intros z. unfold atom_mass. cbn [map zip_with]. rewrite Rsum_cons.
      fold (atom_mass v_min v_max d ss ws z). reflexivity. }
    rewrite Rsum_map_plus, Rsum_map_scale, Hs, IH, Rsum_cons by (done || by injection Hlen).
    lra.
Qed.

(** C2. On a valid support (at least two atoms, strictly increasing, equally
    spaced), for non-negative weights summing to one placed on arbitrarily
    positioned support points (one weight per point), [project_distribution]
    returns a vector that is non-negative in every coordinate and sums to one. *)
Theorem project_distribution_is_distribution supports weights target_support :
  valid_support target_support ->
  Forall (fun w => 0 <= w) weights ->
  Rsum weights = 1 ->
  length supports = length weights ->
  exists out,
    project_distribution supports weights target_support = Some out
    /\ Forall (fun p => 0 <= p) out
    /\ Rsum out = 1.
Proof.
  intros (v & d & n & Hd & Hn & ->) Hw Hsum Hlen.
  eexists; split; [by apply project_distribution_grid|]. split.
  - apply Forall_map, Forall_true; intros z. by apply atom_mass_nonneg.
  - rewrite atom_mass_total, Hsum; [done..|].
    apply Forall_true; intros s.
    assert (2 <= INR n) by (apply (le_INR 2); lia).
    apply kernel_sum_one; [done | lia |].
    apply clip_bounds. nra.
Qed.

(** ** Projection of an aligned distribution *)

Lemma Rsum_indicator (ks ws : list R) (i : nat) (w : R) :
  ws !! i = Some w ->
  ks !! i = Some 1 ->
  (forall j k, j <> i -> ks !! j = Some k -> k = 0) ->
  Rsum (zip_with Rmult ks ws) = w.
Proof.
  revert ws i; induction ks as [|k ks IH]; intros [|w' ws] i Hw Hk Hz;
    try discriminate.
  cbn. rewrite Rsum_cons. destruct i as [|i]; cbn in *.
  - injection Hw as ->. injection Hk as ->.
    assert (Rsum (zip_with Rmult ks ws) = 0) as ->; [|lra].
    clear IH. revert ws.
    assert (forall j k, ks !! j = Some k -> k = 0) as Hks
      by (intros j k Hj; by apply (Hz (S j))).
    clear Hz. induction ks as [|k ks IH]; intros [|w' ws]; cbn;
      try apply Rsum_nil.
    rewrite Rsum_cons, IH by (intros j; apply (Hks (S j))).
    rewrite (Hks O k) by done. lra.
  - rewrite (Hz O k) by done.
    rewrite (IH ws i); [lra | done | done |].
    intros j k' Hj. apply (Hz (S j)). lia.
Qed.

Lemma grid_kernel_self d z v_min v_max :
  0 < d -> v_min <= z <= v_max ->
  clip (1 - Rabs (clip z v_min v_max - z) / d) 0 1 = 1.
Proof.
  intros Hd Hz. rewrite (clip_id z) by done.
  rewrite Rminus_diag, Rabs_R0. unfold Rdiv. rewrite Rmult_0_l.
  rewrite clip_id; lra.
Qed.

Lemma grid_kernel_other v d n i j :
  0 < d -> (i < n)%nat -> (j < n)%nat -> j <> i ->
  clip (1 - Rabs (clip (v + INR j * d) v (v + (INR n - 1) * d)
                  - (v + INR i * d)) / d) 0 1 = 0.
Proof.
  intros Hd Hi Hj Hne.
  assert (0 <= INR j) by apply pos_INR.
  assert (INR j <= INR n - 1).
  { replace (INR n - 1) with (INR (n - 1)) by (rewrite minus_INR by lia; done).
    apply le_INR. lia. }
  rewrite (clip_id (v + INR j * d)) by nra.
  apply kernel_far; [done|].
  replace (v + INR j * d - (v + INR i * d)) with ((INR j - INR i) * d) by lra.
  rewrite Rabs_mult, (Rabs_right d) by lra.
  assert (1 <= Rabs (INR j - INR i)); [|nra].
  destruct (Nat.lt_ge_cases j i) as [Hlt|Hge].
  - rewrite Rabs_left1.
    + apply (le_INR (S j)) in Hlt. rewrite S_INR in Hlt. lra.
    + apply le_INR in Hlt. rewrite S_INR in Hlt. lra.
  - assert (S i <= j)%nat as Hij by lia.
    apply le_INR in Hij. rewrite S_INR in Hij.
    rewrite Rabs_right; lra.
Qed.

(** C8. A distribution already aligned on the grid (input support equal to a
    valid [target_support], one weight per atom) is returned unchanged. *)
Theorem project_distribution_aligned weights target_support :
  valid_support target_support ->
  length weights = length target_support ->
  project_distribution target_support weights target_support = Some weights.
Proof.
  intros (v & d & n & Hd & Hn & ->) Hlen. rewrite grid_length in Hlen.
  rewrite project_distribution_grid by (rewrite ?grid_length; done).
  f_equal. apply list_eq; intros i. rewrite list_lookup_fmap.
  destruct (Nat.lt_ge_cases i n) as [Hi|Hi]; last first.
  { rewrite (lookup_ge_None_2 (grid v d n)) by (rewrite grid_length; lia).
    by rewrite lookup_ge_None_2 by lia. }
  rewrite grid_lookup by done. cbn.
  destruct (lookup_lt_is_Some_2 weights i) as [w Hw]; [lia|].
  rewrite Hw. f_equal. unfold atom_mass.
  assert (INR i <= INR n - 1) as Hin.
  { replace (INR n - 1) with (INR (n - 1)) by (rewrite minus_INR by lia; done).
    apply le_INR. lia. }
  assert (0 <= INR i) by apply pos_INR.
  apply (Rsum_indicator _ _ i); [done | |].
  - rewrite list_lookup_fmap, grid_lookup by done. cbn. f_equal.
    apply grid_kernel_self; [done | nra].
  - intros j k Hji. rewrite list_lookup_fmap.
    destruct (Nat.lt_ge_cases j n) as [Hj|Hj].
    + rewrite grid_lookup by done. cbn. intros [= <-].
      by apply grid_kernel_other.
    + rewrite lookup_ge_None_2 by (rewrite grid_length; lia). done.
Qed.

Lemma valid_support_three : valid_support [-1; 0; 1].
Proof.
  exists (-1), 1, 3%nat. split; [lra|]. split; [lia|].
  cbn. repeat f_equal; lra.
Defined.

Lemma project_distribution_is_distribution_witness :
  exists out,
    project_distribution [1/10; 1; 19/10] [1/2; 1/2; 0] [-1; 0; 1] = Some out
    /\ Forall (fun p => 0 <= p) out
    /\ Rsum out = 1.
Proof.
  apply project_distribution_is_distribution.
  - apply valid_support_three.
  - repeat constructor; lra.
  - unfold Rsum; cbn. lra.
  - reflexivity.
Defined.

Lemma project_distribution_aligned_witness :
  project_distribution [-1; 0; 1] [1/4; 1/2; 1/4] [-1; 0; 1]
  = Some [1/4; 1/2; 1/4].
Proof.
  apply project_distribution_aligned.
  - apply valid_support_three.
  - reflexivity.
Defined.

(** ** prefetch_to_device *)

Section Prefetch.
Context {A I : Type}.
Variable next : I -> option (A * I).

Lemma take_queued_nil k it : take_queued next k [] it = iter_take next k it.
Proof. by destruct k. Qed.

Lemma take_queued_append k queue it data it' :
  next it = Some (data, it') ->
  take_queued next k (queue ++ [data]) it' = take_queued next k queue it.
Proof.
  intros Hnext. revert k; induction queue as [|x queue IH]; intros [|k]; cbn;
    try done.
  - by rewrite Hnext, take_queued_nil.
  - by rewrite IH.
Qed.

(** Enqueueing moves elements from the iterator to the back of the queue: the
    pending sequence is unchanged. *)
Lemma enqueue_pending n k it queue :
  take_queued next k (enqueue next n it queue).2 (enqueue next n it queue).1
  = take_queued next k queue it.
Proof.
  revert it queue; induction n as [|n IH]; intros it queue; cbn; [done|].
  destruct (next it) as [[data it']|] eqn:Hnext; [|done].
  rewrite IH. by apply take_queued_append.
Qed.

Lemma enqueue_length_ge n it queue :
  (length queue <= length (enqueue next n it queue).2)%nat.
Proof.
  revert it queue; induction n as [|n IH]; intros it queue; cbn; [done|].
  destruct (next it) as [[data it']|]; [|done].
  etrans; [|apply IH]. rewrite length_app. lia.
Qed.

Lemma enqueue_empty n it queue :
  (1 <= n)%nat -> (enqueue next n it queue).2 = [] ->
  next (enqueue next n it queue).1 = None.
Proof.
  intros Hn. destruct n as [|n]; [lia|]. cbn.
  destruct (next it) as [[data it']|] eqn:Hnext; [|done].
  intros Hq. pose proof (enqueue_length_ge n it' (queue ++ [data])) as Hlen.
  rewrite Hq, length_app in Hlen. cbn in Hlen. lia.
Qed.

Lemma prefetch_after_enqueue size n k it queue :
  (1 <= n)%nat ->
  (forall it' queue', iter_take (prefetch_next next size) k (PYielded it' queue')
                      = take_queued next k queue' it') ->
  iter_take (prefetch_next next size) (S k) (PFill n it queue)
  = take_queued next (S k) queue it.
Proof.
  intros Hn IH. rewrite <- (enqueue_pending n). cbn [iter_take prefetch_next].
  pose proof (enqueue_empty n it queue Hn) as Hempty.
  destruct (enqueue next n it queue) as [it' queue']; cbn in *.
  destruct queue' as [|x queue']; cbn.
  - by rewrite Hempty.
  - by rewrite IH.
Qed.

Lemma prefetch_yielded_sequence size k it queue :
  iter_take (prefetch_next next size) k (PYielded it queue)
  = take_queued next k queue it.
Proof.
  revert it queue; induction k as [|k IH]; intros it queue; [done|].
  by rewrite <- (prefetch_after_enqueue size 1 k it queue).
Qed.

Lemma prefetch_step_inv size st st' out :
  prefetch_inv size st ->
  prefetch_step next size st = Some (st', out) ->
  prefetch_inv size st'.
Proof.
  destruct st as [it|[|n] it queue|it [|x queue]|it queue|it queue]; cbn;
    intros Hinv Hstep; try (injection Hstep as <- _; cbn in *; lia).
  - destruct (next it) as [[data it']|]; injection Hstep as <- _; cbn.
    + rewrite length_app. cbn. lia.
    + lia.
  - done.
Qed.

Lemma prefetch_inv_bound size (st : prefetch_state A I) :
  prefetch_inv size st -> (length (queue_of st) <= size)%nat.
Proof. destruct st; cbn; lia. Qed.

(** Each call of [prefetch_next] is a run of the step-by-step body. *)
Lemma prefetch_fill_reach size n it queue :
  prefetch_reach next size (PFill n it queue)
    (PLoop (enqueue next n it queue).1 (enqueue next n it queue).2).
Proof.
  revert it queue; induction n as [|n IH]; intros it queue; cbn.
  - apply rtc_once. by eexists.
  - destruct (next it) as [[data it']|] eqn:Hnext.
    + eapply rtc_l; [|apply IH]. eexists. cbn. by rewrite Hnext.
    + apply rtc_once. eexists. cbn. by rewrite Hnext.
Qed.

Lemma prefetch_next_reach size st x st' :
  prefetch_next next size st = Some (x, st') ->
  prefetch_reach next size st st'.
Proof.
  assert (forall it queue, prefetch_pop it queue = Some (x, st') ->
            prefetch_reach next size (PLoop it queue) st') as Hpop.
  { intros it [|y queue]; cbn; [done|]. intros [= -> <-].
    apply rtc_once. by eexists. }
  assert (forall n it queue,
    (let '(it', queue') := enqueue next n it queue in prefetch_pop it' queue')
      = Some (x, st') ->
    prefetch_reach next size (PFill n it queue) st') as Hfill.
  { intros n it queue. pose proof (prefetch_fill_reach size n it queue) as Hr.
    destruct (enqueue next n it queue) as [it' queue']. cbn in Hr.
    intros Hp. etrans; [apply Hr | by apply Hpop]. }
  destruct st as [it|n it queue|it queue|it queue|it queue]; cbn; try done.
  - intros Hp. eapply rtc_l; [by eexists | by apply Hfill].
  - apply Hfill.
  - apply Hpop.
  - intros Hp. eapply rtc_l; [by eexists | by apply Hfill].
Qed.

(** C10. With a prefetch depth of at least one, the generator yields exactly
    the sequence of the underlying iterator (every finite prefix agrees, so
    nothing is dropped, duplicated or reordered, and it stops when the iterator
    stops), and along every execution of its body the queue never holds more
    than [size] elements. *)
Theorem prefetch_to_device_sequence (size : nat) (iterator : I) :
  (1 <= size)%nat ->
  (forall k, iter_take (prefetch_next next size) k (PStart iterator)
             = iter_take next k iterator)
  /\ (forall st, prefetch_reach next size (PStart iterator) st ->
                 (length (queue_of st) <= size)%nat).
Proof.
  intros Hsize. split.
  - intros [|k]; [done|].
    change (iter_take (prefetch_next next size) (S k) (PStart iterator))
      with (iter_take (prefetch_next next size) (S k) (PFill size iterator [])).
    rewrite prefetch_after_enqueue; [done | done |].
    intros; apply prefetch_yielded_sequence.
  - intros st Hreach. apply prefetch_inv_bound.
    assert (prefetch_inv size (PStart (A:=A) iterator)) as Hinv by done.
    revert Hinv. induction Hreach as [|st1 st2 st3 [out Hstep] _ IH]; [done|].
    intros Hinv. apply IH. by eapply prefetch_step_inv.
Qed.

End Prefetch.

(** ** prefetch_to_device on a concrete iterator *)

Example prefetch_example :
  iter_take (prefetch_next list_next 2) 5 (PStart [10; 20; 30]%nat)
  = [10; 20; 30]%nat.
Proof. reflexivity. Qed.

(** With a depth of zero nothing is ever yielded. *)
Example prefetch_depth_zero :
  iter_take (prefetch_next list_next 0) 5 (PStart [10; 20; 30]%nat) = [].
Proof. reflexivity. Qed.

Lemma prefetch_to_device_sequence_witness :
  (forall k, iter_take (prefetch_next list_next 2) k (PStart [10; 20; 30]%nat)
             = iter_take list_next k [10; 20; 30]%nat)
  /\ (forall st, prefetch_reach list_next 2 (PStart [10; 20; 30]%nat) st ->
                 (length (queue_of st) <= 2)%nat).
Proof.
  apply (prefetch_to_device_sequence list_next 2 [10; 20; 30]%nat). lia.
Defined.

(** ** Parameter trees *)

Lemma map_sequence_fmap_Some {A} (m : gmap string A) :
  map_sequence (Some <$> m) = Some m.
Proof.
  unfold map_sequence. rewrite bool_decide_eq_true_2.
  - f_equal. apply map_eq; intros k.
    rewrite lookup_omap, lookup_fmap. by destruct (m !! k).
  - intros k o. rewrite lookup_fmap. destruct (m !! k); intros [= <-]. by eexists.
Qed.

Lemma map_sequence_Some_inv {A} (M : gmap string (option A)) m :
  map_sequence M = Some m -> M = Some <$> m.
Proof.
  unfold map_sequence. case_bool_decide as Hall; [|done]. intros [= <-].
  apply map_eq; intros k. rewrite lookup_fmap, lookup_omap.
  destruct (M !! k) as [o|] eqn:Hk; [|done].
  destruct (Hall k o Hk) as [x ->]. done.
Qed.

Lemma combination_identity a b :
  same_shape a b -> combination 1 0 a b = Some a.
Proof.
  unfold same_shape, combination, broadcast_add, broadcast. intros Hlen.
  rewrite decide_True by (by rewrite !length_map). f_equal.
  revert b Hlen; induction a as [|x a IH]; intros [|y b] Hlen; try done.
  cbn. rewrite IH by (by injection Hlen). f_equal. lra.
Qed.

Lemma combination_replace a b :
  same_shape a b -> combination 0 1 a b = Some b.
Proof.
  unfold same_shape, combination, broadcast_add, broadcast. intros Hlen.
  rewrite decide_True by (by rewrite !length_map). f_equal.
  revert b Hlen; induction a as [|x a IH]; intros [|y b] Hlen; try done.
  cbn. rewrite IH by (by injection Hlen). f_equal. lra.
Qed.

Lemma same_dom_lookup {A B} (m1 : gmap string A) (m2 : gmap string B) k v1 :
  dom m1 = dom m2 -> m1 !! k = Some v1 -> exists v2, m2 !! k = Some v2.
Proof.
  intros Hdom Hk. apply (elem_of_dom_2 m1) in Hk. rewrite Hdom in Hk.
  by apply elem_of_dom in Hk.
Qed.

(** With weights (1, 0) the tree map gives back the old tree. *)
Lemma tree_map2_identity (old new : params) :
  same_structure same_shape old new ->
  tree_map2 (combination 1 0) old new = Some old.
Proof.
  induction 1 as [a b Hab|m1 m2 Hdom _ IH]; cbn.
  - by rewrite combination_identity.
  - rewrite bool_decide_eq_true_2 by done.
    replace (map_imap _ m1) with (Some <$> m1).
    { by rewrite map_sequence_fmap_Some. }
    apply map_eq; intros k. rewrite lookup_fmap, map_lookup_imap.
    destruct (m1 !! k) as [v1|] eqn:Hk; [|done]. cbn.
    destruct (same_dom_lookup m1 m2 k v1 Hdom Hk) as [v2 Hk2].
    rewrite Hk2. cbn. by rewrite (IH k v1 v2).
Qed.

(** With weights (0, 1) it gives the new tree. *)
Lemma tree_map2_replace (old new : params) :
  same_structure same_shape old new ->
  tree_map2 (combination 0 1) old new = Some new.
Proof.
  induction 1 as [a b Hab|m1 m2 Hdom _ IH]; cbn.
  - by rewrite combination_replace.
  - rewrite bool_decide_eq_true_2 by done.
    replace (map_imap _ m1) with (Some <$> m2).
    { by rewrite map_sequence_fmap_Some. }
    apply map_eq; intros k. rewrite lookup_fmap, map_lookup_imap.
    destruct (m1 !! k) as [v1|] eqn:Hk; cbn.
    + destruct (same_dom_lookup m1 m2 k v1 Hdom Hk) as [v2 Hk2].
      rewrite Hk2. cbn. by rewrite (IH k v1 v2).
    + apply not_elem_of_dom in Hk. rewrite Hdom in Hk.
      apply not_elem_of_dom in Hk. by rewrite Hk.
Qed.

(** ** interpolate_weights *)

(** The second loop: every group outside [keys] is carried over. *)
Lemma carry_over_lookup (keys : list string) (combined old_items : gmap string params) j :
  carry_over keys combined old_items !! j
  = if bool_decide (j ∈ keys) then combined !! j
    else match old_items !! j with Some v => Some v | None => combined !! j end.
Proof.
  unfold carry_over. apply (map_fold_weak_ind (fun r m =>
    r !! j = if bool_decide (j ∈ keys) then combined !! j
             else match m !! j with Some v => Some v | None => combined !! j end)).
  - rewrite lookup_empty. by case_bool_decide.
  - intros i x m r Hi IH. destruct (decide (i = j)) as [->|Hne].
    + rewrite lookup_insert_eq. case_bool_decide; [done|]. by rewrite lookup_insert_eq.
    + rewrite (lookup_insert_ne m) by done. rewrite <- IH.
      destruct (bool_decide (i ∈ keys)); [done | by rewrite lookup_insert_ne].
Qed.

(** The first loop, when it returns: interpolated groups hold the tree map of
    the old and the new group, the accumulator is untouched elsewhere. *)
Lemma interpolate_keys_lookup ow nw (old new : params) keys acc combined :
  interpolate_keys ow nw old new keys acc = Some combined ->
  forall k,
    (k ∈ keys -> exists v r v',
        subscript old k = Some v /\ subscript new k = Some r /\
        tree_map2 (combination ow nw) v r = Some v' /\ combined !! k = Some v')
    /\ (k ∉ keys -> combined !! k = acc !! k).
Proof.
  revert acc; induction keys as [|k0 keys IH]; intros acc; cbn.
  - intros [= <-] k. split; [by intros ?%elem_of_nil | done].
  - destruct (subscript old k0) as [v0|] eqn:Hv0; [|done]. cbn.
    destruct (subscript new k0) as [r0|] eqn:Hr0; [|done]. cbn.
    destruct (tree_map2 _ v0 r0) as [c0|] eqn:Hc0; [|done]. cbn.
    intros Hrest k. destruct (IH _ Hrest k) as [Hin Hout]. split.
    + intros [->|Hk]%elem_of_cons; [|by apply Hin].
      destruct (decide (k0 ∈ keys)) as [Hk|Hk]; [by apply Hin|].
      exists v0, r0, c0. repeat split; try done.
      by rewrite Hout, lookup_insert_eq.
    + intros [Hne Hk]%not_elem_of_cons.
      by rewrite Hout, lookup_insert_ne.
Qed.

(** The first loop returns as soon as every named group can be combined. *)
Lemma interpolate_keys_total ow nw (old new : params) keys acc :
  (forall k, k ∈ keys -> exists v r v',
      subscript old k = Some v /\ subscript new k = Some r /\
      tree_map2 (combination ow nw) v r = Some v') ->
  exists combined, interpolate_keys ow nw old new keys acc = Some combined.
Proof.
  revert acc; induction keys as [|k0 keys IH]; intros acc Hall; cbn; [by eexists|].
  destruct (Hall k0) as (v & r & v' & -> & -> & Hv'); [left|]. cbn.
  rewrite Hv'. cbn. apply IH. intros k Hk. apply Hall. by right.
Qed.

Lemma interpolated_keys_dom {A} keys (old_items : gmap string A) k :
  match keys with
  | Some ks => forall k', k' ∈ ks -> is_Some (old_items !! k')
  | None => True
  end ->
  k ∈ interpolated_keys keys old_items -> is_Some (old_items !! k).
Proof.
  destruct keys as [ks|]; cbn; [by auto|].
  intros _ [[k' v] [-> Hin]]%list_elem_of_fmap.
  apply elem_of_map_to_list in Hin. by eexists.
Qed.

(** Structurally identical trees have structurally identical groups. *)
Lemma same_structure_groups {A} (leaf_ok : A -> A -> Prop) strip old new og :
  same_structure leaf_ok old new ->
  groups_of strip old = Some og ->
  exists new' ng,
    strip_layer strip new = Some new' /\ dict_of new' = Some ng /\
    dom og = dom ng /\
    forall k v r, og !! k = Some v -> ng !! k = Some r ->
                  same_structure leaf_ok v r.
Proof.
  assert (forall t1 t2 m1, same_structure leaf_ok t1 t2 -> dict_of t1 = Some m1 ->
            exists m2, dict_of t2 = Some m2 /\ dom m1 = dom m2 /\
              forall k v r, m1 !! k = Some v -> m2 !! k = Some r ->
                            same_structure leaf_ok v r) as Hdict.
  { intros t1 t2 m1 [a b ?|m m2 Hdom Hsub]; cbn; [done|].
    intros [= <-]. by exists m2. }
  unfold groups_of, strip_layer. destruct strip; cbn.
  - intros [a b ?|m1 m2 Hdom Hsub]; cbn; [done|].
    destruct (m1 !! "params") as [t1|] eqn:Ht1; [|done]. cbn. intros Hog.
    destruct (same_dom_lookup m1 m2 _ _ Hdom Ht1) as [t2 Ht2].
    destruct (Hdict t1 t2 og (Hsub _ _ _ Ht1 Ht2) Hog) as (ng & ? & ? & ?).
    by exists t2, ng.
  - intros Hs Hog. destruct (Hdict old new og Hs Hog) as (ng & ? & ? & ?).
    by exists new, ng.
Qed.

(** What [interpolate_weights] returns, group by group. *)
Lemma interpolate_weights_groups old new keys ow nw strip t og :
  interpolate_weights old new keys ow nw strip = Some t ->
  groups_of strip old = Some og ->
  exists new' cg,
    strip_layer strip new = Some new' /\ groups_of strip t = Some cg /\
    forall k,
      (k ∈ interpolated_keys keys og -> exists v r v',
          og !! k = Some v /\ subscript new' k = Some r /\
          tree_map2 (combination ow nw) v r = Some v' /\ cg !! k = Some v')
      /\ (k ∉ interpolated_keys keys og -> cg !! k = og !! k).
Proof.
  unfold interpolate_weights, groups_of.
  destruct (strip_layer strip old) as [old'|]; [|done]. cbn.
  destruct (strip_layer strip new) as [new'|]; [|done]. cbn.
  destruct old' as [a|m]; [done|]. cbn.
  destruct (interpolate_keys _ _ _ _ _ _) as [combined|] eqn:Hkeys; [|done]. cbn.
  intros [= <-] [= <-]. exists new'.
  exists (carry_over (interpolated_keys keys m) combined m). split; [done|]. split.
  { destruct strip; cbn; [by rewrite lookup_singleton_eq | done]. }
  intros k. destruct (interpolate_keys_lookup _ _ _ _ _ _ _ Hkeys k) as [Hin Hout].
  rewrite carry_over_lookup. split; intros Hk.
  - rewrite bool_decide_eq_true_2 by done.
    destruct (Hin Hk) as (v & r & v' & ? & ? & ? & ?). by exists v, r, v'.
  - rewrite bool_decide_eq_false_2, (Hout Hk), lookup_empty by done.
    by destruct (m !! k).
Qed.

Lemma interpolate_weights_total old new keys ow nw strip og new' :
  groups_of strip old = Some og ->
  strip_layer strip new = Some new' ->
  (forall k, k ∈ interpolated_keys keys og -> exists v r v',
      og !! k = Some v /\ subscript new' k = Some r /\
      tree_map2 (combination ow nw) v r = Some v') ->
  exists t, interpolate_weights old new keys ow nw strip = Some t.
Proof.
  unfold interpolate_weights, groups_of.
  destruct (strip_layer strip old) as [old'|]; [|done]. cbn.
  intros Hog -> Hall. cbn. rewrite Hog. cbn.
  destruct old' as [a|m]; [done|]. injection Hog as <-.
  destruct (interpolate_keys_total ow nw (Node m) new'
              (interpolated_keys keys m) ∅) as [combined ->]; [done|].
  cbn. by eexists.
Qed.

(** C7. For structurally identical parameter trees and any choice of
    interpolated groups (named groups of the tree, or all of them),
    [interpolate_weights] with weights (1, 0) returns the old value of every
    interpolated group, and with weights (0, 1) the new value. *)
Theorem interpolate_weights_endpoints (old_params new_params : params)
  (keys : option (list string)) (strip_params_layer : bool)
  (old_groups : gmap string params) :
  same_structure same_shape old_params new_params ->
  groups_of strip_params_layer old_params = Some old_groups ->
  match keys with
  | Some ks => forall k, k ∈ ks -> is_Some (old_groups !! k)
  | None => True
  end ->
  exists new_groups kept replaced kept_groups replaced_groups,
    groups_of strip_params_layer new_params = Some new_groups
    /\ interpolate_weights old_params new_params keys 1 0 strip_params_layer
       = Some kept
    /\ interpolate_weights old_params new_params keys 0 1 strip_params_layer
       = Some replaced
    /\ groups_of strip_params_layer kept = Some kept_groups
    /\ groups_of strip_params_layer replaced = Some replaced_groups
    /\ forall k, k ∈ interpolated_keys keys old_groups ->
         kept_groups !! k = old_groups !! k
         /\ replaced_groups !! k = new_groups !! k.
Proof.
  intros Hsame Hog Hkeys.
  destruct (same_structure_groups _ _ _ _ _ Hsame Hog)
    as (new' & ng & Hnew' & Hng & Hdom & Hsub).
  assert (forall k, k ∈ interpolated_keys keys old_groups -> exists v r,
            old_groups !! k = Some v /\ subscript new' k = Some r /\
            ng !! k = Some r /\ same_structure same_shape v r) as Hgroup.
  { intros k Hk. destruct (interpolated_keys_dom _ _ _ Hkeys Hk) as [v Hv].
    destruct (same_dom_lookup _ _ _ _ Hdom Hv) as [r Hr].
    exists v, r. repeat split; try done; [|by eapply Hsub].
    destruct new'; [done | by injection Hng as ->]. }
  destruct (interpolate_weights_total old_params new_params keys 1 0
              strip_params_layer old_groups new' Hog Hnew') as [kept Hkept].
  { intros k Hk. destruct (Hgroup k Hk) as (v & r & ? & ? & _ & ?).
    exists v, r, v. repeat split; try done. by apply tree_map2_identity. }
  destruct (interpolate_weights_total old_params new_params keys 0 1
              strip_params_layer old_groups new' Hog Hnew') as [repl Hrepl].
  { intros k Hk. destruct (Hgroup k Hk) as (v & r & ? & ? & _ & ?).
    exists v, r, r. repeat split; try done. by apply tree_map2_replace. }
  destruct (interpolate_weights_groups _ _ _ _ _ _ _ _ Hkept Hog)
    as (new1 & kg & Hnew1 & Hkg & Hk1).
  destruct (interpolate_weights_groups _ _ _ _ _ _ _ _ Hrepl Hog)
    as (new2 & rg & Hnew2 & Hrg & Hk2).
  exists ng, kept, repl, kg, rg. repeat split; try done.
  { unfold groups_of. by rewrite Hnew'. }
  - destruct (Hgroup k H) as (v & r & Hv & Hr & _ & Hs).
    destruct (Hk1 k) as [Hin _]. destruct (Hin H) as (v1 & r1 & v1' & ? & ? & Hmap & ->).
    rewrite Hnew' in Hnew1. simplify_eq.
    rewrite tree_map2_identity in Hmap by done. by simplify_eq.
  - destruct (Hgroup k H) as (v & r & Hv & Hr & Hng' & Hs).
    destruct (Hk2 k) as [Hin _]. destruct (Hin H) as (v1 & r1 & v1' & ? & ? & Hmap & ->).
    rewrite Hnew' in Hnew2. simplify_eq.
    rewrite tree_map2_replace in Hmap by done. by simplify_eq.
Qed.

Lemma interpolate_weights_endpoints_witness :
  exists new_groups kept replaced kept_groups replaced_groups,
    groups_of true ex_new_params = Some new_groups
    /\ interpolate_weights ex_old_params ex_new_params (Some ["head"]) 1 0 true
       = Some kept
    /\ interpolate_weights ex_old_params ex_new_params (Some ["head"]) 0 1 true
       = Some replaced
    /\ groups_of true kept = Some kept_groups
    /\ groups_of true replaced = Some replaced_groups
    /\ forall k, k ∈ interpolated_keys (Some ["head"]) ex_old_groups ->
         kept_groups !! k = ex_old_groups !! k
         /\ replaced_groups !! k = new_groups !! k.
Proof.
  apply interpolate_weights_endpoints.
  - unfold ex_old_params, ex_new_params, ex_old_groups, ex_new_groups.
    same_structure_tac.
  - reflexivity.
  - intros k ->%list_elem_of_singleton. by eexists.
Defined.


(** ** copy_params *)

(** One level of [copy_params] on a dictionary, when it returns. *)
Lemma copy_params_Node_inv {A} (m : gmap string (tree A)) target keys t :
  copy_params (Node m) target keys = Some t ->
  exists m', t = Node m' /\
    forall k v, m !! k = Some v ->
      exists x, m' !! k = Some x /\
        (if bool_decide (k ∈ keys) then Some v
         else subscript target k ≫= fun target_k => copy_params v target_k keys)
        = Some x.
Proof.
  cbn. destruct (map_sequence _) as [m'|] eqn:Hseq; [|done]. cbn.
  intros [= <-]. exists m'. split; [done|]. intros k v Hk.
  apply map_sequence_Some_inv in Hseq.
  apply (f_equal (fun M => M !! k)) in Hseq.
  rewrite map_lookup_imap, lookup_fmap, Hk in Hseq. cbn in Hseq.
  destruct (m' !! k) as [x|]; cbn in *; [|done].
  exists x. split; [done | congruence].
Qed.

(** A source none of whose keys is to be copied is replaced by the target. *)
Lemma copy_params_fresh {A} (source target : tree A) keys :
  same_structure any_leaf source target ->
  key_free keys source ->
  copy_params source target keys = Some target.
Proof.
  induction 1 as [a b _|m1 m2 Hdom Hsub IH]; [done|].
  intros Hfree. inversion Hfree as [|? Hkeys Hchildren]; subst. cbn.
  replace (map_imap _ m1) with (Some <$> m2).
  { by rewrite map_sequence_fmap_Some. }
  apply map_eq; intros k. rewrite lookup_fmap, map_lookup_imap.
  destruct (m1 !! k) as [v1|] eqn:Hk; cbn.
  - rewrite bool_decide_eq_false_2 by (by eapply Hkeys).
    destruct (same_dom_lookup m1 m2 k v1 Hdom Hk) as [v2 Hk2].
    rewrite Hk2. cbn. rewrite (IH k v1 v2) by eauto. done.
  - apply not_elem_of_dom in Hk. rewrite Hdom in Hk.
    apply not_elem_of_dom in Hk. by rewrite Hk.
Qed.

(** The tree map keeps the keys of its first argument. *)
Lemma tree_map2_structure (f : list R -> list R -> option (list R)) keys
  (v r t : params) :
  same_structure any_leaf v r ->
  tree_map2 f v r = Some t ->
  same_structure any_leaf t r /\ (key_free keys v -> key_free keys t).
Proof.
  intros Hs. revert t. induction Hs as [a b _|m1 m2 Hdom Hsub IH]; intros t; cbn.
  - destruct (f a b); cbn; [|done]. intros [= <-]. split; by constructor.
  - rewrite bool_decide_eq_true_2 by done.
    destruct (map_sequence _) as [m'|] eqn:Hseq; [|done]. cbn. intros [= <-].
    apply map_sequence_Some_inv in Hseq.
    assert (forall k, m' !! k = m1 !! k ≫= fun v1 =>
              m2 !! k ≫= fun v2 => tree_map2 f v1 v2) as Hlook.
    { intros k. apply (f_equal (fun M => M !! k)) in Hseq.
      rewrite map_lookup_imap, lookup_fmap in Hseq.
      destruct (m1 !! k); cbn in *.
      - destruct (m' !! k); cbn in *; by simplify_eq.
      - by destruct (m' !! k). }
    assert (dom m' = dom m1) as Hdom'.
    { apply set_eq; intros k. rewrite !elem_of_dom.
      apply (f_equal (fun M => M !! k)) in Hseq.
      rewrite map_lookup_imap, lookup_fmap in Hseq.
      destruct (m1 !! k), (m' !! k); cbn in *; simplify_eq;
        split; intros [? ?]; by eauto. }
    assert (forall k t', m' !! k = Some t' -> exists v1 v2,
              m1 !! k = Some v1 /\ m2 !! k = Some v2 /\
              tree_map2 f v1 v2 = Some t') as Hchild.
    { intros k t'. rewrite Hlook.
      destruct (m1 !! k) as [v1|]; cbn; [|done].
      destruct (m2 !! k) as [v2|]; cbn; [|done]. by eauto. }
    split.
    + constructor; [congruence|]. intros k t' r' Ht' Hr'.
      destruct (Hchild k t' Ht') as (v1 & v2 & Hv1 & Hv2 & Hmap).
      simplify_eq. by apply (IH k v1 r').
    + intros Hfree. inversion Hfree as [|? Hkeys Hchildren]; subst.
      constructor; intros k t' Ht';
        destruct (Hchild k t' Ht') as (v1 & v2 & Hv1 & Hv2 & Hmap).
      * by eapply Hkeys.
      * apply (IH k v1 v2); eauto.
Qed.

(** [copy_params] on parameter trees with an outer "params" layer, group by
    group. *)
Lemma copy_params_groups {A} (source target t : tree A) keys sg rg :
  copy_params source target keys = Some t ->
  "params" ∉ keys ->
  groups_of true source = Some sg ->
  groups_of true target = Some rg ->
  exists tg, groups_of true t = Some tg /\
    forall g v, sg !! g = Some v ->
      exists x, tg !! g = Some x /\
        (if bool_decide (g ∈ keys) then Some v
         else rg !! g ≫= fun r => copy_params v r keys) = Some x.
Proof.
  unfold groups_of, strip_layer. intros Hcopy Hparams Hsg Hrg.
  destruct source as [a|ms]; [done|]. cbn in Hsg.
  destruct (ms !! "params") as [sp|] eqn:Hsp; [|done].
  destruct sp as [a|sg']; [done|]. cbn in Hsg. injection Hsg as ->.
  destruct (subscript target "params") as [tp|] eqn:Htp; [|done].
  destruct tp as [a|rg']; [done|]. cbn in Hrg. injection Hrg as ->.
  destruct (copy_params_Node_inv _ _ _ _ Hcopy) as (m' & -> & Hm').
  destruct (Hm' _ _ Hsp) as (x & Hx & Hcopy').
  rewrite bool_decide_eq_false_2, Htp in Hcopy' by done.
  change (copy_params (Node sg) (Node rg) keys = Some x) in Hcopy'.
  destruct (copy_params_Node_inv _ _ _ _ Hcopy') as (tg & -> & Htg).
  exists tg. cbn. rewrite Hx. split; [done|]. apply Htg.
Qed.

(** The parameter logic of a reset, group by group: a group to copy keeps its
    old value, after shrink-and-perturb when it is also interpolated; any
    other group whose subtree has no key to copy is the fresh group. *)
Lemma reset_params_groups (old fresh t : params) spk sf pf keys og rg :
  reset_params old fresh spk sf pf keys = Some t ->
  "params" ∉ keys ->
  groups_of true old = Some og ->
  groups_of true fresh = Some rg ->
  exists tg, groups_of true t = Some tg /\
    forall g v, og !! g = Some v ->
      (g ∈ keys -> exists v', tg !! g = Some v' /\
         if bool_decide (g ∈ spk)
         then exists r, rg !! g = Some r /\
                tree_map2 (combination sf pf) v r = Some v'
         else v' = v)
      /\ (g ∉ keys -> forall r,
            rg !! g = Some r -> same_structure any_leaf v r ->
            key_free keys v -> tg !! g = Some r).
Proof.
  unfold reset_params. intros Hreset Hparams Hog Hrg.
  assert (exists old1 og1,
    copy_params old1 fresh keys = Some t /\ groups_of true old1 = Some og1 /\
    forall g v, og !! g = Some v ->
      exists v1, og1 !! g = Some v1 /\
        if bool_decide (g ∈ spk)
        then exists r, rg !! g = Some r /\
               tree_map2 (combination sf pf) v r = Some v1
        else v1 = v) as (old1 & og1 & Hcopy & Hog1 & Hinterp).
  { destruct spk as [|k0 spk'].
    - cbn in Hreset. exists old, og. repeat split; try done.
      intros g v Hv. exists v. split; [done|].
      by rewrite bool_decide_eq_false_2 by apply not_elem_of_nil.
    - remember (k0 :: spk') as spk.
      assert ((interpolate_weights old fresh (Some spk) sf pf true
               ≫= fun old1 => copy_params old1 fresh keys) = Some t) as Hreset'
        by (by rewrite Heqspk in Hreset |- *).
      clear Hreset.
      destruct (interpolate_weights old fresh (Some spk) sf pf true)
        as [old1|] eqn:Hint; [|done].
      change (copy_params old1 fresh keys = Some t) in Hreset'.
      destruct (interpolate_weights_groups _ _ _ _ _ _ _ _ Hint Hog)
        as (fresh' & og1 & Hfresh' & Hog1 & Hk).
      exists old1, og1. repeat split; try done.
      intros g v Hv. destruct (Hk g) as [Hin Hout]. cbn in Hin, Hout.
      case_bool_decide as Hg.
      + destruct (Hin Hg) as (v0 & r & v1 & Hv0 & Hr & Hmap & Hv1).
        exists v1. split; [done|]. exists r. simplify_eq. split; [|done].
        unfold groups_of in Hrg. rewrite Hfresh' in Hrg. cbn in Hrg.
        destruct fresh'; [done|]. by injection Hrg as <-.
      + exists v. by rewrite (Hout Hg). }
  destruct (copy_params_groups _ _ _ _ _ _ Hcopy Hparams Hog1 Hrg)
    as (tg & Htg & Hgroups).
  exists tg. split; [done|]. intros g v Hv.
  destruct (Hinterp g v Hv) as (v1 & Hv1 & Hsp).
  destruct (Hgroups g v1 Hv1) as (x & Hx & Hcase). split.
  - intros Hg. rewrite bool_decide_eq_true_2 in Hcase by done.
    injection Hcase as <-. by exists v1.
  - intros Hg r Hr Hsame Hfree. rewrite bool_decide_eq_false_2 in Hcase by done.
    rewrite Hr in Hcase. cbn in Hcase. rewrite Hx. rewrite <- Hcase.
    case_bool_decide.
    + destruct Hsp as (r' & Hr' & Hmap). simplify_eq.
      destruct (tree_map2_structure _ keys _ _ _ Hsame Hmap) as [Hs1 Hf1].
      apply copy_params_fresh; auto.
    + subst v1. by apply copy_params_fresh.
Qed.

(** ** The reset engine *)

Example reset_weights_skipped_example :
  BBFAgent.reset_check (ex_agent ex_old_params ex_new_params false [] 95 90)
  = Some {| BBFAgent.config := ex_config ex_new_params false [];
            BBFAgent.training_steps := 95;
            BBFAgent._rng := 1%nat;
            BBFAgent.online_params := ex_old_params;
            BBFAgent.target_network_params := ex_old_params;
            BBFAgent.optimizer_state := [];
            BBFAgent.random_params := ex_old_params;
            BBFAgent.cumulative_resets := 4;
            BBFAgent.next_reset := 105;
            BBFAgent.cycle_grad_steps := 5;
            BBFAgent.stats_ent := 0 |}.
Proof. reflexivity. Qed.

(** C1, as stated, fails on two inputs.  At step 95 (reset_every 10,
    no_resets_after 100, reset_offset 1) the reset is skipped, yet
    cumulative_resets goes from 3 to 4 and next_reset from 90 to 105.  At
    step 91 the stated condition holds (91 + 10 + 1 > 100 + 1) but the code
    compares 91 + 10 with 100 + 1, executes the reset and zeroes
    cycle_grad_steps. *)
Lemma reset_weights_skip_counterexample :
  (BBFAgent.reset_triggered (ex_agent ex_old_params ex_new_params false [] 95 90)
     = true
   /\ (95 + 10 + 1 > 100 + 1)%Z
   /\ BBFAgent.cumulative_resets
        <$> BBFAgent.reset_check (ex_agent ex_old_params ex_new_params false [] 95 90)
      = Some 4%Z
   /\ BBFAgent.next_reset
        <$> BBFAgent.reset_check (ex_agent ex_old_params ex_new_params false [] 95 90)
      = Some 105%Z
   /\ BBFAgent.cumulative_resets (ex_agent ex_old_params ex_new_params false [] 95 90)
      = 3%Z
   /\ BBFAgent.next_reset (ex_agent ex_old_params ex_new_params false [] 95 90)
      = 90%Z)
  /\ (BBFAgent.reset_triggered (ex_agent ex_old_params ex_new_params false [] 91 90)
        = true
      /\ (91 + 10 + 1 > 100 + 1)%Z
      /\ BBFAgent.cycle_grad_steps
           <$> BBFAgent.reset_check (ex_agent ex_old_params ex_new_params false [] 91 90)
         = Some 0%Z
      /\ BBFAgent.cycle_grad_steps
           (ex_agent ex_old_params ex_new_params false [] 91 90) = 5%Z).
Proof.
  repeat split; reflexivity.
Qed.

(** C1 (amended). When a reset is triggered and
    [training_steps + reset_every > no_resets_after + reset_offset], the call
    leaves the online parameters, the target parameters, the optimizer state
    and the intra-cycle step counter unchanged; cumulative_resets is
    incremented and next_reset becomes [training_steps + reset_every]. *)
Theorem reset_weights_skipped {key obs O : Type} (self : BBFAgent.t key obs O) :
  BBFAgent.reset_triggered self = true ->
  (BBFAgent.training_steps self + BBFAgent.reset_every (BBFAgent.config self)
   > BBFAgent.no_resets_after (BBFAgent.config self)
     + BBFAgent.reset_offset (BBFAgent.config self))%Z ->
  exists self',
    BBFAgent.reset_check self = Some self'
    /\ BBFAgent.online_params self' = BBFAgent.online_params self
    /\ BBFAgent.target_network_params self' = BBFAgent.target_network_params self
    /\ BBFAgent.optimizer_state self' = BBFAgent.optimizer_state self
    /\ BBFAgent.cycle_grad_steps self' = BBFAgent.cycle_grad_steps self
    /\ BBFAgent.cumulative_resets self' = (BBFAgent.cumulative_resets self + 1)%Z
    /\ BBFAgent.next_reset self'
       = (BBFAgent.training_steps self
          + BBFAgent.reset_every (BBFAgent.config self))%Z.
Proof.
  intros Htrig Hskip. unfold BBFAgent.reset_check. rewrite Htrig.
  unfold BBFAgent.reset_weights. rewrite bool_decide_eq_true_2 by lia.
  eexists. split; [reflexivity|]. cbn. repeat split; lia.
Qed.

Lemma reset_weights_skipped_witness :
  exists self',
    BBFAgent.reset_check (ex_agent ex_old_params ex_new_params false [] 95 90)
    = Some self'
    /\ BBFAgent.online_params self' = ex_old_params
    /\ BBFAgent.target_network_params self' = ex_old_params
    /\ BBFAgent.optimizer_state self' = []
    /\ BBFAgent.cycle_grad_steps self' = 5%Z
    /\ BBFAgent.cumulative_resets self' = (3 + 1)%Z
    /\ BBFAgent.next_reset self' = (95 + 10)%Z.
Proof.
  apply (reset_weights_skipped
           (ex_agent ex_old_params ex_new_params false [] 95 90)).
  - reflexivity.
  - cbn. lia.
Defined.

Lemma keys_to_copy_no_params : "params" ∉ BBFAgent.keys_to_copy.
Proof. compute_done. Qed.

(** An executed reset returns the fresh initialization as [random_params]
    and the result of [reset_params] as online parameters. *)
Lemma reset_weights_executed {key obs O : Type} (self self' : BBFAgent.t key obs O) :
  BBFAgent.reset_weights self = Some self' ->
  (BBFAgent.reset_every (BBFAgent.config self) + BBFAgent.training_steps self
   <= BBFAgent.no_resets_after (BBFAgent.config self)
      + BBFAgent.reset_offset (BBFAgent.config self))%Z ->
  reset_params (BBFAgent.online_params self) (BBFAgent.random_params self')
    (BBFAgent.shrink_perturb_keys (BBFAgent.config self))
    (BBFAgent.shrink_factor (BBFAgent.config self))
    (BBFAgent.perturb_factor (BBFAgent.config self))
    BBFAgent.keys_to_copy
  = Some (BBFAgent.online_params self')
  /\ BBFAgent.cycle_grad_steps self' = 0%Z.
Proof.
  unfold BBFAgent.reset_weights. intros Hreset Hexec.
  rewrite bool_decide_eq_false_2 in Hreset by lia.
  destruct (split _ _) as [rng reset_rng].
  destruct (jit_reset _ _ _ _ _ _ _ _ _ _ _ _ _ _ _)
    as [[[[online' target'] opt'] random']|] eqn:Hjit; [|done].
  injection Hreset as <-. cbn.
  unfold jit_reset in Hjit. destruct (split _ reset_rng) as [online_rng target_rng].
  destruct (reset_params (BBFAgent.online_params self) _ _ _ _ _)
    as [online1|] eqn:Honline; [|done]. cbn in Hjit.
  destruct (mapM _ _) as [opt1|]; [|done]. cbn in Hjit.
  destruct (if BBFAgent.reset_target _ then _ else _) as [target1|]; [|done].
  cbn in Hjit. by simplify_eq.
Qed.

Example copy_params_nested_example :
  copy_params ex_nested_old ex_nested_new BBFAgent.keys_to_copy = Some ex_nested_old.
Proof. by vm_compute. Qed.

(** C6, as stated, fails when a group that is not copied contains a nested
    key named like a group to copy: [copy_params] recurses into the group and
    keeps the old subtree found under that name.  Here the head (not in
    keys_to_copy) has a child named "encoder"; after the executed reset the
    head is the old head, not the fresh one. *)
Lemma reset_weights_groups_counterexample :
  ("head" ∉ BBFAgent.keys_to_copy)
  /\ (BBFAgent.reset_weights (ex_agent ex_nested_old ex_nested_new false [] 50 40)
      ≫= fun self' => group_of "head" (BBFAgent.online_params self'))
     = Some (Node {[ "encoder" := Leaf [1] ]})
  /\ (BBFAgent.reset_weights (ex_agent ex_nested_old ex_nested_new false [] 50 40)
      ≫= fun self' => group_of "head" (BBFAgent.random_params self'))
     = Some (Node {[ "encoder" := Leaf [2] ]})
  /\ Node {[ "encoder" := Leaf [1] ]} ≠ (Node {[ "encoder" := Leaf [2] ]} : params).
Proof.
  split; [compute_done|]. split; [by vm_compute|]. split; [by vm_compute|].
  intros H. apply (f_equal (fun t => subscript t "encoder")) in H.
  cbn in H. rewrite !lookup_singleton_eq in H. injection H. lra.
Qed.

(** C6 (amended). After an executed reset, with [og] the groups of the
    pre-reset online parameters and [rg] those of the fresh initialization:
    every group named in keys_to_copy holds its pre-reset value, after
    shrink-and-perturb when it is also in shrink_perturb_keys; every other
    group whose old subtree has the key structure of the fresh group and
    contains no key named in keys_to_copy holds the fresh group verbatim. *)
Theorem reset_weights_groups {key obs O : Type} (self self' : BBFAgent.t key obs O)
  (og rg : gmap string params) :
  BBFAgent.reset_weights self = Some self' ->
  (BBFAgent.reset_every (BBFAgent.config self) + BBFAgent.training_steps self
   <= BBFAgent.no_resets_after (BBFAgent.config self)
      + BBFAgent.reset_offset (BBFAgent.config self))%Z ->
  groups_of true (BBFAgent.online_params self) = Some og ->
  groups_of true (BBFAgent.random_params self') = Some rg ->
  exists tg,
    groups_of true (BBFAgent.online_params self') = Some tg /\
    forall g v, og !! g = Some v ->
      (g ∈ BBFAgent.keys_to_copy -> exists v', tg !! g = Some v' /\
         if bool_decide (g ∈ BBFAgent.shrink_perturb_keys (BBFAgent.config self))
         then exists r, rg !! g = Some r /\
                tree_map2 (combination
                             (BBFAgent.shrink_factor (BBFAgent.config self))
                             (BBFAgent.perturb_factor (BBFAgent.config self)))
                          v r = Some v'
         else v' = v)
      /\ (g ∉ BBFAgent.keys_to_copy -> forall r,
            rg !! g = Some r -> same_structure any_leaf v r ->
            key_free BBFAgent.keys_to_copy v -> tg !! g = Some r).
Proof.
  intros Hreset Hexec Hog Hrg.
  destruct (reset_weights_executed self self' Hreset Hexec) as [Hparams _].
  exact (reset_params_groups _ _ _ _ _ _ _ og rg Hparams
           keys_to_copy_no_params Hog Hrg).
Qed.

Lemma reset_weights_groups_witness :
  exists tg,
    groups_of true (Node {[ "params" := Node
      {[ "encoder" := Leaf [3]; "head" := Node {[ "kernel" := Leaf [5; 6] ]} ]} ]} : params)
    = Some tg /\
    forall g v, ex_old_groups !! g = Some v ->
      (g ∈ BBFAgent.keys_to_copy -> exists v', tg !! g = Some v' /\
         if bool_decide (g ∈ @nil string)
         then exists r, ex_new_groups !! g = Some r /\
                tree_map2 (combination (8 / 10) (2 / 10)) v r = Some v'
         else v' = v)
      /\ (g ∉ BBFAgent.keys_to_copy -> forall r,
            ex_new_groups !! g = Some r -> same_structure any_leaf v r ->
            key_free BBFAgent.keys_to_copy v -> tg !! g = Some r).
Proof.
  apply (reset_weights_groups
           (ex_agent ex_old_params ex_new_params false [] 50 40)
           {| BBFAgent.config := ex_config ex_new_params false [];
              BBFAgent.training_steps := 50;
              BBFAgent._rng := 2%nat;
              BBFAgent.online_params := Node {[ "params" := Node
                {[ "encoder" := Leaf [3];
                   "head" := Node {[ "kernel" := Leaf [5; 6] ]} ]} ]};
              BBFAgent.target_network_params := Node {[ "params" := Node
                {[ "encoder" := Leaf [3];
                   "head" := Node {[ "kernel" := Leaf [5; 6] ]} ]} ]};
              BBFAgent.optimizer_state := [];
              BBFAgent.random_params := ex_new_params;
              BBFAgent.cumulative_resets := 4;
              BBFAgent.next_reset := 60;
              BBFAgent.cycle_grad_steps := 0;
              BBFAgent.stats_ent := 0 |}).
  - by vm_compute.
  - cbn. lia.
  - reflexivity.
  - reflexivity.
Defined.

Example reset_weights_groups_example :
  (BBFAgent.reset_weights (ex_agent ex_old_params ex_new_params false [] 50 40)
   ≫= fun self' => group_of "encoder" (BBFAgent.online_params self'))
  = Some (Leaf [3])
  /\ (BBFAgent.reset_weights (ex_agent ex_old_params ex_new_params false [] 50 40)
      ≫= fun self' => group_of "head" (BBFAgent.online_params self'))
     = Some (Node {[ "kernel" := Leaf [5; 6] ]}).
Proof. split; by vm_compute. Qed.

(** ** Action selection *)

Lemma select_action_outputs {key obs O : Type} (self : BBFAgent.t key obs O)
  (state : list obs) (select_params : params) (eval_mode : bool) :
  select_action (BBFAgent.jax_random (BBFAgent.config self))
    (BBFAgent.network_def (BBFAgent.config self)) select_params state
    (BBFAgent._rng self) (BBFAgent.num_actions (BBFAgent.config self)) eval_mode
  = let outputs := BBFAgent.policy_outputs self state select_params in
    (((split (BBFAgent.jax_random (BBFAgent.config self))
         (split (BBFAgent.jax_random (BBFAgent.config self))
            (BBFAgent._rng self)).2).1),
     (if eval_mode then map argmax outputs.*1 else outputs.*2),
     map softmax outputs.*1).
Proof.
  unfold select_action, BBFAgent.policy_outputs.
  destruct (split _ (BBFAgent._rng self)) as [rng1 key1]. cbn.
  destruct (split _ key1) as [rng2 key2]. cbn.
  by rewrite !length_zip_with_l_eq || reflexivity.
Qed.

Example argmax_example : argmax [0; 1] = 1%Z.
Proof.
  unfold argmax. cbn. destruct (decide (0 < 1)) as [_|Hn]; [done | lra].
Qed.

(** C5, as stated, fails in evaluation mode: the agent always passes
    [eval_mode = False] to the jitted [select_action], so the sampled action
    is returned.  Here the policy logits are [0, 1] (arg-max 1) and the
    sampled action is 0; the agent, in evaluation mode, returns 0. *)
Lemma select_action_eval_counterexample :
  snd <$> BBFAgent.select_action
            (ex_agent ex_old_params ex_new_params true [] 50 60)
            [0%nat] ex_old_params true
  = Some [0%Z]
  /\ map argmax
       (BBFAgent.policy_outputs (ex_agent ex_old_params ex_new_params true [] 50 60)
          [0%nat] ex_old_params).*1
     = [1%Z].
Proof.
  split; [by vm_compute|].
  cbn -[argmax]. by rewrite argmax_example.
Qed.

(** C5 (amended). In training mode below the replay-history threshold the
    action is the uniform draw of [randint]; in every other case, evaluation
    mode included, it is the action sampled by the policy head (the arg-max is
    never taken).  The call raises only when the batch is empty while the
    agent's entropy statistic is updated. *)
Theorem select_action_cases {key obs O : Type} (self : BBFAgent.t key obs O)
  (state : list obs) (select_params : params) (eval_mode : bool) :
  match BBFAgent.select_action self state select_params eval_mode with
  | Some (_, action) =>
      action =
      if negb eval_mode
         && bool_decide (IZR (BBFAgent.training_steps self)
                         < BBFAgent.min_replay_history (BBFAgent.config self))
      then randint (BBFAgent.jax_random (BBFAgent.config self))
             (split (BBFAgent.jax_random (BBFAgent.config self))
                (BBFAgent._rng self)).2
             (length state) 0 (BBFAgent.num_actions (BBFAgent.config self))
      else (BBFAgent.policy_outputs self state select_params).*2
  | None =>
      negb eval_mode
      && bool_decide (IZR (BBFAgent.training_steps self)
                      < BBFAgent.min_replay_history (BBFAgent.config self))
      = false
      /\ BBFAgent.eval_mode (BBFAgent.config self) = false
      /\ BBFAgent.policy_outputs self state select_params = []
  end.
Proof.
  unfold BBFAgent.select_action.
  destruct (negb eval_mode && _) eqn:Hexp.
  - by destruct (split _ _).
  - rewrite select_action_outputs. cbv zeta.
    destruct (BBFAgent.eval_mode (BBFAgent.config self)); cbn; [done|].
    destruct (BBFAgent.policy_outputs self state select_params) as [|o os];
      cbn; done.
Qed.

(** ** The exponential schedule *)

Lemma np_log_pos x : 0 < x -> np_log x = Some (ln x).
Proof. intros Hx. unfold np_log. by rewrite decide_True. Qed.

Lemma clip_high x lo hi : lo <= hi -> hi <= x -> clip x lo hi = hi.
Proof.
  intros H1 H2. unfold clip, Rmin, Rmax.
  repeat destruct (Rle_dec _ _); lra.
Qed.

(** The decaying branch, with the logarithms of two positive end points. *)
Lemma scheduler_decaying iv fv bonus :
  0 < iv -> 0 < fv ->
  (bonus = 1 -> exp (bonus * (ln iv - ln fv) + ln fv) = iv)
  /\ (bonus = 0 -> exp (bonus * (ln iv - ln fv) + ln fv) = fv).
Proof.
  intros Hiv Hfv. split; intros ->.
  - replace (1 * (ln iv - ln fv) + ln fv) with (ln iv) by lra. by apply exp_ln.
  - replace (0 * (ln iv - ln fv) + ln fv) with (ln fv) by lra. by apply exp_ln.
Qed.

Lemma bonus_before dp ws step : 0 < dp -> step <= ws ->
  clip ((dp + ws - step) / dp) 0 1 = 1.
Proof.
  intros Hdp Hstep. apply clip_high; [lra|].
  apply (Rmult_le_reg_r dp); [done|]. unfold Rdiv.
  rewrite Rmult_assoc, Rinv_l by lra. lra.
Qed.

Lemma bonus_after dp ws step : 0 < dp -> ws + dp <= step ->
  clip ((dp + ws - step) / dp) 0 1 = 0.
Proof.
  intros Hdp Hstep. apply clip_low; [lra|].
  apply (Rmult_le_reg_r dp); [done|]. unfold Rdiv.
  rewrite Rmult_assoc, Rinv_l by lra. lra.
Qed.

(** C4, as stated, fails in four ways: with [decay_period == 0] the value at
    [step == warmup_steps] is already the final one; with [decay_period == 0]
    and [reverse] the reflected values [1 - initial_value] and
    [1 - final_value] are returned; with a negative [decay_period] a step
    before the warm-up can return the final value; and with [reverse] an end
    point equal to 1 puts a logarithm of 0 into the computation. *)
Lemma exponential_decay_scheduler_counterexample :
  exponential_decay_scheduler 0 10 1 (1 / 2) false 10 = Some (1 / 2)
  /\ exponential_decay_scheduler 0 10 (9 / 10) (1 / 10) true 0 = Some (1 - 9 / 10)
  /\ exponential_decay_scheduler (-1) 10 1 (1 / 2) false 8 = Some (1 / 2)
  /\ exponential_decay_scheduler 10 0 (1 / 2) 1 true 10 = None.
Proof.
  unfold exponential_decay_scheduler. repeat split.
  - rewrite decide_True by done. by rewrite decide_False by lra.
  - rewrite decide_True by done. by rewrite decide_True by lra.
  - rewrite decide_False by lra. rewrite !np_log_pos by lra. cbn.
    rewrite clip_low by lra. f_equal.
    by apply scheduler_decaying; try lra.
  - rewrite decide_False by lra. unfold np_log.
    rewrite (decide_True (P:=0 < 1 - 1 / 2)) by lra.
    by rewrite (decide_False (P:=0 < 1 - 1)) by lra.
Qed.

(** C4 (amended). For [decay_period >= 0] and end points in (0, 1] (below 1
    when [reverse] is set): with [decay_period > 0] the schedule returns
    [initial_value] for every [step <= warmup_steps] and [final_value] for
    every [step >= warmup_steps + decay_period]; with [decay_period == 0] and
    [reverse] unset it is the step function whose value is [initial_value]
    for [step < warmup_steps] and [final_value] from [warmup_steps] on. *)
Theorem exponential_decay_scheduler_correct
  (decay_period warmup_steps initial_value final_value : R) (reverse : bool)
  (step : R) :
  0 <= decay_period ->
  0 < initial_value <= 1 ->
  0 < final_value <= 1 ->
  (reverse = true -> initial_value < 1 /\ final_value < 1) ->
  (0 < decay_period ->
     (step <= warmup_steps ->
        exponential_decay_scheduler decay_period warmup_steps initial_value
          final_value reverse step = Some initial_value)
     /\ (warmup_steps + decay_period <= step ->
           exponential_decay_scheduler decay_period warmup_steps initial_value
             final_value reverse step = Some final_value))
  /\ (decay_period = 0 -> reverse = false ->
        exponential_decay_scheduler decay_period warmup_steps initial_value
          final_value reverse step
        = Some (if decide (step < warmup_steps) then initial_value
                else final_value)).
Proof.
  intros Hdp Hiv Hfv Hrev. split.
  - intros Hpos. unfold exponential_decay_scheduler.
    rewrite decide_False by lra.
    assert (0 < (if reverse then 1 - initial_value else initial_value)
            /\ 0 < (if reverse then 1 - final_value else final_value))
      as [Hi Hf] by (destruct reverse; [destruct Hrev; [done|]|]; lra).
    rewrite !np_log_pos by done. cbn.
    destruct (scheduler_decaying _ _ 1 Hi Hf) as [H1 _].
    destruct (scheduler_decaying _ _ 0 Hi Hf) as [_ H0].
    split; intros Hstep.
    + rewrite bonus_before, H1 by done. destruct reverse; f_equal; lra.
    + rewrite bonus_after, H0 by done. destruct reverse; f_equal; lra.
  - intros -> ->. unfold exponential_decay_scheduler.
    by rewrite decide_True by done.
Qed.

Lemma exponential_decay_scheduler_correct_witness :
  exponential_decay_scheduler 10 5 (9 / 10) (1 / 10) true 3 = Some (9 / 10)
  /\ exponential_decay_scheduler 10 5 (9 / 10) (1 / 10) true 20 = Some (1 / 10)
  /\ exponential_decay_scheduler 0 5 1 (1 / 2) false 5
     = Some (if decide (5 < 5) then 1 else 1 / 2).
Proof.
  split; [|split].
  - apply (exponential_decay_scheduler_correct 10 5 (9 / 10) (1 / 10) true 3);
      intros; lra.
  - apply (exponential_decay_scheduler_correct 10 5 (9 / 10) (1 / 10) true 20);
      intros; lra.
  - apply (exponential_decay_scheduler_correct 0 5 1 (1 / 2) false 5);
      intros; (lra || done).
Defined.

(** ** Priorities *)

Lemma Rsum_exp_pos l x : x ∈ l -> exp x <= Rsum (map exp l).
Proof.
  assert (forall k, 0 <= Rsum (map exp k)) as Hpos.
  { intros k. apply Rsum_nonneg, Forall_map, Forall_true.
    intros y. left. apply exp_pos. }
  induction 1 as [x l|x y l _ IH]; cbn; rewrite Rsum_cons.
  - specialize (Hpos l). lra.
  - pose proof (exp_pos y). lra.
Qed.

Lemma log_softmax_nonpos logits : Forall (fun y => y <= 0) (log_softmax logits).
Proof.
  unfold log_softmax. apply Forall_map, list.Forall_forall. intros x Hx.
  pose proof (Rsum_exp_pos _ _ Hx) as Hle. pose proof (exp_pos x) as Hpos.
  assert (x <= ln (Rsum (map exp logits))); [|lra].
  rewrite <- (ln_exp x) at 1.
  destruct Hle as [Hlt| ->]; [left; by apply ln_increasing | right; done].
Qed.

Lemma Rsum_nonpos_products labels ys :
  Forall (fun w => 0 <= w) labels -> Forall (fun y => y <= 0) ys ->
  Rsum (zip_with Rmult labels ys) <= 0.
Proof.
  intros Hl. revert ys. induction Hl as [|w labels Hw _ IH]; intros ys Hys.
  - cbn. rewrite Rsum_nil. lra.
  - destruct Hys as [|y ys Hy Hys]; cbn; [rewrite Rsum_nil; lra|].
    rewrite Rsum_cons. specialize (IH ys Hys). nra.
Qed.

(** The cross entropy against non-negative labels is non-negative. *)
Lemma cross_entropy_nonneg labels logits :
  length labels = length logits ->
  Forall (fun w => 0 <= w) labels ->
  exists v, softmax_cross_entropy_loss_with_logits labels logits = Some v
            /\ 0 <= v.
Proof.
  intros Hlen Hl. unfold softmax_cross_entropy_loss_with_logits.
  rewrite broadcast_mul_same by (unfold log_softmax; by rewrite length_map).
  cbn. eexists. split; [done|].
  pose proof (Rsum_nonpos_products labels _ Hl (log_softmax_nonpos logits)). lra.
Qed.

Lemma mean_nonneg l : l <> [] -> Forall (fun x => 0 <= x) l -> 0 <= mean l.
Proof.
  intros Hne Hl. unfold mean. apply Rmult_le_pos; [by apply Rsum_nonneg|].
  left. apply Rinv_0_lt_compat. apply (lt_INR 0). destruct l; [done | cbn; lia].
Qed.

Lemma DQNLoss_nonneg target chosen_action_logits :
  well_shaped_sub_batch (target, chosen_action_logits) ->
  Forall (Forall (fun w => 0 <= w)) target ->
  exists v, DQNLoss target chosen_action_logits = Some v /\ 0 <= v.
Proof.
  intros [Hne Hshape] Hl. cbn in Hne, Hshape. unfold DQNLoss.
  assert (exists losses,
            mapM (fun '(labels, logits) =>
                    softmax_cross_entropy_loss_with_logits labels logits)
                 (zip target chosen_action_logits) = Some losses
            /\ length losses = length target
            /\ Forall (fun x => 0 <= x) losses) as (losses & -> & Hlen & Hpos).
  { clear Hne. induction Hshape as [|labels logits target logitss Hlen _ IH].
    - by exists [].
    - inversion Hl as [|? ? Hlabels Hrest]; subst.
      destruct (IH Hrest) as (losses & Hm & Hlen' & Hpos).
      destruct (cross_entropy_nonneg labels logits Hlen Hlabels) as (v & Hv & Hv0).
      exists (v :: losses). cbn. rewrite Hv. cbn.
      change (mapM _ (zip target logitss)) with
        (mapM (fun '(labels, logits) =>
                 softmax_cross_entropy_loss_with_logits labels logits)
              (zip target logitss)).
      rewrite Hm. cbn. repeat split; [by rewrite Hlen' | by constructor]. }
  cbn. eexists. split; [done|]. apply mean_nonneg; [|done].
  destruct losses, target; cbn in *; done.
Qed.

Lemma priority_pos x : 0 <= x -> 0 < sqrt (x + 1 / 10 ^ 10).
Proof.
  intros Hx. apply sqrt_lt_R0.
  assert (0 < 1 / 10 ^ 10); [|lra].
  apply Rdiv_lt_0_compat; [lra|]. apply pow_lt. lra.
Qed.

(** The target of a well-formed transition: one non-negative probability
    per atom. *)
Lemma target_output_nonneg support tr :
  valid_support support ->
  well_formed_transition support tr ->
  exists target,
    target_output (tr_next_probabilities tr) (tr_reward tr) (tr_terminal tr)
      support (tr_cumulative_gamma tr) = Some target
    /\ length target = length support
    /\ Forall (fun w => 0 <= w) target.
Proof.
  intros (v & d & n & Hd & Hn & ->) (Hlen & Hpos & _). unfold target_output.
  rewrite project_distribution_grid by (rewrite ?length_map; done).
  eexists. split; [done|]. split; [by rewrite length_map|].
  apply Forall_map, Forall_true; intros z. by apply atom_mass_nonneg.
Qed.

Lemma sub_batch_loss_nonneg support sub_batch :
  valid_support support ->
  sub_batch <> [] ->
  Forall (well_formed_transition support) sub_batch ->
  exists v, sub_batch_loss support sub_batch = Some v /\ 0 <= v.
Proof.
  intros Hsup Hne Hall. unfold sub_batch_loss.
  assert (exists target,
    mapM (fun tr =>
            target_output (tr_next_probabilities tr) (tr_reward tr)
              (tr_terminal tr) support (tr_cumulative_gamma tr)) sub_batch
    = Some target
    /\ Forall2 (fun labels tr =>
                  length labels = length (tr_chosen_action_logits tr)
                  /\ Forall (fun w => 0 <= w) labels) target sub_batch)
    as (target & -> & Htarget).
  { clear Hne. induction Hall as [|tr sub_batch Htr _ IH].
    - exists []. by split; [|constructor].
    - destruct IH as (target & Hm & Hrest).
      destruct (target_output_nonneg support tr Hsup Htr)
        as (labels & Hl & Hlen & Hpos).
      exists (labels :: target). split.
      + apply mapM_Some_2. constructor; [done | by apply mapM_Some_1].
      + constructor; [|done]. split; [|done].
        destruct Htr as (_ & _ & Hlogits). congruence. }
  cbn [mbind option_bind]. apply DQNLoss_nonneg.
  - split; cbn.
    + destruct Htarget; [done | discriminate].
    + apply Forall2_fmap_r. eapply list.Forall2_impl; [exact Htarget|].
      by intros labels tr [? _].
  - clear Hne Hall. induction Htarget as [|? ? ? ? [_ ?]]; by constructor.
Qed.

(** C9. Every priority a training step writes back is strictly positive,
    whatever the value losses (zero included): the value loss is a mean of
    cross entropies against projected target distributions, which are
    non-negative, so it is non-negative, and the priority is the square root
    of the loss plus 1e-10. *)
Theorem written_priorities_positive (support : list R)
  (sub_batches : list (list transition)) :
  valid_support support ->
  Forall (fun sub_batch =>
            sub_batch <> []
            /\ Forall (well_formed_transition support) sub_batch) sub_batches ->
  exists ps,
    written_priorities support sub_batches = Some ps
    /\ length ps = length sub_batches
    /\ Forall (fun p => 0 < p) ps.
Proof.
  intros Hsup Hall. unfold written_priorities.
  assert (exists losses,
            mapM (sub_batch_loss support) sub_batches = Some losses
            /\ length losses = length sub_batches
            /\ Forall (fun x => 0 <= x) losses) as (losses & -> & Hlen & Hpos).
  { induction Hall as [|sub_batch sub_batches [Hne Hsb] _ IH].
    - by exists [].
    - destruct IH as (losses & Hm & Hlen & Hpos).
      destruct (sub_batch_loss_nonneg support sub_batch Hsup Hne Hsb)
        as (v & Hv & Hv0).
      exists (v :: losses). split; [|split].
      + apply mapM_Some_2. constructor; [done | by apply mapM_Some_1].
      + cbn. by rewrite Hlen.
      + by constructor. }
  cbn [mbind option_bind]. eexists. split; [done|]. split.
  - unfold priorities. by rewrite length_map.
  - unfold priorities. apply Forall_map. eapply list.Forall_impl; [exact Hpos|].
    intros x Hx. by apply priority_pos.
Qed.

(** Two transitions on the support [-1, 0, 1]; the first has all its mass on
    the atom its logits favour least, the second is terminal. *)
Lemma written_priorities_positive_witness :
  exists ps,
    written_priorities [-1; 0; 1]
      [[ {| tr_next_probabilities := [1; 0; 0]; tr_reward := 1;
            tr_terminal := false; tr_cumulative_gamma := 9 / 10;
            tr_chosen_action_logits := [1; 2; 3] |};
         {| tr_next_probabilities := [1 / 2; 1 / 2; 0]; tr_reward := 0;
            tr_terminal := true; tr_cumulative_gamma := 9 / 10;
            tr_chosen_action_logits := [0; 0; 0] |} ]] = Some ps
    /\ length ps = 1%nat
    /\ Forall (fun p => 0 < p) ps.
Proof.
  apply (written_priorities_positive [-1; 0; 1]).
  - apply valid_support_three.
  - repeat constructor; cbn; (done || lra).
Defined.

(** ** Transposition *)

Lemma transpose_length {A} c (m : list (list A)) :
  Forall (fun row => length row = c) m -> length (transpose c m) = c.
Proof.
  induction 1 as [|row rows Hrow _ IH]; cbn.
  - by rewrite length_replicate.
  - rewrite length_zip_with. lia.
Qed.

Lemma zip_with_cons_lengths {A} k (row : list A) (X : list (list A)) :
  Forall (fun x => length x = k) X ->
  Forall (fun y => length y = S k) (zip_with cons row X).
Proof.
  intros HX. revert row. induction HX as [|x X Hx _ IH]; intros [|a row]; cbn;
    constructor; [by rewrite <- Hx | apply IH].
Qed.

Lemma transpose_rows {A} n c (m : list (list A)) :
  rect n c m -> rect c n (transpose c m).
Proof.
  intros [Hn Hrows]. split; [by apply transpose_length|]. subst n.
  induction Hrows as [|row rows Hrow Hrows IH]; cbn.
  - by apply Forall_replicate.
  - by apply zip_with_cons_lengths.
Qed.

Lemma transpose_cons_column {A} n (col : list A) (m : list (list A)) :
  length col = length m ->
  transpose (S n) (zip_with cons col m) = col :: transpose n m.
Proof.
  revert m; induction col as [|x col IH]; intros [|r m] Hlen; try done.
  cbn. rewrite IH by (by injection Hlen). done.
Qed.

Lemma transpose_empty_rows {A} c : transpose 0 (replicate c (@nil A)) = [].
Proof. by destruct c. Qed.

(** Transposing twice gives back the array. *)
Lemma transpose_involutive {A} n c (m : list (list A)) :
  rect n c m -> transpose n (transpose c m) = m.
Proof.
  intros [Hn Hrows]. subst n.
  induction Hrows as [|row rows Hrow Hrows IH]; cbn.
  - apply transpose_empty_rows.
  - rewrite transpose_cons_column, IH; [done|].
    by rewrite transpose_length.
Qed.

Lemma fmap_zip_with_cons {A B} (f : A -> B) (row : list A) (X : list (list A)) :
  map (map f) (zip_with cons row X) = zip_with cons (map f row) (map (map f) X).
Proof.
  revert X; induction row as [|a row IH]; intros [|x X]; cbn; try done.
  by rewrite IH.
Qed.

Lemma transpose_fmap {A B} (f : A -> B) c (m : list (list A)) :
  map (map f) (transpose c m) = transpose c (map (map f) m).
Proof.
  induction m as [|row rows IH]; cbn.
  - by rewrite fmap_replicate.
  - by rewrite fmap_zip_with_cons, IH.
Qed.

Lemma zip_with_zip_with_cons {A B C} (g : A -> B -> C) r1 r2
  (X1 : list (list A)) (X2 : list (list B)) :
  zip_with (zip_with g) (zip_with cons r1 X1) (zip_with cons r2 X2)
  = zip_with cons (zip_with g r1 r2) (zip_with (zip_with g) X1 X2).
Proof.
  revert r2 X1 X2; induction r1 as [|a r1 IH]; intros [|b r2] [|x1 X1] [|x2 X2];
    cbn; try done.
  by rewrite IH.
Qed.

Lemma transpose_zip_with {A B C} (g : A -> B -> C) c
  (m1 : list (list A)) (m2 : list (list B)) :
  length m1 = length m2 ->
  zip_with (zip_with g) (transpose c m1) (transpose c m2)
  = transpose c (zip_with (zip_with g) m1 m2).
Proof.
  revert m2; induction m1 as [|r1 m1 IH]; intros [|r2 m2] Hlen; try done; cbn.
  - by rewrite zip_with_replicate.
  - rewrite zip_with_zip_with_cons, IH by (by injection Hlen). done.
Qed.

Lemma transpose_Forall {A} (P : A -> Prop) c (m : list (list A)) :
  Forall (Forall P) m -> Forall (Forall P) (transpose c m).
Proof.
  induction 1 as [|row rows Hrow _ IH]; cbn.
  - apply Forall_replicate. constructor.
  - revert IH. generalize (transpose c rows) as X.
    induction Hrow as [|a row Ha _ IHrow]; intros [|x X] HX; cbn;
      try constructor.
    + inversion HX; subst. by constructor.
    + inversion HX; subst. by apply IHrow.
Qed.

Lemma zip_with_rect {A B C} (g : A -> B -> C) n c
  (m1 : list (list A)) (m2 : list (list B)) :
  rect n c m1 -> rect n c m2 -> rect n c (zip_with (zip_with g) m1 m2).
Proof.
  intros [Hn1 H1] [Hn2 H2]. split; [rewrite length_zip_with; lia|].
  clear Hn1 Hn2. revert m2 H2. induction H1 as [|r1 m1 Hr1 _ IH];
    intros m2 H2; destruct H2 as [|r2 m2 Hr2 H2]; cbn; try constructor.
  - rewrite length_zip_with. lia.
  - by apply IH.
Qed.

Lemma fmap_rect {A B} (f : A -> B) n c (m : list (list A)) :
  rect n c m -> rect n c (map (map f) m).
Proof.
  intros [Hn Hrows]. split; [by rewrite length_map|].
  apply Forall_map. eapply list.Forall_impl; [done|].
  intros row Hrow. cbn. by rewrite length_map.
Qed.

(** ** The SPR loss *)

Lemma mapM_total {A B} (f : A -> option B) (g : A -> B) (l : list A) :
  Forall (fun x => f x = Some (g x)) l -> mapM f l = Some (map g l).
Proof.
  intros Hl. apply mapM_Some_2, Forall2_fmap_r, Forall_Forall2_diag.
  eapply list.Forall_impl; [exact Hl | done].
Qed.

Lemma reshape_groups_all (M : list (list (list R))) :
  Forall (Forall (fun v => length v = (2 * 2048)%nat)) M ->
  mapM (mapM reshape_groups) M
  = Some (map (map (fun v => [take 2048 v; drop 2048 v])) M).
Proof.
  intros HM. apply mapM_total. eapply list.Forall_impl; [exact HM|].
  intros row Hrow. apply mapM_total. eapply list.Forall_impl; [exact Hrow|].
  intros v Hv. unfold reshape_groups. by rewrite decide_True.
Qed.

Lemma normalized_groups_fmap (M : list (list (list R))) :
  map (map (map normalize)) (map (map (fun v => [take 2048 v; drop 2048 v])) M)
  = map (map normalized_groups) M.
Proof.
  rewrite map_map. apply map_ext; intros row. by rewrite map_map.
Qed.

Lemma spr_loss_rows_closed (P Q : list (list (list R))) (M : list (list bool)) :
  map (fun x => x * (1 / 2))
    (map mean
       (zip_with (zip_with (fun d flag => d * mask_value flag))
          (zip_with (zip_with squared_distance)
             (map (map normalized_groups) P) (map (map normalized_groups) Q))
          M))
  = zip_with (fun pt flags => spr_loss_example pt.1 pt.2 flags) (zip P Q) M.
Proof.
  revert Q M; induction P as [|p P IH]; intros [|q Q] [|m M]; cbn; try done.
  by rewrite IH.
Qed.

(** The tensor pipeline of [loss_fn], example by example. *)
Lemma spr_loss_by_example (T B : nat) (spr_predictions spr_targets : list (list (list R)))
  (same_traj_mask : list (list bool)) :
  latents B T spr_predictions ->
  latents T B spr_targets ->
  rect B T same_traj_mask ->
  spr_loss T B spr_predictions spr_targets same_traj_mask
  = Some (zip_with (fun pt flags => spr_loss_example pt.1 pt.2 flags)
            (zip spr_predictions (transpose B spr_targets)) same_traj_mask).
Proof.
  intros [HP HPv] [HQ HQv] HM. unfold spr_loss.
  rewrite (reshape_groups_all (transpose T spr_predictions))
    by (by apply transpose_Forall).
  cbn [mbind option_bind]. rewrite (reshape_groups_all spr_targets) by done.
  cbn [mbind option_bind]. f_equal.
  rewrite !normalized_groups_fmap, transpose_fmap.
  pose proof (fmap_rect normalized_groups _ _ _ HP) as HP'.
  pose proof (fmap_rect normalized_groups _ _ _ HQ) as HQ'.
  rewrite <- (transpose_involutive T B (map (map normalized_groups) spr_targets))
    by done.
  pose proof (transpose_rows _ _ _ HQ') as HQt.
  rewrite transpose_zip_with by (destruct HP', HQt; congruence).
  rewrite transpose_zip_with
    by (rewrite length_zip_with; destruct HP', HQt, HM; lia).
  unfold mean_axis0. rewrite transpose_involutive.
  - rewrite <- transpose_fmap. apply spr_loss_rows_closed.
  - apply zip_with_rect; [|done]. by apply zip_with_rect.
Qed.

(** *** The loss on unit vectors *)

Lemma Rsum_replicate_zero n : Rsum (replicate n 0) = 0.
Proof.
  induction n as [|n IH]; cbn; [apply Rsum_nil|]. rewrite Rsum_cons, IH. lra.
Qed.

Lemma squares_unit_first n : Rsum (map (fun x => x ^ 2) (unit_first n)) = 1.
Proof.
  unfold unit_first. cbn [map]. rewrite Rsum_cons, fmap_replicate.
  replace (0 ^ 2) with 0 by lra. rewrite Rsum_replicate_zero. lra.
Qed.

Lemma squares_unit_second n : Rsum (map (fun x => x ^ 2) (unit_second n)) = 1.
Proof.
  unfold unit_second. cbn [map]. rewrite !Rsum_cons, fmap_replicate.
  replace (0 ^ 2) with 0 by lra. rewrite Rsum_replicate_zero. lra.
Qed.

Lemma normalize_unit v : norm2 v = 1 -> normalize v = v.
Proof.
  intros Hv. unfold normalize. rewrite Hv. clear Hv.
  induction v as [|x v IH]; cbn; [done|]. rewrite IH. f_equal. lra.
Qed.

Lemma normalize_unit_first n : normalize (unit_first n) = unit_first n.
Proof.
  apply normalize_unit. unfold norm2. by rewrite squares_unit_first, sqrt_1.
Qed.

Lemma normalize_unit_second n : normalize (unit_second n) = unit_second n.
Proof.
  apply normalize_unit. unfold norm2. by rewrite squares_unit_second, sqrt_1.
Qed.

Lemma distance_unit_first_second n :
  Rsum (zip_with (fun a b => (a - b) ^ 2) (unit_first (S n)) (unit_second n)) = 2.
Proof.
  unfold unit_first, unit_second. cbn [replicate zip_with].
  rewrite !Rsum_cons, zip_with_replicate.
  replace ((0 - 0) ^ 2) with 0 by lra. rewrite Rsum_replicate_zero. lra.
Qed.

Lemma normalized_groups_ex_u :
  normalized_groups ex_u = [unit_first 2047; unit_first 2047].
Proof.
  unfold normalized_groups, ex_u.
  rewrite take_app_length', drop_app_length'
    by (unfold unit_first; cbn [length]; by rewrite length_replicate).
  cbn [map]. by rewrite normalize_unit_first.
Qed.

Lemma normalized_groups_ex_v :
  normalized_groups ex_v = [unit_second 2046; unit_second 2046].
Proof.
  unfold normalized_groups, ex_v.
  rewrite take_app_length', drop_app_length'
    by (unfold unit_second; cbn [length]; by rewrite length_replicate).
  cbn [map]. by rewrite normalize_unit_second.
Qed.

(** The distance the code computes between [ex_u] and [ex_v]. *)
Lemma squared_distance_ex :
  squared_distance (normalized_groups ex_u) (normalized_groups ex_v) = 4.
Proof.
  rewrite normalized_groups_ex_u, normalized_groups_ex_v.
  unfold squared_distance. cbn [zip_with map].
  rewrite !Rsum_cons, Rsum_nil, (distance_unit_first_second 2046). lra.
Qed.

Lemma scaled_distance c (xs ys : list R) :
  c <> 0 ->
  Rsum (zip_with (fun a b => (a - b) ^ 2)
          (map (fun x => x / c) xs) (map (fun y => y / c) ys))
  = Rsum (zip_with (fun a b => (a - b) ^ 2) xs ys) / c ^ 2.
Proof.
  intros Hc. revert ys; induction xs as [|x xs IH]; intros [|y ys];
    cbn [zip_with map]; rewrite ?Rsum_nil, ?Rsum_cons; try (unfold Rdiv; lra).
  rewrite IH. field. done.
Qed.

(** The distance between the two latents normalized as wholes. *)
Lemma sphere_distance_ex :
  Rsum (zip_with (fun a b => (a - b) ^ 2) (normalize ex_u) (normalize ex_v)) = 2.
Proof.
  assert (norm2 ex_u = sqrt 2) as Hu.
  { unfold norm2, ex_u. rewrite map_app, Rsum_app, squares_unit_first.
    f_equal; lra. }
  assert (norm2 ex_v = sqrt 2) as Hv.
  { unfold norm2, ex_v. rewrite map_app, Rsum_app, squares_unit_second.
    f_equal; lra. }
  unfold normalize. rewrite Hu, Hv.
  assert (0 < sqrt 2) as Hpos by (apply sqrt_lt_R0; lra).
  rewrite scaled_distance by lra. rewrite pow2_sqrt by lra.
  unfold ex_u, ex_v. rewrite zip_with_app, Rsum_app.
  - rewrite (distance_unit_first_second 2046). lra.
  - unfold unit_first, unit_second. cbn [length]. by rewrite !length_replicate.
Qed.

Lemma ex_latent_lengths :
  length ex_u = (2 * 2048)%nat /\ length ex_v = (2 * 2048)%nat.
Proof.
  unfold ex_u, ex_v, unit_first, unit_second.
  rewrite !length_app. cbn [length]. by rewrite !length_replicate.
Qed.

Lemma nonzero_groups_ex : nonzero_groups ex_u /\ nonzero_groups ex_v.
Proof.
  unfold nonzero_groups, ex_u, ex_v.
  rewrite !take_app_length', !drop_app_length'
    by (unfold unit_first, unit_second; cbn [length]; by rewrite length_replicate).
  unfold norm2. rewrite squares_unit_first, squares_unit_second, sqrt_1.
  repeat split; lra.
Qed.

Lemma spr_loss_example_one_step :
  spr_loss_example [ex_u] [ex_v] [true] = 2.
Proof.
  unfold spr_loss_example, mean. cbn [map zip_with length INR mask_value].
  rewrite squared_distance_ex, !Rsum_cons, Rsum_nil. lra.
Qed.

Lemma spr_loss_example_three_steps :
  spr_loss_example [ex_u; ex_u; ex_u] [ex_v; ex_v; ex_v] [true; false; false]
  = 2 / 3.
Proof.
  unfold spr_loss_example, mean. cbn [map zip_with length INR mask_value].
  rewrite squared_distance_ex, !Rsum_cons, Rsum_nil. lra.
Qed.

(** C3, as stated, fails on two batches of two examples each (latents with
    unit groups, so no norm is zero).  With a single valid step the code
    gives 2 for each example, and 2 for the reported SPRLoss, where the worded
    computation gives 1: the two 2048-wide groups of a latent are normalized
    separately, not the latent as a whole.  With three steps of which only
    the first is valid the code gives 2/3, still 1 in words: the mean runs
    over all the steps, the masked ones included. *)
Lemma spr_loss_counterexample :
  spr_loss 1 2 [[ex_u]; [ex_u]] [[ex_v; ex_v]] [[true]; [true]] = Some [2; 2]
  /\ SPRLoss 1 2 [[ex_u]; [ex_u]] [[ex_v; ex_v]] [[true]; [true]] = Some 2
  /\ spr_loss_spec_example [ex_u] [ex_v] [true] = 1
  /\ spr_loss 3 2 [[ex_u; ex_u; ex_u]; [ex_u; ex_u; ex_u]]
       [[ex_v; ex_v]; [ex_v; ex_v]; [ex_v; ex_v]]
       [[true; false; false]; [true; false; false]] = Some [2 / 3; 2 / 3]
  /\ spr_loss_spec_example [ex_u; ex_u; ex_u] [ex_v; ex_v; ex_v]
       [true; false; false] = 1.
Proof.
  assert (spr_loss 1 2 [[ex_u]; [ex_u]] [[ex_v; ex_v]] [[true]; [true]]
          = Some [2; 2]) as Hone.
  { rewrite spr_loss_by_example
      by (repeat first [apply ex_latent_lengths | reflexivity | split | constructor]).
    cbn [transpose zip zip_with replicate fst snd].
    by rewrite spr_loss_example_one_step. }
  split; [exact Hone|]. split; [|split; [|split]].
  - unfold SPRLoss. rewrite Hone. cbn [mbind option_bind]. f_equal.
    unfold mean. cbn [length INR]. rewrite !Rsum_cons, Rsum_nil. lra.
  - unfold spr_loss_spec_example. cbn [zip_with mask_value].
    rewrite sphere_distance_ex, !Rsum_cons, Rsum_nil.
    change (length (filter _ [true])) with 1%nat. cbn [INR]. lra.
  - rewrite spr_loss_by_example
      by (repeat first [apply ex_latent_lengths | reflexivity | split | constructor]).
    cbn [transpose zip zip_with replicate fst snd].
    by rewrite spr_loss_example_three_steps.
  - unfold spr_loss_spec_example. cbn [zip_with mask_value].
    rewrite sphere_distance_ex, !Rsum_cons, Rsum_nil.
    change (length (filter _ [true; false; false])) with 1%nat. cbn [INR]. lra.
Qed.

(** C3 (amended). For a batch of at least two examples, with predicted
    latents of shape (B, T, 4096), target latents of shape (T, B, 4096) and
    flags of shape (B, T), at least one time step, and no group of a latent
    of norm zero, the SPR loss of each example is: normalize each of the two
    2048-wide groups of the predicted and of the target latent of a step
    separately, take the squared Euclidean distance summed over both groups,
    zero out the steps whose same_trajectory flag is false, average over all
    T steps (masked steps count in the denominator), and scale by one half;
    the reported SPRLoss is the mean of these values over the batch.  With a
    single example the squeeze of the logits (line 544) drops the batch axis
    and the training step raises before it reaches this loss; a group of
    norm zero makes the loss of its example NaN, which the mask does not
    remove. *)
Theorem spr_loss_per_example (T B : nat)
  (spr_predictions spr_targets : list (list (list R)))
  (same_traj_mask : list (list bool)) :
  (1 <= T)%nat ->
  (2 <= B)%nat ->
  latents B T spr_predictions ->
  latents T B spr_targets ->
  rect B T same_traj_mask ->
  Forall (Forall nonzero_groups) spr_predictions ->
  Forall (Forall nonzero_groups) spr_targets ->
  exists out,
    spr_loss T B spr_predictions spr_targets same_traj_mask = Some out
    /\ length out = B
    /\ (forall b predictions targets flags,
          spr_predictions !! b = Some predictions ->
          transpose B spr_targets !! b = Some targets ->
          same_traj_mask !! b = Some flags ->
          out !! b = Some (spr_loss_example predictions targets flags))
    /\ SPRLoss T B spr_predictions spr_targets same_traj_mask
       = Some (mean out).
Proof.
  (* [1 <= T] and [2 <= B] keep the two means away from an empty array and
     the batch away from the squeeze; the norms keep the divisions defined. *)
  intros _ _ HP HQ HM _ _.
  pose proof (spr_loss_by_example T B _ _ _ HP HQ HM) as Hloss.
  eexists. split; [exact Hloss|].
  destruct HP as [[HPn _] _]. destruct HQ as [HQ _]. destruct HM as [HMn _].
  pose proof (transpose_rows _ _ _ HQ) as [HQn _]. split; [|split].
  - rewrite length_zip_with, length_zip. lia.
  - intros b p q m Hp Hq Hm.
    rewrite lookup_zip_with, (lookup_zip_with pair), Hp, Hq, Hm. done.
  - unfold SPRLoss. by rewrite Hloss.
Qed.

Lemma spr_loss_per_example_witness :
  exists out,
    spr_loss 3 2 [[ex_u; ex_u; ex_u]; [ex_u; ex_u; ex_u]]
      [[ex_v; ex_v]; [ex_v; ex_v]; [ex_v; ex_v]]
      [[true; false; false]; [true; false; false]] = Some out
    /\ length out = 2%nat
    /\ (forall b predictions targets flags,
          [[ex_u; ex_u; ex_u]; [ex_u; ex_u; ex_u]] !! b = Some predictions ->
          transpose 2 [[ex_v; ex_v]; [ex_v; ex_v]; [ex_v; ex_v]] !! b
          = Some targets ->
          [[true; false; false]; [true; false; false]] !! b = Some flags ->
          out !! b = Some (spr_loss_example predictions targets flags))
    /\ SPRLoss 3 2 [[ex_u; ex_u; ex_u]; [ex_u; ex_u; ex_u]]
         [[ex_v; ex_v]; [ex_v; ex_v]; [ex_v; ex_v]]
         [[true; false; false]; [true; false; false]]
       = Some (mean out).
Proof.
  apply (spr_loss_per_example 3 2); [lia | lia |..];
    repeat first [apply ex_latent_lengths | apply nonzero_groups_ex
                 | reflexivity | split | constructor].
Defined.

(** ** An end-to-end projection *)

(** Reward 1, discount 0.9, non-terminal, support [-1, 0, 1]: the shifted
    support is [0.1, 1, 1.9]; with mass 1/2 on each of its first two points
    the projection puts 0.45 on the atom 0 and 0.55 on the atom 1. *)
Example project_distribution_scenario :
  project_distribution [1 / 10; 1; 19 / 10] [1 / 2; 1 / 2; 0] [-1; 0; 1]
  = Some [0; 45 / 100; 55 / 100].
Proof.
  unfold project_distribution. cbn [length List.last map INR].
  replace ((1 - -1) / (1 + 1 + 1 - 1)) with 1 by lra.
  rewrite mapM_broadcast_rows by (repeat constructor).
  cbn [mbind option_bind map zip_with]. unfold Rsum. cbn [foldr].
  repeat match goal with
         | |- context [clip ?x ?lo ?hi] =>
             first [ rewrite (clip_id x lo hi) by lra
                   | rewrite (clip_low x lo hi) by lra
                   | rewrite (clip_high x lo hi) by lra ]
         | |- context [Rabs ?x] =>
             first [ rewrite (Rabs_right x) by lra
                   | rewrite (Rabs_left1 x) by lra ]
         end.
  do 2 f_equal; [lra|]. f_equal; [lra|]. f_equal. lra.
Qed.

(* ================================================================== *)
(** * Part III: further properties of the code *)
(* ================================================================== *)

(** ** prefetch_to_device: depth zero and read-ahead *)

(** With [size = 0] the generator yields nothing, whatever the iterator
    holds: the first loop test finds the queue empty. *)
Lemma prefetch_size_zero_yields_nothing {A I : Type}
  (next : I -> option (A * I)) (iterator : I) (k : nat) :
  iter_take (prefetch_next next 0) k (PStart iterator) = [].
Proof. by destruct k. Qed.

Lemma iter_after_snoc {A I : Type} (next : I -> option (A * I)) k s :
  iter_after next (S k) s
  = iter_after next k s ≫= fun s' => snd <$> next s'.
Proof.
  revert s; induction k as [|k IH]; intros s.
  - cbn. by destruct (next s) as [[a s']|].
  - change (iter_after next (S (S k)) s)
      with (match next s with
            | None => None
            | Some (_, s') => iter_after next (S k) s'
            end).
    change (iter_after next (S k) s)
      with (match next s with
            | None => None
            | Some (_, s') => iter_after next k s'
            end).
    destruct (next s) as [[a s']|]; [apply IH | done].
Qed.

Lemma iter_after_add {A I : Type} (next : I -> option (A * I)) n k s :
  iter_after next (n + k) s = iter_after next n s ≫= iter_after next k.
Proof.
  revert s; induction n as [|n IH]; intros s; cbn; [done|].
  destruct (next s) as [[a s']|]; [apply IH | done].
Qed.

(** On an iterator that never ends, [enqueue n] draws exactly [n] elements. *)
Lemma enqueue_endless {A I : Type} (next : I -> option (A * I)) n it queue :
  (forall s, is_Some (next s)) ->
  iter_after next n it = Some (enqueue next n it queue).1
  /\ length (enqueue next n it queue).2 = (length queue + n)%nat.
Proof.
  intros Hnext. revert it queue; induction n as [|n IH]; intros it queue; cbn.
  - split; [done | lia].
  - destruct (Hnext it) as [[data it'] Hit]. rewrite Hit.
    destruct (IH it' (queue ++ [data])) as [H1 H2]. split; [done|].
    rewrite H2, length_app. cbn. lia.
Qed.

(** Read-ahead: on an iterator that never ends and with [size >= 1],
    when the consumer has received [k + 1] elements the generator has drawn
    [size + k] elements from the iterator and holds [size - 1] of them in its
    queue. *)
Theorem prefetch_reads_ahead {A I : Type} (next : I -> option (A * I))
  (size : nat) (iterator : I) (k : nat) :
  (forall s, is_Some (next s)) ->
  (1 <= size)%nat ->
  exists it queue,
    iter_after (prefetch_next next size) (S k) (PStart iterator)
    = Some (PYielded it queue)
    /\ iter_after next (size + k) iterator = Some it
    /\ length queue = (size - 1)%nat.
Proof.
  intros Hnext Hsize. induction k as [|k (it & queue & Hgen & Hit & Hlen)].
  - destruct (enqueue_endless next size iterator [] Hnext) as [H1 H2].
    cbn. destruct (enqueue next size iterator []) as [it queue] eqn:He.
    cbn [fst snd] in *. destruct queue as [|x queue]; cbn in *; [lia|].
    exists it, queue. rewrite Nat.add_0_r. repeat split; [done | lia].
  - rewrite iter_after_snoc, Hgen.
    destruct (enqueue_endless next 1 it queue Hnext) as [H1 H2].
    change (Some (PYielded it queue) ≫= (fun s' => snd <$> prefetch_next next size s'))
      with (snd <$> (let '(it', queue') := enqueue next 1 it queue in
                     prefetch_pop it' queue')).
    destruct (enqueue next 1 it queue) as [it' queue'].
    cbn [fst snd] in H1, H2. destruct queue' as [|x queue'];
      cbn [length] in H2; [lia|].
    exists it', queue'. repeat split; [|lia].
    replace (size + S k)%nat with ((size + k) + 1)%nat by lia.
    by rewrite iter_after_add, Hit.
Qed.

(** A never-ending iterator: the natural numbers from a start. *)
Lemma prefetch_reads_ahead_witness :
  exists it queue,
    iter_after (prefetch_next (fun n : nat => Some (n, S n)) 2) (S 3) (PStart 0%nat)
    = Some (PYielded it queue)
    /\ iter_after (fun n : nat => Some (n, S n)) (2 + 3) 0%nat = Some it
    /\ length queue = (2 - 1)%nat.
Proof.
  apply (prefetch_reads_ahead (fun n : nat => Some (n, S n)) 2 0%nat 3).
  - intros s. by eexists.
  - lia.
Defined.

(** ** Induction on parameter trees *)

Lemma tree_size_child {A} (m : gmap string (tree A)) k v :
  m !! k = Some v -> (tree_size v < tree_size (Node m))%nat.
Proof.
  intros Hk. cbn. rewrite <- (insert_delete_id m k v Hk).
  rewrite map_fold_insert_L.
  - lia.
  - intros. lia.
  - apply lookup_delete_eq.
Qed.

Lemma tree_induction {A} (P : tree A -> Prop) :
  (forall a, P (Leaf a)) ->
  (forall m, (forall k v, m !! k = Some v -> P v) -> P (Node m)) ->
  forall t, P t.
Proof.
  intros HL HN t. remember (tree_size t) as n eqn:Hn.
  revert t Hn. induction n as [n IH] using lt_wf_ind. intros [a|m] Hn.
  - apply HL.
  - apply HN. intros k v Hk. apply (IH (tree_size v)); [|done].
    subst n. by eapply tree_size_child.
Qed.

(** ** copy_within_frozen_tree *)

(** The call raises exactly when [old[prefix]] is missing or is not a
    dictionary.  Otherwise the result is a dictionary whose entry under
    [prefix] is the dictionary [old[prefix]] overlaid with [new] (the entries
    of [new] win, the others stay) and whose other entries are those of
    [old]. *)
Theorem copy_within_frozen_tree_lookup {A} (old : tree A)
  (new : gmap string (tree A)) (prefix : string) :
  match copy_within_frozen_tree old new prefix with
  | Some t =>
      exists old_items old_entry items entry,
        dict_of old = Some old_items
        /\ old_items !! prefix = Some (Node old_entry)
        /\ dict_of t = Some items
        /\ items !! prefix = Some (Node entry)
        /\ (forall j, entry !! j = match new !! j with
                                   | Some v => Some v
                                   | None => old_entry !! j
                                   end)
        /\ (forall k, k <> prefix -> items !! k = old_items !! k)
  | None => forall old_entry, subscript old prefix <> Some (Node old_entry)
  end.
Proof.
  unfold copy_within_frozen_tree. destruct old as [a|m]; cbn; [done|].
  destruct (m !! prefix) as [[a|old_entry]|] eqn:Hp; cbn; try done.
  exists m, old_entry, (<[prefix := Node (new ∪ old_entry)]> m),
    (new ∪ old_entry).
  split; [done|]. split; [done|]. split; [done|].
  split; [by rewrite lookup_insert_eq|]. split.
  - intros j. rewrite lookup_union.
    destruct (new !! j), (old_entry !! j); done.
  - intros k Hk. by rewrite lookup_insert_ne.
Qed.

(** Writing entries that are already there changes nothing; in particular the
    function is idempotent. *)
Theorem copy_within_frozen_tree_idempotent {A} (old : tree A)
  (new : gmap string (tree A)) (prefix : string) (t : tree A) :
  copy_within_frozen_tree old new prefix = Some t ->
  copy_within_frozen_tree t new prefix = Some t.
Proof.
  unfold copy_within_frozen_tree. destruct old as [a|m]; cbn; [done|].
  destruct (m !! prefix) as [[a|entry]|] eqn:Hp; cbn; try done.
  intros [= <-]. cbn. rewrite lookup_insert_eq. cbn.
  rewrite insert_insert_eq. do 3 f_equal.
  by rewrite (assoc (∪)), (idemp (∪) new).
Qed.

Lemma copy_within_frozen_tree_idempotent_witness :
  copy_within_frozen_tree
    (Node {[ "a" := Node {[ "x" := Leaf 1%nat ]}; "b" := Leaf 2%nat ]})
    {[ "y" := Leaf 3%nat ]} "a"
  = Some (Node {[ "a" := Node {[ "x" := Leaf 1%nat; "y" := Leaf 3%nat ]};
                  "b" := Leaf 2%nat ]})
  /\ copy_within_frozen_tree
       (Node {[ "a" := Node {[ "x" := Leaf 1%nat; "y" := Leaf 3%nat ]};
                "b" := Leaf 2%nat ]})
       {[ "y" := Leaf 3%nat ]} "a"
     = Some (Node {[ "a" := Node {[ "x" := Leaf 1%nat; "y" := Leaf 3%nat ]};
                     "b" := Leaf 2%nat ]}).
Proof.
  split; [by vm_compute|].
  apply (copy_within_frozen_tree_idempotent
           (Node {[ "a" := Node {[ "x" := Leaf 1%nat ]}; "b" := Leaf 2%nat ]})).
  by vm_compute.
Defined.

(** ** copy_params: key set, errors, idempotence *)

Lemma copy_params_Node_dom {A} (m m' : gmap string (tree A)) target keys :
  copy_params (Node m) target keys = Some (Node m') -> dom m' = dom m.
Proof.
  cbn. destruct (map_sequence _) as [m''|] eqn:Hseq; [|done]. cbn.
  intros [= <-]. apply map_sequence_Some_inv in Hseq.
  apply set_eq; intros k. rewrite !elem_of_dom.
  apply (f_equal (fun M => M !! k)) in Hseq.
  rewrite map_lookup_imap, lookup_fmap in Hseq.
  destruct (m !! k), (m'' !! k); cbn in Hseq; try done; split; by eauto.
Qed.

(** The result of copying from a dictionary has exactly the keys of the
    source (entries that only the target has are dropped), and under each key
    of [keys] it holds the source's value. *)
Theorem copy_params_keys {A} (m : gmap string (tree A)) (target : tree A)
  (keys : list string) (t : tree A) :
  copy_params (Node m) target keys = Some t ->
  exists m', t = Node m' /\ dom m' = dom m
             /\ forall k, k ∈ keys -> m' !! k = m !! k.
Proof.
  intros Hcopy. destruct (copy_params_Node_inv m target keys t Hcopy)
    as (m' & -> & Hm'). exists m'. split; [done|].
  pose proof (copy_params_Node_dom m m' target keys Hcopy) as Hdom.
  split; [done|]. intros k Hk.
  destruct (m !! k) as [v|] eqn:Hmk.
  - destruct (Hm' k v Hmk) as (x & -> & Hx).
    rewrite bool_decide_eq_true_2 in Hx by done. done.
  - apply not_elem_of_dom in Hmk. rewrite <- Hdom in Hmk.
    by apply not_elem_of_dom in Hmk.
Qed.

Lemma copy_params_keys_witness :
  exists m', Node ex_copied_groups = Node m' /\ dom m' = dom ex_old_groups
             /\ forall k, k ∈ ["encoder"] -> m' !! k = ex_old_groups !! k.
Proof.
  apply (copy_params_keys ex_old_groups (Node ex_new_groups) ["encoder"]).
  by vm_compute.
Defined.

(** A key of the source that is not copied must exist in the target: the
    lookup [target[k]] raises otherwise (also when the target is no
    dictionary at all). *)
Theorem copy_params_missing_key {A} (m : gmap string (tree A)) (target : tree A)
  (keys : list string) (k : string) (v : tree A) :
  m !! k = Some v -> k ∉ keys -> subscript target k = None ->
  copy_params (Node m) target keys = None.
Proof.
  intros Hk Hkeys Htarget.
  destruct (copy_params (Node m) target keys) as [t|] eqn:Hcopy; [|done].
  destruct (copy_params_Node_inv m target keys t Hcopy) as (m' & -> & Hm').
  destruct (Hm' k v Hk) as (x & _ & Hx).
  rewrite bool_decide_eq_false_2, Htarget in Hx by done. done.
Qed.

Lemma copy_params_missing_key_witness :
  copy_params (Node ex_old_groups) (Node {[ "encoder" := Leaf [7] ]}) ["encoder"]
  = None.
Proof.
  apply (copy_params_missing_key ex_old_groups _ ["encoder"] "head"
           (Node {[ "kernel" := Leaf [1; 2] ]})).
  - by vm_compute.
  - by intros ?%list_elem_of_singleton.
  - by vm_compute.
Defined.

(** Copying the same source a second time into the result changes nothing. *)
Theorem copy_params_idempotent {A} (source target : tree A) (keys : list string)
  (t : tree A) :
  copy_params source target keys = Some t ->
  copy_params source t keys = Some t.
Proof.
  revert target t. induction source as [a|m IH] using tree_induction;
    intros target t Hcopy; [done|].
  destruct (copy_params_Node_inv m target keys t Hcopy) as (m' & -> & Hm').
  pose proof (copy_params_Node_dom m m' target keys Hcopy) as Hdom. cbn.
  replace (map_imap _ m) with (Some <$> m').
  { by rewrite map_sequence_fmap_Some. }
  apply map_eq; intros k. rewrite lookup_fmap, map_lookup_imap.
  destruct (m !! k) as [v|] eqn:Hk; cbn.
  - destruct (Hm' k v Hk) as (x & Hx & Hcopy_k). rewrite Hx. cbn.
    case_bool_decide; [congruence|].
    destruct (subscript target k) as [target_k|]; [|done]. cbn in Hcopy_k.
    by rewrite (IH k v Hk target_k x).
  - apply not_elem_of_dom in Hk. rewrite <- Hdom in Hk.
    apply not_elem_of_dom in Hk. by rewrite Hk.
Qed.

Lemma copy_params_idempotent_witness :
  copy_params (Node ex_old_groups) (Node ex_copied_groups) ["encoder"]
  = Some (Node ex_copied_groups).
Proof.
  apply (copy_params_idempotent (Node ex_old_groups) (Node ex_new_groups)).
  by vm_compute.
Defined.

(** ** tree_map2 and interpolate_weights: leaves, frame, errors *)

Lemma tree_map2_Node_inv {A} (f : A -> A -> option A) m1 m2 t :
  tree_map2 f (Node m1) (Node m2) = Some t ->
  exists m, t = Node m /\ dom m1 = dom m2 /\
    forall k, match m1 !! k with
              | Some v1 => exists v2 x, m2 !! k = Some v2
                             /\ tree_map2 f v1 v2 = Some x /\ m !! k = Some x
              | None => m !! k = None
              end.
Proof.
  cbn. case_bool_decide as Hdom; [|done].
  destruct (map_sequence _) as [m|] eqn:Hseq; [|done]. cbn.
  intros [= <-]. exists m. split; [done|]. split; [done|]. intros k.
  apply map_sequence_Some_inv in Hseq.
  apply (f_equal (fun M => M !! k)) in Hseq.
  rewrite map_lookup_imap, lookup_fmap in Hseq.
  destruct (m1 !! k) as [v1|], (m !! k) as [x|]; cbn in Hseq; try done.
  injection Hseq as Hseq.
  destruct (m2 !! k) as [v2|]; [|done]. cbn in Hseq. by exists v2, x.
Qed.

(** A leaf of the first tree is combined with the leaf at the same place of
    the second. *)
Lemma tree_map2_at {A} (f : A -> A -> option A) path (t1 t2 t : tree A) a :
  tree_map2 f t1 t2 = Some t ->
  tree_at path t1 = Some (Leaf a) ->
  exists b c, tree_at path t2 = Some (Leaf b) /\ f a b = Some c
              /\ tree_at path t = Some (Leaf c).
Proof.
  revert t1 t2 t. induction path as [|k path IH]; intros t1 t2 t Hmap Hat.
  - injection Hat as ->. destruct t2 as [b|m2]; [|done]. cbn in Hmap.
    destruct (f a b) as [c|] eqn:Hf; [|done]. injection Hmap as <-.
    by exists b, c.
  - destruct t1 as [a1|m1]; [done|]. destruct t2 as [b|m2]; [done|].
    destruct (tree_map2_Node_inv f m1 m2 t Hmap) as (m & -> & _ & Hm).
    specialize (Hm k). cbn in Hat |- *.
    destruct (m1 !! k) as [v1|]; [|done]. cbn in Hat.
    destruct Hm as (v2 & x & -> & Hx & ->). cbn. by eapply IH.
Qed.

Lemma combination_same_shape ow nw a b :
  length a = length b ->
  combination ow nw a b = Some (zip_with (fun x y => x * ow + y * nw) a b).
Proof.
  unfold combination, broadcast_add, broadcast. intros Hlen.
  rewrite decide_True by (by rewrite !length_map). f_equal.
  revert b Hlen; induction a as [|x a IH]; intros [|y b] Hlen; try done.
  cbn. f_equal. apply IH. by injection Hlen.
Qed.

Lemma interpolate_weights_old_groups old new keys ow nw strip t :
  interpolate_weights old new keys ow nw strip = Some t ->
  exists og, groups_of strip old = Some og.
Proof.
  unfold interpolate_weights, groups_of.
  destruct (strip_layer strip old) as [o|]; [|done].
  cbn. destruct (strip_layer strip new); [|done].
  cbn. destruct (dict_of o) as [og|]; [|done]. by exists og.
Qed.

Lemma interpolate_weights_stripped old new keys ow nw t cg :
  interpolate_weights old new keys ow nw true = Some t ->
  groups_of true t = Some cg ->
  t = Node {[ "params" := Node cg ]}.
Proof.
  unfold interpolate_weights, groups_of.
  destruct (strip_layer true old) as [o|]; [|done]. cbn.
  destruct (subscript new "params"); [|done]. cbn.
  destruct (dict_of o) as [og'|]; [|done]. cbn.
  destruct (interpolate_keys _ _ _ _ _ _) as [c|]; [|done]. cbn.
  intros [= <-]. cbn. rewrite lookup_singleton_eq. cbn. by intros [= <-].
Qed.

(** Outside the interpolated keys nothing changes, and the result has the
    groups of the old tree, no more and no fewer; with the outer layer
    stripped, "params" is the only top-level entry that is returned. *)
Theorem interpolate_weights_frame (old_params new_params : params)
  (keys : option (list string)) (old_weight new_weight : R)
  (strip_params_layer : bool) (t : params) :
  interpolate_weights old_params new_params keys old_weight new_weight
    strip_params_layer = Some t ->
  exists old_groups groups,
    groups_of strip_params_layer old_params = Some old_groups
    /\ groups_of strip_params_layer t = Some groups
    /\ dom groups = dom old_groups
    /\ (forall k, k ∉ interpolated_keys keys old_groups ->
                  groups !! k = old_groups !! k)
    /\ (strip_params_layer = true -> t = Node {[ "params" := Node groups ]}).
Proof.
  intros Hint.
  destruct (interpolate_weights_old_groups _ _ _ _ _ _ _ Hint) as [og Hog].
  destruct (interpolate_weights_groups _ _ _ _ _ _ _ og Hint Hog)
    as (new' & cg & Hnew & Hcg & Hk).
  exists og, cg. repeat split; try done.
  - apply set_eq; intros k. rewrite !elem_of_dom.
    destruct (Hk k) as [Hin Hout].
    destruct (decide (k ∈ interpolated_keys keys og)) as [Hd|Hd].
    + destruct (Hin Hd) as (v & r & v' & -> & _ & _ & ->). split; by eauto.
    + by rewrite (Hout Hd).
  - intros k Hd. by apply (Hk k).
  - intros ->. by eapply interpolate_weights_stripped.
Qed.

Lemma interpolate_weights_frame_witness :
  exists old_groups groups,
    groups_of true ex_old_params = Some old_groups
    /\ groups_of true (Node {[ "params" := Node ex_mixed_groups ]}) = Some groups
    /\ dom groups = dom old_groups
    /\ (forall k, k ∉ interpolated_keys (Some ["head"]) old_groups ->
                  groups !! k = old_groups !! k)
    /\ (true = true ->
        Node {[ "params" := Node ex_mixed_groups ]}
        = Node {[ "params" := Node groups ]}).
Proof.
  apply (interpolate_weights_frame ex_old_params ex_new_params (Some ["head"])
           (1 / 2) (1 / 2) true).
  unfold ex_mixed_groups. vm_compute. do 6 f_equal; lra.
Defined.

(** A key to interpolate that one of the two trees lacks makes the call
    raise. *)
Theorem interpolate_weights_missing_key (old_params new_params : params)
  (keys : list string) (old_weight new_weight : R) (strip_params_layer : bool)
  (k : string) :
  k ∈ keys ->
  (strip_layer strip_params_layer old_params ≫= fun o => subscript o k) = None
  \/ (strip_layer strip_params_layer new_params ≫= fun n => subscript n k) = None ->
  interpolate_weights old_params new_params (Some keys) old_weight new_weight
    strip_params_layer = None.
Proof.
  intros Hk Hmissing.
  destruct (interpolate_weights _ _ _ _ _ _) as [t|] eqn:Hint; [|done].
  destruct (interpolate_weights_old_groups _ _ _ _ _ _ _ Hint) as [og Hog].
  destruct (interpolate_weights_groups _ _ _ _ _ _ _ og Hint Hog)
    as (new' & cg & Hnew & _ & Hgroups).
  destruct (Hgroups k) as [Hin _].
  destruct (Hin Hk) as (v & r & v' & Hv & Hr & _).
  unfold groups_of in Hog. rewrite Hnew in Hmissing. cbn in Hmissing.
  destruct (strip_layer strip_params_layer old_params) as [[a|o]|];
    cbn in Hog, Hmissing; try done.
  injection Hog as ->. destruct Hmissing; congruence.
Qed.

Lemma interpolate_weights_missing_key_witness :
  interpolate_weights ex_old_params ex_new_params (Some ["head"; "projection"])
    (1 / 2) (1 / 2) true = None.
Proof.
  apply (interpolate_weights_missing_key _ _ _ _ _ _ "projection").
  - apply list_elem_of_further, list_elem_of_here.
  - left. by vm_compute.
Defined.

(** ** The target-network update *)

Lemma tree_map2_same_aval (t1 t2 : params) :
  same_structure same_shape t1 t2 -> tree_map2 same_aval t1 t2 = Some t1.
Proof.
  induction 1 as [a b Hab|m1 m2 Hdom _ IH]; cbn.
  - unfold same_aval. by rewrite decide_True.
  - rewrite bool_decide_eq_true_2 by done.
    replace (map_imap _ m1) with (Some <$> m1).
    { by rewrite map_sequence_fmap_Some. }
    apply map_eq; intros k. rewrite lookup_fmap, map_lookup_imap.
    destruct (m1 !! k) as [v1|] eqn:Hk; [|done]. cbn.
    destruct (same_dom_lookup m1 m2 k v1 Hdom Hk) as [v2 Hk2].
    rewrite Hk2. cbn. by rewrite (IH k v1 v2).
Qed.

Lemma same_structure_sym (t1 t2 : params) :
  same_structure same_shape t1 t2 -> same_structure same_shape t2 t1.
Proof.
  induction 1 as [a b Hab|m1 m2 Hdom _ IH]; constructor; eauto.
  by unfold same_shape in *.
Qed.

Lemma same_structure_trans (t1 t2 t3 : params) :
  same_structure same_shape t1 t2 -> same_structure same_shape t2 t3 ->
  same_structure same_shape t1 t3.
Proof.
  intros H; revert t3. induction H as [a b Hab|m1 m2 Hdom _ IH]; intros t3 H23.
  - inversion H23; subst. constructor. unfold same_shape in *. congruence.
  - inversion H23 as [|? m3 Hdom3 Hsub3]; subst. constructor; [congruence|].
    intros k v1 v3 Hk1 Hk3.
    destruct (same_dom_lookup m1 m2 k v1 Hdom Hk1) as [v2 Hk2]. eauto.
Qed.

(** On two trees of the same structure and shapes the weighted combination
    is defined and has that structure. *)
Lemma tree_map2_combination_total ow nw (t1 t2 : params) :
  same_structure same_shape t1 t2 ->
  exists t, tree_map2 (combination ow nw) t1 t2 = Some t
            /\ same_structure same_shape t t1.
Proof.
  induction 1 as [a b Hab|m1 m2 Hdom _ IH].
  - cbn. rewrite combination_same_shape by done. eexists. split; [done|].
    constructor. unfold same_shape in *. rewrite length_zip_with. lia.
  - pose (m := map_imap (fun k v1 =>
                 m2 !! k ≫= tree_map2 (combination ow nw) v1) m1).
    assert (forall k v1, m1 !! k = Some v1 ->
              exists x, m !! k = Some x /\ same_structure same_shape x v1
                /\ (m2 !! k ≫= tree_map2 (combination ow nw) v1) = Some x)
      as Hm.
    { intros k v1 Hk. destruct (same_dom_lookup m1 m2 k v1 Hdom Hk) as [v2 Hk2].
      destruct (IH k v1 v2 Hk Hk2) as (x & Hx & Hsame). exists x.
      unfold m. rewrite map_lookup_imap, Hk, Hk2. cbn. by rewrite Hx. }
    exists (Node m). split.
    + cbn. rewrite bool_decide_eq_true_2 by done.
      replace (map_imap _ m1) with (Some <$> m).
      { by rewrite map_sequence_fmap_Some. }
      apply map_eq; intros k. rewrite lookup_fmap, map_lookup_imap.
      destruct (m1 !! k) as [v1|] eqn:Hk; cbn.
      * destruct (Hm k v1 Hk) as (x & Hx1 & _ & Hx2). rewrite Hx1. cbn.
        f_equal. symmetry. exact Hx2.
      * unfold m. by rewrite map_lookup_imap, Hk.
    + constructor.
      * apply set_eq; intros k. rewrite !elem_of_dom. split.
        -- intros [x Hx]. unfold m in Hx. rewrite map_lookup_imap in Hx.
           destruct (m1 !! k); [by eauto | done].
        -- intros [v1 Hk]. destruct (Hm k v1 Hk) as (x & -> & _). by eauto.
      * intros k x v1 Hx Hk. destruct (Hm k v1 Hk) as (x' & Hx' & Hsame & _).
        congruence.
Qed.

Lemma same_structure_refl (t : params) : same_structure same_shape t t.
Proof.
  induction t as [a|m IH] using tree_induction; constructor; try done.
  intros k v1 v2 Hk1 Hk2. rewrite Hk1 in Hk2. injection Hk2 as <-. eauto.
Qed.

Lemma tree_map2_convex_self ow nw (t : params) :
  ow + nw = 1 -> tree_map2 (combination ow nw) t t = Some t.
Proof.
  intros Hsum. induction t as [a|m IH] using tree_induction; cbn.
  - rewrite combination_same_shape by done. cbn. do 2 f_equal.
    induction a as [|x a IHa]; [done|]. cbn. f_equal; [|done].
    replace (x * ow + x * nw) with (x * (ow + nw)) by lra. rewrite Hsum. lra.
  - rewrite bool_decide_eq_true_2 by done.
    replace (map_imap _ m) with (Some <$> m).
    { by rewrite map_sequence_fmap_Some. }
    apply map_eq; intros k. rewrite lookup_fmap, map_lookup_imap.
    destruct (m !! k) as [v|] eqn:Hk; [|done]. cbn. by rewrite (IH k v).
Qed.

(** With [keys=None] every group of the old tree is combined. *)
Lemma interpolate_weights_all_groups old new ow nw t og :
  interpolate_weights old new None ow nw true = Some t ->
  groups_of true old = Some og ->
  exists new' cg,
    subscript new "params" = Some new' /\ t = Node {[ "params" := Node cg ]}
    /\ dom cg = dom og
    /\ forall k v, og !! k = Some v ->
         exists r v', subscript new' k = Some r
           /\ tree_map2 (combination ow nw) v r = Some v' /\ cg !! k = Some v'.
Proof.
  intros Hint Hog.
  destruct (interpolate_weights_groups _ _ _ _ _ _ _ og Hint Hog)
    as (new' & cg & Hnew & Hcg & Hk).
  assert (forall k v, og !! k = Some v -> k ∈ interpolated_keys None og) as Hall.
  { intros k v Hv. cbn. apply list_elem_of_fmap. exists (k, v).
    split; [done|]. by apply elem_of_map_to_list. }
  exists new', cg. split; [done|]. split.
  { by eapply interpolate_weights_stripped. }
  split.
  - apply set_eq; intros k. rewrite !elem_of_dom. destruct (Hk k) as [Hin Hout].
    destruct (og !! k) as [v|] eqn:Hv.
    + destruct (Hin (Hall k v Hv)) as (v0 & r & v' & _ & _ & _ & ->).
      split; by eauto.
    + destruct (decide (k ∈ interpolated_keys None og)) as [Hd|Hd].
      * destruct (Hin Hd) as (v0 & _ & _ & ? & _). congruence.
      * rewrite (Hout Hd). done.
  - intros k v Hv. destruct (Hk k) as [Hin _].
    destruct (Hin (Hall k v Hv)) as (v0 & r & v' & Hv0 & Hr & Hmap & Hc).
    exists r, v'. repeat split; congruence.
Qed.

(** The update step on a target and an online tree of the same structure. *)
Lemma target_update_step_total ow nw og (online : params) :
  same_structure same_shape (Node {[ "params" := Node og ]}) online ->
  exists cg,
    interpolate_weights (Node {[ "params" := Node og ]}) online None ow nw true
    = Some (Node {[ "params" := Node cg ]})
    /\ same_structure same_shape (Node {[ "params" := Node cg ]})
         (Node {[ "params" := Node og ]}).
Proof.
  intros Hsame.
  assert (groups_of true (Node {[ "params" := Node og ]} : params) = Some og)
    as Hog by (unfold groups_of; cbn; by rewrite lookup_singleton_eq).
  destruct (same_structure_groups same_shape true _ _ og Hsame Hog)
    as (new' & ng & Hnew & Hng & Hdom & Hsub).
  destruct new' as [a|ng']; [done|]. injection Hng as ->.
  destruct (interpolate_weights_total (Node {[ "params" := Node og ]}) online
              None ow nw true og (Node ng) Hog Hnew) as [t Ht].
  { intros k Hk. apply (interpolated_keys_dom None og k I) in Hk.
    destruct Hk as [v Hv].
    destruct (same_dom_lookup og ng k v Hdom Hv) as [r Hr].
    destruct (tree_map2_combination_total ow nw v r) as (v' & Hv' & _); [by eauto|].
    by exists v, r, v'. }
  destruct (interpolate_weights_all_groups _ _ _ _ _ og Ht Hog)
    as (new' & cg & Hnew' & -> & Hdomc & Hgroups).
  exists cg. split; [done|].
  constructor; [by rewrite !dom_singleton_L|].
  intros j v1 v2 Hj1 Hj2.
  apply lookup_singleton_Some in Hj1 as [<- <-].
  apply lookup_singleton_Some in Hj2 as [_ <-].
  constructor; [done|]. intros k x v Hx Hv.
  destruct (Hgroups k v Hv) as (r & v' & Hr & Hmap & Hc).
  cbn in Hnew. rewrite Hnew in Hnew'. injection Hnew' as <-. cbn in Hr.
  destruct (tree_map2_combination_total ow nw v r) as (v'' & Hv'' & Hs); [by eauto|].
  congruence.
Qed.

(** On a target tree that holds nothing but "params" and an online tree of
    the same structure and shapes, the target update is defined at every
    step, and the new target has the structure of the old one. *)
Theorem target_update_total (online_params : params)
  (target_groups : gmap string params)
  (target_update_tau : R) (target_update_every step : Z) :
  same_structure same_shape (Node {[ "params" := Node target_groups ]})
    online_params ->
  exists t,
    target_update (Node {[ "params" := Node target_groups ]}) online_params
      target_update_tau target_update_every step = Some t
    /\ same_structure same_shape t (Node {[ "params" := Node target_groups ]}).
Proof.
  intros Hsame. unfold target_update.
  destruct (target_update_step_total (1 - target_update_tau) target_update_tau
              target_groups online_params Hsame) as (cg & -> & Hcg).
  cbn [mbind option_bind]. rewrite (tree_map2_same_aval _ _ Hcg).
  cbn [mbind option_bind]. eexists. split; [done|].
  case_bool_decide; [done | apply same_structure_refl].
Qed.

Lemma target_update_total_witness :
  exists t,
    target_update (Node {[ "params" := Node ex_old_groups ]}) ex_new_params
      (5 / 1000) 1 7 = Some t
    /\ same_structure same_shape t (Node {[ "params" := Node ex_old_groups ]}).
Proof.
  apply (target_update_total ex_new_params ex_old_groups (5 / 1000) 1 7).
  unfold ex_new_params, ex_new_groups, ex_old_groups. same_structure_tac.
Defined.

(** Polyak averaging: on an update step every array of the new target is
    [(1 - tau) * target + tau * online], taken at the same place of the two
    trees, and it has the shape of the old target array. *)
Theorem target_update_polyak (target_params online_params : params)
  (target_update_tau : R) (target_update_every step : Z) (t : params)
  (path : list string) (a : list R) :
  target_update target_params online_params target_update_tau
    target_update_every step = Some t ->
  (0 < target_update_every)%Z ->
  (step `mod` target_update_every = 0)%Z ->
  tree_at ("params" :: path) target_params = Some (Leaf a) ->
  exists b c,
    tree_at ("params" :: path) online_params = Some (Leaf b)
    /\ tree_at ("params" :: path) t = Some (Leaf c)
    /\ combination (1 - target_update_tau) target_update_tau a b = Some c
    /\ length c = length a
    /\ (length a = length b ->
        c = zip_with (fun x y => x * (1 - target_update_tau)
                                 + y * target_update_tau) a b).
Proof.
  unfold target_update. intros Hupd _ Hstep Hat.
  destruct (interpolate_weights _ _ _ _ _ _) as [updated|] eqn:Hint; [|done].
  cbn [mbind option_bind] in Hupd.
  destruct (tree_map2 same_aval updated target_params) as [u|] eqn:Hcond; [|done].
  cbn [mbind option_bind] in Hupd.
  rewrite bool_decide_eq_true_2 in Hupd by done. injection Hupd as <-.
  destruct (interpolate_weights_old_groups _ _ _ _ _ _ _ Hint) as [og Hog].
  destruct (interpolate_weights_all_groups _ _ _ _ _ og Hint Hog)
    as (new' & cg & Hnew & -> & _ & Hgroups).
  unfold groups_of in Hog. cbn in Hog.
  assert (tree_at ("params" :: path) target_params = Some (Leaf a)) as Hat0
    by done.
  cbn in Hat.
  destruct (subscript target_params "params") as [[a0|og']|] eqn:Hsub; try done.
  injection Hog as ->. cbn in Hat.
  destruct path as [|k path]; [done|]. cbn in Hat.
  destruct (og !! k) as [v|] eqn:Hv; [|done]. cbn in Hat.
  destruct (Hgroups k v Hv) as (r & v' & Hr & Hmap & Hc).
  destruct (tree_map2_at _ path v r v' a Hmap Hat) as (b & c & Hb & Hf & Hc').
  exists b, c. cbn. rewrite Hnew. cbn. rewrite Hr. cbn.
  rewrite lookup_singleton_eq. cbn. rewrite Hc. cbn.
  repeat split; try done.
  - destruct (tree_map2_at same_aval ("params" :: k :: path)
                (Node {[ "params" := Node cg ]}) target_params u c Hcond)
      as (a' & c' & Ha' & Hshape & _).
    { cbn. rewrite lookup_singleton_eq. cbn. rewrite Hc. done. }
    rewrite Hat0 in Ha'. injection Ha' as <-.
    unfold same_aval in Hshape. by destruct (decide (length c = length a)).
  - intros Hlen. rewrite combination_same_shape in Hf by done. congruence.
Qed.

Lemma target_update_polyak_witness :
  exists b c,
    tree_at ["params"; "head"; "kernel"] ex_new_params = Some (Leaf b)
    /\ tree_at ["params"; "head"; "kernel"]
         (Node {[ "params" := Node ex_polyak_groups ]}) = Some (Leaf c)
    /\ combination (1 - 1 / 2) (1 / 2) [1; 2] b = Some c
    /\ length c = length [1; 2]
    /\ (length [1; 2] = length b ->
        c = zip_with (fun x y => x * (1 - 1 / 2) + y * (1 / 2)) [1; 2] b).
Proof.
  apply (target_update_polyak ex_old_params ex_new_params (1 / 2) 2 4
           (Node {[ "params" := Node ex_polyak_groups ]}) ["head"; "kernel"]).
  - by vm_compute.
  - lia.
  - reflexivity.
  - by vm_compute.
Defined.

(** When the target already equals the online network the update leaves it
    as it is, for every [tau] and at every step. *)
Theorem target_update_synchronised (groups : gmap string params)
  (target_update_tau : R) (target_update_every step : Z) :
  target_update (Node {[ "params" := Node groups ]})
    (Node {[ "params" := Node groups ]})
    target_update_tau target_update_every step
  = Some (Node {[ "params" := Node groups ]}).
Proof.
  unfold target_update.
  destruct (target_update_step_total (1 - target_update_tau) target_update_tau
              groups (Node {[ "params" := Node groups ]})
              (same_structure_refl _)) as (cg & Hint & Hcg).
  assert (groups_of true (Node {[ "params" := Node groups ]} : params)
          = Some groups) as Hog
    by (unfold groups_of; cbn; by rewrite lookup_singleton_eq).
  destruct (interpolate_weights_all_groups _ _ _ _ _ groups Hint Hog)
    as (new' & cg' & Hnew & Heq & Hdom & Hgroups).
  apply (f_equal (groups_of true)) in Heq. unfold groups_of in Heq.
  cbn in Heq. rewrite !lookup_singleton_eq in Heq. cbn in Heq.
  injection Heq as <-.
  cbn in Hnew. rewrite lookup_singleton_eq in Hnew. injection Hnew as <-.
  assert (cg = groups) as ->.
  { apply map_eq; intros k. destruct (groups !! k) as [v|] eqn:Hv.
    - destruct (Hgroups k v Hv) as (r & v' & Hr & Hmap & ->).
      cbn in Hr. rewrite Hv in Hr. injection Hr as <-.
      rewrite tree_map2_convex_self in Hmap by lra. done.
    - apply not_elem_of_dom. rewrite Hdom. by apply not_elem_of_dom. }
  rewrite Hint. cbn [mbind option_bind].
  rewrite (tree_map2_same_aval _ _ Hcg). cbn [mbind option_bind].
  by case_bool_decide.
Qed.

(** ** jit_reset: the optimizer state and the full reset *)

Lemma reset_optim_entry_fields {O} (optimizer_state : list (gmap string (tree O)))
  (keys : list string) (i : nat) (fresh entry : gmap string (tree O)) :
  reset_optim_entry optimizer_state keys i fresh = Some entry ->
  exists old, optimizer_state !! i = Some old
    /\ dom entry = dom fresh
    /\ (forall f, f ∈ keys -> is_Some (old !! f) -> entry !! f = old !! f)
    /\ (forall f a, f ∉ keys -> old !! f = Some (Leaf a) ->
                    entry !! f = fresh !! f)
    /\ (forall f, old !! f = None -> entry !! f = fresh !! f).
Proof.
  unfold reset_optim_entry.
  destruct (optimizer_state !! i) as [old|]; [|done]. cbn [mbind option_bind].
  destruct (copy_params (Node old) (Node fresh) keys) as [t|] eqn:Hcopy; [|done].
  cbn [mbind option_bind].
  destruct (copy_params_Node_inv old (Node fresh) keys t Hcopy) as (m' & -> & Hm').
  pose proof (copy_params_Node_dom old m' (Node fresh) keys Hcopy) as Hdom.
  cbn [dict_of mbind option_bind]. unfold namedtuple_replace.
  case_bool_decide as Hsub; [|done]. intros [= <-].
  exists old. split; [done|]. split.
  { rewrite dom_union_L. by apply subseteq_union_1_L. }
  split; [|split].
  - intros f Hf [v Hv]. destruct (Hm' f v Hv) as (x & Hx & Hcopy_f).
    rewrite bool_decide_eq_true_2 in Hcopy_f by done.
    rewrite Hv. injection Hcopy_f as ->. by apply lookup_union_Some_l.
  - intros f a Hf Hv. destruct (Hm' f (Leaf a) Hv) as (x & Hx & Hcopy_f).
    rewrite bool_decide_eq_false_2 in Hcopy_f by done. cbn in Hcopy_f.
    destruct (fresh !! f) as [r|]; [|done]. cbn in Hcopy_f.
    injection Hcopy_f as ->. by apply lookup_union_Some_l.
  - intros f Hf. apply lookup_union_r. apply not_elem_of_dom.
    rewrite Hdom. by apply not_elem_of_dom.
Qed.

(** The optimizer state after a reset is built entry by entry on the state
    [optimizer.init] gives for the new online parameters: it has as many
    entries, each with the fields of the fresh entry; a field named in
    [keys_to_copy] keeps its old value, and a field outside [keys_to_copy]
    whose old value is no dictionary (a step count) is the fresh one. *)
Theorem jit_reset_optimizer_state {key obs O : Type} (rnd : Random key)
  (online_params target_network_params : params)
  (optimizer_state : list (gmap string (tree O)))
  (network_def : Network key obs) (optimizer : Optimizer O) (rng : key)
  (state_shape : list nat) (do_rollout : bool) (support : list R)
  (reset_target : bool) (shrink_perturb_keys : list string)
  (shrink_factor perturb_factor : R) (keys_to_copy : list string)
  (online' target' : params) (optimizer_state' : list (gmap string (tree O)))
  (random_params : params) :
  jit_reset rnd online_params target_network_params optimizer_state network_def
    optimizer rng state_shape do_rollout support reset_target
    shrink_perturb_keys shrink_factor perturb_factor keys_to_copy
  = Some (online', target', optimizer_state', random_params) ->
  length optimizer_state' = length (opt_init optimizer online')
  /\ forall i entry fresh,
       optimizer_state' !! i = Some entry ->
       opt_init optimizer online' !! i = Some fresh ->
       exists old, optimizer_state !! i = Some old
         /\ dom entry = dom fresh
         /\ (forall f, f ∈ keys_to_copy -> is_Some (old !! f) ->
                       entry !! f = old !! f)
         /\ (forall f a, f ∉ keys_to_copy -> old !! f = Some (Leaf a) ->
                         entry !! f = fresh !! f).
Proof.
  unfold jit_reset. destruct (split rnd rng) as [online_rng target_rng].
  destruct (reset_params online_params _ _ _ _ _) as [o|]; [|done].
  cbn [mbind option_bind].
  destruct (mapM _ _) as [s|] eqn:Hmap; [|done]. cbn [mbind option_bind].
  destruct (if reset_target then _ else _) as [t|]; [|done].
  cbn [mbind option_bind]. intros [= <- <- <- <-].
  apply mapM_Some_1 in Hmap. split.
  - apply Forall2_length in Hmap. by rewrite length_imap in Hmap.
  - intros i entry fresh Hentry Hfresh.
    assert (imap pair (opt_init optimizer o) !! i = Some (i, fresh)) as Hi
      by (by rewrite list_lookup_imap, Hfresh).
    pose proof (Forall2_lookup_lr _ _ _ _ _ _ Hmap Hi Hentry) as Hreset.
    cbn in Hreset.
    destruct (reset_optim_entry_fields _ _ _ _ _ Hreset)
      as (old & Hold & Hdom & Hkeys & Hleaf & _).
    by exists old.
Qed.

Lemma jit_reset_optimizer_state_witness :
  length [ ({[ "count" := Leaf [0]; "mu" := ex_copied_params ]}
            : gmap string params) ]
  = length (opt_init ex_momentum ex_copied_params)
  /\ forall i entry fresh,
       [ ({[ "count" := Leaf [0]; "mu" := ex_copied_params ]}
          : gmap string params) ] !! i = Some entry ->
       opt_init ex_momentum ex_copied_params !! i = Some fresh ->
       exists old, ex_momentum_state !! i = Some old
         /\ dom entry = dom fresh
         /\ (forall f, f ∈ ["encoder"] -> is_Some (old !! f) ->
                       entry !! f = old !! f)
         /\ (forall f a, f ∉ ["encoder"] -> old !! f = Some (Leaf a) ->
                         entry !! f = fresh !! f).
Proof.
  apply (jit_reset_optimizer_state ex_random ex_old_params ex_old_params
           ex_momentum_state (ex_network ex_new_params) ex_momentum 1%nat
           [84; 84; 4]%nat true [-1; 0; 1] true [] 1 0 ["encoder"]
           ex_copied_params ex_copied_params _ ex_new_params).
  by vm_compute.
Defined.

Lemma key_free_nil {A} (t : tree A) : key_free [] t.
Proof.
  induction t as [a|m IH] using tree_induction; constructor; [|done].
  intros k v _. apply not_elem_of_nil.
Qed.

Lemma reset_optim_entry_fresh {O} (optimizer_state : list (gmap string (tree O)))
  (i : nat) (old fresh : gmap string (tree O)) :
  optimizer_state !! i = Some old ->
  same_structure any_leaf (Node old) (Node fresh) ->
  reset_optim_entry optimizer_state [] i fresh = Some fresh.
Proof.
  intros Hold Hsame. unfold reset_optim_entry. rewrite Hold.
  cbn [mbind option_bind].
  rewrite (copy_params_fresh _ _ [] Hsame (key_free_nil _)).
  cbn [mbind option_bind dict_of]. unfold namedtuple_replace.
  rewrite bool_decide_eq_true_2 by done. f_equal. apply (idemp (∪)).
Qed.

(** With nothing to copy and nothing to shrink the reset is a fresh
    initialization: on trees of the structure the network and the optimizer
    initialize, the online parameters are the new random ones, the optimizer
    state is that of [optimizer.init], and the target is initialized from the
    second half of the key (or left alone when [reset_target] is off). *)
Theorem jit_reset_from_scratch {key obs O : Type} (rnd : Random key)
  (online_params target_network_params : params)
  (optimizer_state : list (gmap string (tree O)))
  (network_def : Network key obs) (optimizer : Optimizer O) (rng : key)
  (state_shape : list nat) (do_rollout : bool) (support : list R)
  (reset_target : bool) (shrink_factor perturb_factor : R) :
  same_structure any_leaf online_params
    (net_init network_def (split rnd rng).1 state_shape do_rollout support) ->
  (reset_target = true ->
   same_structure any_leaf target_network_params
     (net_init network_def (split rnd rng).2 state_shape do_rollout support)) ->
  Forall2 (fun old fresh => same_structure any_leaf (Node old) (Node fresh))
    optimizer_state
    (opt_init optimizer
       (net_init network_def (split rnd rng).1 state_shape do_rollout support)) ->
  jit_reset rnd online_params target_network_params optimizer_state network_def
    optimizer rng state_shape do_rollout support reset_target [] shrink_factor
    perturb_factor []
  = Some (net_init network_def (split rnd rng).1 state_shape do_rollout support,
          (if reset_target
           then net_init network_def (split rnd rng).2 state_shape do_rollout
                  support
           else target_network_params),
          opt_init optimizer
            (net_init network_def (split rnd rng).1 state_shape do_rollout
               support),
          net_init network_def (split rnd rng).1 state_shape do_rollout support).
Proof.
  intros Honline Htarget Hoptim. unfold jit_reset.
  destruct (split rnd rng) as [online_rng target_rng]. cbn [fst snd] in *.
  unfold reset_params. cbn [mbind option_bind].
  rewrite (copy_params_fresh _ _ [] Honline (key_free_nil _)).
  cbn [mbind option_bind].
  rewrite (mapM_Some_2 _ _ (opt_init optimizer
             (net_init network_def online_rng state_shape do_rollout support))).
  - cbn [mbind option_bind]. destruct reset_target; [|done].
    by rewrite (copy_params_fresh _ _ [] (Htarget eq_refl) (key_free_nil _)).
  - apply Forall2_same_length_lookup_2; [by rewrite length_imap|].
    intros i [j fresh] fresh' Hi Hfresh.
    rewrite list_lookup_imap, Hfresh in Hi. injection Hi as <- <-.
    destruct (Forall2_lookup_r _ _ _ _ _ Hoptim Hfresh) as (old & Hold & Hsame).
    by eapply reset_optim_entry_fresh.
Qed.

Lemma jit_reset_from_scratch_witness :
  jit_reset ex_random ex_old_params ex_old_params ex_momentum_state
    (ex_network ex_new_params) ex_momentum 1%nat [84; 84; 4]%nat true [-1; 0; 1]
    false [] 1 0 []
  = Some (net_init (ex_network ex_new_params) (split ex_random 1%nat).1
            [84; 84; 4]%nat true [-1; 0; 1],
          (if false
           then net_init (ex_network ex_new_params) (split ex_random 1%nat).2
                  [84; 84; 4]%nat true [-1; 0; 1]
           else ex_old_params),
          opt_init ex_momentum
            (net_init (ex_network ex_new_params) (split ex_random 1%nat).1
               [84; 84; 4]%nat true [-1; 0; 1]),
          net_init (ex_network ex_new_params) (split ex_random 1%nat).1
            [84; 84; 4]%nat true [-1; 0; 1]).
Proof.
  apply (jit_reset_from_scratch ex_random ex_old_params ex_old_params
           ex_momentum_state (ex_network ex_new_params) ex_momentum 1%nat
           [84; 84; 4]%nat true [-1; 0; 1] false 1 0).
  - cbn. unfold ex_old_params, ex_new_params, ex_old_groups, ex_new_groups.
    same_structure_tac.
  - done.
  - cbn. constructor; [|constructor].
    unfold ex_old_params, ex_new_params, ex_old_groups, ex_new_groups.
    same_structure_tac.
Defined.

(** ** exponential_decay_scheduler: range and monotonicity *)

Lemma clip_range x lo hi : lo <= hi -> lo <= clip x lo hi <= hi.
Proof.
  intros Hle. unfold clip, Rmin, Rmax.
  repeat destruct (Rle_dec _ _); lra.
Qed.

Lemma clip_monotone x y lo hi : x <= y -> clip x lo hi <= clip y lo hi.
Proof.
  intros Hle. unfold clip, Rmin, Rmax.
  repeat destruct (Rle_dec _ _); lra.
Qed.

(** With a decay period other than zero the schedule is defined exactly when
    both logarithms are, and then has this value. *)
Lemma scheduler_closed_form dp ws iv fv (rev : bool) step v :
  dp <> 0 ->
  exponential_decay_scheduler dp ws iv fv rev step = Some v ->
  0 < (if rev then 1 - iv else iv) /\ 0 < (if rev then 1 - fv else fv)
  /\ v = (if rev
          then 1 - exp (clip ((dp + ws - step) / dp) 0 1
                        * (ln (1 - iv) - ln (1 - fv)) + ln (1 - fv))
          else exp (clip ((dp + ws - step) / dp) 0 1
                    * (ln iv - ln fv) + ln fv)).
Proof.
  intros Hdp. unfold exponential_decay_scheduler, np_log.
  rewrite decide_False by done.
  destruct rev; repeat case_decide; cbn; try done; intros [= <-]; done.
Qed.

Lemma scheduler_total dp ws iv fv (rev : bool) step :
  dp <> 0 ->
  0 < (if rev then 1 - iv else iv) -> 0 < (if rev then 1 - fv else fv) ->
  is_Some (exponential_decay_scheduler dp ws iv fv rev step).
Proof.
  intros Hdp Hiv Hfv. unfold exponential_decay_scheduler, np_log.
  rewrite decide_False by done.
  destruct rev; rewrite !decide_True by done; cbn; by eexists.
Qed.

Lemma exp_monotone x y : x <= y -> exp x <= exp y.
Proof.
  intros [Hlt | ->]; [left; by apply exp_increasing | lra].
Qed.

Lemma ln_monotone x y : 0 < x -> x <= y -> ln x <= ln y.
Proof.
  intros Hx [Hlt | ->]; [left; apply ln_increasing; lra | lra].
Qed.

(** A log-linear interpolation stays between its end points. *)
Lemma log_interpolation_between a b t :
  0 < a -> 0 < b -> 0 <= t <= 1 ->
  Rmin a b <= exp (t * (ln a - ln b) + ln b) <= Rmax a b.
Proof.
  intros Ha Hb Ht.
  assert (ln (Rmin a b) <= t * (ln a - ln b) + ln b <= ln (Rmax a b)) as [Hlo Hhi].
  { unfold Rmin, Rmax. destruct (Rle_dec a b) as [Hab|Hab].
    - pose proof (ln_monotone a b Ha Hab). nra.
    - pose proof (ln_monotone b a Hb ltac:(lra)). nra. }
  assert (0 < Rmin a b) by (unfold Rmin; destruct (Rle_dec a b); lra).
  assert (0 < Rmax a b) by (unfold Rmax; destruct (Rle_dec a b); lra).
  split.
  - apply Rle_trans with (exp (ln (Rmin a b)));
      [rewrite exp_ln by done; lra | by apply exp_monotone].
  - apply Rle_trans with (exp (ln (Rmax a b)));
      [by apply exp_monotone | rewrite exp_ln by done; lra].
Qed.

(** With a decay period other than zero and end points whose logarithm is
    that of a positive number (the initial and the final value, or one minus
    them with [reverse]), the schedule is defined at every step and its value
    lies between the initial and the final value. *)
Theorem exponential_decay_scheduler_range
  (decay_period warmup_steps initial_value final_value : R) (reverse : bool)
  (step : R) :
  decay_period <> 0 ->
  0 < (if reverse then 1 - initial_value else initial_value) ->
  0 < (if reverse then 1 - final_value else final_value) ->
  exists v,
    exponential_decay_scheduler decay_period warmup_steps initial_value
      final_value reverse step = Some v
    /\ Rmin initial_value final_value <= v <= Rmax initial_value final_value.
Proof.
  intros Hdp Hiv Hfv.
  destruct (scheduler_total decay_period warmup_steps initial_value final_value
              reverse step Hdp Hiv Hfv) as [v Hv].
  exists v. split; [done|].
  destruct (scheduler_closed_form _ _ _ _ _ _ _ Hdp Hv) as (_ & _ & ->).
  pose proof (clip_range ((decay_period + warmup_steps - step) / decay_period)
                0 1 ltac:(lra)) as Hclip.
  destruct reverse.
  - pose proof (log_interpolation_between _ _ _ Hiv Hfv Hclip) as [Hlo Hhi].
    revert Hlo Hhi. unfold Rmin, Rmax.
    repeat destruct (Rle_dec _ _); intros; lra.
  - by apply log_interpolation_between.
Qed.

Lemma exponential_decay_scheduler_range_witness :
  exists v,
    exponential_decay_scheduler 10 5 (9 / 10) (1 / 10) true 8 = Some v
    /\ Rmin (9 / 10) (1 / 10) <= v <= Rmax (9 / 10) (1 / 10).
Proof.
  apply (exponential_decay_scheduler_range 10 5 (9 / 10) (1 / 10) true 8);
    cbn; lra.
Defined.

(** With a positive decay period and end points whose logarithm is that of a
    positive number, the schedule is defined at every step and moves one way
    only as the step grows: towards the final value. *)
Theorem exponential_decay_scheduler_monotone
  (decay_period warmup_steps initial_value final_value : R) (reverse : bool)
  (step1 step2 : R) :
  0 < decay_period ->
  0 < (if reverse then 1 - initial_value else initial_value) ->
  0 < (if reverse then 1 - final_value else final_value) ->
  step1 <= step2 ->
  exists v1 v2,
    exponential_decay_scheduler decay_period warmup_steps initial_value
      final_value reverse step1 = Some v1
    /\ exponential_decay_scheduler decay_period warmup_steps initial_value
         final_value reverse step2 = Some v2
    /\ (final_value <= initial_value -> v2 <= v1)
    /\ (initial_value <= final_value -> v1 <= v2).
Proof.
  intros Hdp Hiv Hfv Hstep.
  assert (decay_period <> 0) as Hne by lra.
  destruct (scheduler_total decay_period warmup_steps initial_value final_value
              reverse step1 Hne Hiv Hfv) as [v1 Hv1].
  destruct (scheduler_total decay_period warmup_steps initial_value final_value
              reverse step2 Hne Hiv Hfv) as [v2 Hv2].
  exists v1, v2. split; [done|]. split; [done|].
  destruct (scheduler_closed_form _ _ _ _ _ _ _ Hne Hv1) as (_ & _ & ->).
  destruct (scheduler_closed_form _ _ _ _ _ _ _ Hne Hv2) as (_ & _ & ->).
  set (b1 := clip ((decay_period + warmup_steps - step1) / decay_period) 0 1).
  set (b2 := clip ((decay_period + warmup_steps - step2) / decay_period) 0 1).
  assert (b2 <= b1) as Hb.
  { apply clip_monotone. unfold Rdiv. apply Rmult_le_compat_r; [|lra].
    left. by apply Rinv_0_lt_compat. }
  assert (0 <= b2) by (apply clip_range; lra).
  destruct reverse.
  - split; intros Hle.
    + assert (ln (1 - initial_value) <= ln (1 - final_value))
        by (apply ln_monotone; lra).
      assert (exp (b1 * (ln (1 - initial_value) - ln (1 - final_value))
                   + ln (1 - final_value))
              <= exp (b2 * (ln (1 - initial_value) - ln (1 - final_value))
                      + ln (1 - final_value))) by (apply exp_monotone; nra).
      lra.
    + assert (ln (1 - final_value) <= ln (1 - initial_value))
        by (apply ln_monotone; lra).
      assert (exp (b2 * (ln (1 - initial_value) - ln (1 - final_value))
                   + ln (1 - final_value))
              <= exp (b1 * (ln (1 - initial_value) - ln (1 - final_value))
                      + ln (1 - final_value))) by (apply exp_monotone; nra).
      lra.
  - split; intros Hle.
    + assert (ln final_value <= ln initial_value) by (apply ln_monotone; lra).
      apply exp_monotone. nra.
    + assert (ln initial_value <= ln final_value) by (apply ln_monotone; lra).
      apply exp_monotone. nra.
Qed.

Lemma exponential_decay_scheduler_monotone_witness :
  exists v1 v2,
    exponential_decay_scheduler 10 5 (9 / 10) (1 / 10) false 8 = Some v1
    /\ exponential_decay_scheduler 10 5 (9 / 10) (1 / 10) false 12 = Some v2
    /\ (1 / 10 <= 9 / 10 -> v2 <= v1)
    /\ (9 / 10 <= 1 / 10 -> v1 <= v2).
Proof.
  apply (exponential_decay_scheduler_monotone 10 5 (9 / 10) (1 / 10) false 8 12);
    cbn; lra.
Defined.

(** ** The schedules of the agent *)

Lemma floor_spec x : IZR (floor x) <= x < IZR (floor x) + 1.
Proof.
  unfold floor. rewrite minus_IZR. destruct (archimed x). lra.
Qed.

Lemma np_round_between (a b : Z) x :
  IZR a <= x <= IZR b -> (a <= np_round x <= b)%Z.
Proof.
  intros [Ha Hb]. pose proof (floor_spec x) as [Hlo Hhi].
  assert (a <= floor x)%Z.
  { apply Z.lt_succ_r, lt_IZR. rewrite succ_IZR. lra. }
  assert (floor x <= b)%Z by (apply le_IZR; lra).
  unfold np_round. cbv zeta.
  assert (1 / 2 <= x - IZR (floor x) -> (floor x + 1 <= b)%Z) as Hup.
  { intros Hr. apply Z.lt_succ_r. rewrite <- Z.add_1_r.
    apply Z.add_lt_mono_r, lt_IZR. lra. }
  repeat case_decide; try destruct (Z.even _); try lia;
    (split; [lia | apply Hup; lra]).
Qed.

Lemma np_round_IZR (n : Z) : np_round (IZR n) = n.
Proof.
  pose proof (np_round_between n n (IZR n) ltac:(lra)). lia.
Qed.

(** The update horizon that is scheduled is a whole number between
    [update_horizon] and [max_update_horizon]; it is [max_update_horizon] at
    the start of a cycle and [update_horizon] from [cycle_steps] on. *)
Theorem update_horizon_scheduler_range (update_horizon max_update_horizon : Z)
  (cycle_steps x : R) :
  0 < cycle_steps ->
  (1 <= update_horizon <= max_update_horizon)%Z ->
  exists n,
    update_horizon_scheduler update_horizon (Some max_update_horizon)
      cycle_steps x = Some n
    /\ (update_horizon <= n <= max_update_horizon)%Z
    /\ (x <= 0 -> n = max_update_horizon)
    /\ (cycle_steps <= x -> n = update_horizon).
Proof.
  intros Hcs [Huh Hmuh]. unfold update_horizon_scheduler.
  rewrite decide_False by lia.
  assert (0 < IZR update_horizon) as Hu by (apply IZR_lt; lia).
  assert (IZR update_horizon <= IZR max_update_horizon) as Hle by (by apply IZR_le).
  assert (0 < IZR update_horizon / IZR max_update_horizon <= 1) as [Hq0 Hq1].
  { split.
    - apply Rdiv_lt_0_compat; lra.
    - apply Rmult_le_reg_r with (IZR max_update_horizon); [lra|].
      replace (IZR update_horizon / IZR max_update_horizon * IZR max_update_horizon)
        with (IZR update_horizon) by (field; lra).
      lra. }
  assert (cycle_steps <> 0) as Hne by lra.
  destruct (scheduler_total cycle_steps 0 1
              (IZR update_horizon / IZR max_update_horizon) false x Hne)
    as [v Hv]; [cbn; lra..|].
  rewrite Hv. cbn [mbind option_bind]. eexists. split; [done|].
  destruct (scheduler_closed_form _ _ _ _ _ _ _ Hne Hv) as (_ & _ & Hform).
  cbn in Hform.
  pose proof (clip_range ((cycle_steps + 0 - x) / cycle_steps) 0 1 ltac:(lra))
    as Hclip.
  pose proof (log_interpolation_between 1
                (IZR update_horizon / IZR max_update_horizon) _
                ltac:(lra) Hq0 Hclip) as Hrange.
  rewrite <- Hform in Hrange.
  rewrite Rmin_right, Rmax_left in Hrange by lra.
  split; [|split].
  - apply np_round_between. split.
    + apply Rle_trans
        with (IZR update_horizon / IZR max_update_horizon * IZR max_update_horizon).
      * right. field. lra.
      * apply Rmult_le_compat_r; lra.
    + rewrite <- (Rmult_1_l (IZR max_update_horizon)) at 2.
      apply Rmult_le_compat_r; lra.
  - intros Hx. rewrite bonus_before in Hform by lra.
    destruct (scheduler_decaying 1 (IZR update_horizon / IZR max_update_horizon) 1)
      as [H1 _]; [lra..|].
    rewrite H1 in Hform by done. rewrite Hform, Rmult_1_l. apply np_round_IZR.
  - intros Hx. rewrite bonus_after in Hform by lra.
    destruct (scheduler_decaying 1 (IZR update_horizon / IZR max_update_horizon) 0)
      as [_ H0]; [lra..|].
    rewrite H0 in Hform by done. rewrite Hform.
    replace (IZR update_horizon / IZR max_update_horizon * IZR max_update_horizon)
      with (IZR update_horizon) by (field; lra).
    apply np_round_IZR.
Qed.

Lemma update_horizon_scheduler_range_witness :
  exists n,
    update_horizon_scheduler 3 (Some 10%Z) 10000 2500 = Some n
    /\ (3 <= n <= 10)%Z
    /\ (2500 <= 0 -> n = 10%Z)
    /\ (10000 <= 2500 -> n = 3%Z).
Proof.
  apply (update_horizon_scheduler_range 3 10 10000 2500); [lra | lia].
Defined.

(** The scheduled discount lies between [min_gamma] and [gamma], and never
    decreases along a cycle; with more than one cycle step it is [min_gamma]
    at the start of a cycle and [gamma] from [cycle_steps] on. *)
Theorem gamma_scheduler_range (min_gamma cycle_steps gamma x : R) :
  0 < min_gamma <= gamma ->
  gamma < 1 ->
  exists g,
    gamma_scheduler (Some min_gamma) cycle_steps gamma x = Some g
    /\ min_gamma <= g <= gamma
    /\ (1 < cycle_steps -> x <= 0 -> g = min_gamma)
    /\ (cycle_steps <= x -> g = gamma)
    /\ (forall y g', x <= y ->
          gamma_scheduler (Some min_gamma) cycle_steps gamma y = Some g' ->
          g <= g').
Proof.
  intros [Hmin Hle] Hgamma. unfold gamma_scheduler.
  destruct (decide (cycle_steps <= 1)) as [Hcs|Hcs].
  - exists gamma. repeat split; try lra. intros y g' _ [= <-]. lra.
  - assert (cycle_steps <> 0) as Hne by lra.
    destruct (scheduler_total cycle_steps 0 min_gamma gamma true x Hne)
      as [g Hg]; [cbn; lra..|].
    exists g. split; [done|].
    destruct (scheduler_closed_form _ _ _ _ _ _ _ Hne Hg) as (_ & _ & Hform).
    pose proof (clip_range ((cycle_steps + 0 - x) / cycle_steps) 0 1 ltac:(lra))
      as Hclip.
    pose proof (log_interpolation_between (1 - min_gamma) (1 - gamma) _
                  ltac:(lra) ltac:(lra) Hclip) as Hrange.
    rewrite Rmin_right, Rmax_left in Hrange by lra.
    split; [lra|]. split; [|split].
    + intros _ Hx. rewrite bonus_before in Hform by lra.
      destruct (scheduler_decaying (1 - min_gamma) (1 - gamma) 1)
        as [H1 _]; [lra..|].
      rewrite H1 in Hform by done. lra.
    + intros Hx. rewrite bonus_after in Hform by lra.
      destruct (scheduler_decaying (1 - min_gamma) (1 - gamma) 0)
        as [_ H0]; [lra..|].
      rewrite H0 in Hform by done. lra.
    + intros y g' Hxy Hg'.
      destruct (scheduler_closed_form _ _ _ _ _ _ _ Hne Hg') as (_ & _ & Hform').
      assert (clip ((cycle_steps + 0 - y) / cycle_steps) 0 1
              <= clip ((cycle_steps + 0 - x) / cycle_steps) 0 1) as Hb.
      { apply clip_monotone. unfold Rdiv. apply Rmult_le_compat_r; [|lra].
        left. apply Rinv_0_lt_compat. lra. }
      assert (ln (1 - gamma) <= ln (1 - min_gamma))
        by (apply ln_monotone; lra).
      assert (exp (clip ((cycle_steps + 0 - y) / cycle_steps) 0 1
                   * (ln (1 - min_gamma) - ln (1 - gamma)) + ln (1 - gamma))
              <= exp (clip ((cycle_steps + 0 - x) / cycle_steps) 0 1
                      * (ln (1 - min_gamma) - ln (1 - gamma)) + ln (1 - gamma)))
        by (apply exp_monotone; nra).
      lra.
Qed.

Lemma gamma_scheduler_range_witness :
  exists g,
    gamma_scheduler (Some (97 / 100)) 10000 (997 / 1000) 2500 = Some g
    /\ 97 / 100 <= g <= 997 / 1000
    /\ (1 < 10000 -> 2500 <= 0 -> g = 97 / 100)
    /\ (10000 <= 2500 -> g = 997 / 1000)
    /\ (forall y g', 2500 <= y ->
          gamma_scheduler (Some (97 / 100)) 10000 (997 / 1000) y = Some g' ->
          g <= g').
Proof.
  apply (gamma_scheduler_range (97 / 100) 10000 (997 / 1000) 2500); lra.
Defined.

Lemma cumprod_from_lookup acc gamma n i :
  (i < n)%nat ->
  cumprod_from acc (map (fun one => one * gamma) (replicate n 1)) !! i
  = Some (acc * gamma ^ S i).
Proof.
  revert acc i. induction n as [|n IH]; intros acc i Hi; [lia|].
  destruct i as [|i]; cbn.
  - f_equal. lra.
  - rewrite IH by lia. f_equal. cbn. lra.
Qed.

(** [cumulative_gamma] holds the powers of [gamma] from the first to the
    [max_update_horizon]-th. *)
Theorem cumulative_gamma_powers (max_update_horizon : nat) (gamma : R) :
  length (cumulative_gamma max_update_horizon gamma) = max_update_horizon
  /\ forall i, (i < max_update_horizon)%nat ->
       cumulative_gamma max_update_horizon gamma !! i = Some (gamma ^ S i).
Proof.
  unfold cumulative_gamma. split.
  - generalize 1 at 1. induction max_update_horizon as [|n IH]; intros acc;
      [done|]. cbn. by rewrite IH.
  - intros i Hi. rewrite cumprod_from_lookup by done. f_equal. lra.
Qed.

Lemma linearly_decaying_epsilon_cases
  (decay_period step warmup_steps epsilon : R) :
  0 < decay_period ->
  epsilon <= 1 / 100 ->
  exists v,
    linearly_decaying_epsilon decay_period step warmup_steps epsilon = Some v
    /\ epsilon <= v <= 1 / 100
    /\ (step <= warmup_steps -> v = 1 / 100)
    /\ (warmup_steps + decay_period <= step -> v = epsilon)
    /\ (warmup_steps <= step <= warmup_steps + decay_period ->
        v = epsilon + (1 / 100 - epsilon)
                      * ((decay_period + warmup_steps - step) / decay_period)).
Proof.
  intros Hdp Heps. unfold linearly_decaying_epsilon.
  rewrite decide_False by lra. eexists. split; [done|].
  set (frac := (decay_period + warmup_steps - step) / decay_period).
  replace ((1 / 100 - epsilon) * (decay_period + warmup_steps - step)
           / decay_period) with ((1 / 100 - epsilon) * frac)
    by (unfold frac; field; lra).
  pose proof (clip_range ((1 / 100 - epsilon) * frac) 0 (1 / 100 - epsilon)
                ltac:(lra)) as Hclip.
  split; [lra|].
  assert (frac = 1 + (warmup_steps - step) / decay_period) as Hfrac
    by (unfold frac; field; lra).
  assert (0 < / decay_period) as Hinv by (by apply Rinv_0_lt_compat).
  split; [|split].
  - intros Hstep. rewrite clip_high; [lra | lra |].
    assert (0 <= (warmup_steps - step) / decay_period)
      by (unfold Rdiv; apply Rmult_le_pos; lra).
    nra.
  - intros Hstep. rewrite clip_low; [lra | lra |].
    assert ((warmup_steps - step) / decay_period <= -1).
    { unfold Rdiv. apply Rle_trans with (- decay_period * / decay_period).
      - apply Rmult_le_compat_r; lra.
      - right. field. lra. }
    nra.
  - intros [Hlo Hhi]. rewrite clip_id; [done|].
    assert (-1 <= (warmup_steps - step) / decay_period <= 0) as [? ?].
    { split.
      - apply Rle_trans with (- decay_period * / decay_period).
        + right. field. lra.
        + unfold Rdiv. apply Rmult_le_compat_r; lra.
      - unfold Rdiv. replace 0 with (0 * / decay_period) by lra.
        apply Rmult_le_compat_r; lra. }
    nra.
Qed.

(** The schedule starts at [1e-2] and falls in a straight line to
    [epsilon], reached [decay_period] steps after the warm-up; it never
    leaves that range. *)
Theorem linearly_decaying_epsilon_schedule
  (decay_period step warmup_steps epsilon : R) :
  0 < decay_period ->
  epsilon <= 1 / 100 ->
  exists v,
    linearly_decaying_epsilon decay_period step warmup_steps epsilon = Some v
    /\ epsilon <= v <= 1 / 100
    /\ (step <= warmup_steps -> v = 1 / 100)
    /\ (warmup_steps + decay_period <= step -> v = epsilon)
    /\ (warmup_steps <= step <= warmup_steps + decay_period ->
        v = epsilon + (1 / 100 - epsilon)
                      * ((decay_period + warmup_steps - step) / decay_period)).
Proof. apply linearly_decaying_epsilon_cases. Qed.

Lemma linearly_decaying_epsilon_schedule_witness :
  exists v,
    linearly_decaying_epsilon 80000 20000 0 0 = Some v
    /\ 0 <= v <= 1 / 100
    /\ (20000 <= 0 -> v = 1 / 100)
    /\ (0 + 80000 <= 20000 -> v = 0)
    /\ (0 <= 20000 <= 0 + 80000 ->
        v = 0 + (1 / 100 - 0) * ((80000 + 0 - 20000) / 80000)).
Proof.
  apply (linearly_decaying_epsilon_schedule 80000 20000 0 0); lra.
Defined.

(** The entropy coefficient of the policy loss over the training steps:
    [1e-2] at step 0, down a straight line to 0 at step 80000, and 0 from
    there on. *)
Theorem x_ent_coef_schedule (training_steps : Z) :
  x_ent_coef training_steps
  = Some (if decide (training_steps <= 0)%Z then 1 / 100
          else if decide (80000 <= training_steps)%Z then 0
          else (80000 - IZR training_steps) / 8000000).
Proof.
  unfold x_ent_coef.
  destruct (linearly_decaying_epsilon_cases 80000 (IZR training_steps) 0 0)
    as (v & -> & _ & Hbefore & Hafter & Hbetween); [lra..|].
  f_equal. repeat case_decide.
  - apply Hbefore. by apply (IZR_le _ 0).
  - apply Hafter. rewrite Rplus_0_l. by apply (IZR_le 80000).
  - rewrite Hbetween; [lra|]. split.
    + apply (IZR_le 0). lia.
    + rewrite Rplus_0_l. apply (IZR_le _ 80000). lia.
Qed.

(** ** The support of the agent *)

Lemma grid_as_map v d n :
  grid v d n = map (fun i => v + INR i * d) (seq 0 n).
Proof.
  revert v. induction n as [|n IH]; intros v; [done|].
  cbn [grid seq map]. f_equal.
  - cbn. lra.
  - rewrite IH, <- seq_shift, map_map. apply map_ext. intros i.
    rewrite S_INR. lra.
Qed.

(** With at least two atoms and a positive [vmax] above [vmin], the support
    the agent builds is a valid support that starts at [vmin] and ends at
    [vmax]; a [vmin] of zero is replaced by [-vmax], like a missing one. *)
Theorem agent_support_valid (vmin : option R) (vmax : R) (num_atoms : nat) :
  (2 <= num_atoms)%nat ->
  0 < vmax ->
  match vmin with Some v => v < vmax | None => True end ->
  valid_support (agent_support vmin vmax num_atoms)
  /\ head (agent_support vmin vmax num_atoms)
     = Some (match vmin with
             | Some v => if decide (v = 0) then - vmax else v
             | None => - vmax
             end)
  /\ List.last (agent_support vmin vmax num_atoms) 0 = vmax
  /\ agent_support (Some 0) vmax num_atoms = agent_support None vmax num_atoms.
Proof.
  intros Hn Hvmax Hvmin. unfold agent_support.
  set (lo := match vmin with
             | Some v => if decide (v = 0) then - vmax else v
             | None => - vmax
             end).
  assert (lo < vmax) as Hlo.
  { unfold lo. destruct vmin as [v|]; [case_decide|]; lra. }
  assert (1 <= INR num_atoms - 1) as Hdiv.
  { apply le_INR in Hn. cbn in Hn. lra. }
  assert (linspace lo vmax num_atoms
          = grid lo ((vmax - lo) / (INR num_atoms - 1)) num_atoms) as Hgrid
    by (by rewrite grid_as_map).
  split; [|split; [|split]].
  - exists lo, ((vmax - lo) / (INR num_atoms - 1)), num_atoms.
    split; [|done]. apply Rdiv_lt_0_compat; lra.
  - unfold linspace. destruct num_atoms as [|n]; [lia|]. cbn [seq map head].
    f_equal. cbn. lra.
  - rewrite Hgrid, grid_last by lia. field. lra.
  - by rewrite decide_True.
Qed.

Lemma agent_support_valid_witness :
  valid_support (agent_support (Some 0) 10 51)
  /\ head (agent_support (Some 0) 10 51)
     = Some (match Some 0 with
             | Some v => if decide (v = 0) then - 10 else v
             | None => - 10
             end)
  /\ List.last (agent_support (Some 0) 10 51) 0 = 10
  /\ agent_support (Some 0) 10 51 = agent_support None 10 51.
Proof.
  apply (agent_support_valid (Some 0) 10 51); [lia | lra | lra].
Defined.

(** ** set_replay_settings *)

Lemma floor_IZR (n : Z) : floor (IZR n) = n.
Proof.
  pose proof (floor_spec (IZR n)) as [Hlo Hhi].
  apply le_IZR in Hlo. rewrite <- succ_IZR in Hhi. apply lt_IZR in Hhi. lia.
Qed.

(** When the settings are accepted, for a positive [_batches_to_group]:
    the group size is at least one and at most the one asked for, there is
    at least one group per training step, groups times group size is the
    number of updates computed from the replay ratio, and the update period
    is at least one. *)
Theorem set_replay_settings_groups
  (replay_ratio n_envs batch_size batches_to_group : Z) (min_replay_history : R)
  (settings : replay_settings) :
  (0 < batches_to_group)%Z ->
  set_replay_settings replay_ratio n_envs batch_size batches_to_group
    min_replay_history = Some settings ->
  (1 <= rs_batches_to_group settings <= batches_to_group)%Z
  /\ (1 <= rs_num_updates_per_train_step settings)%Z
  /\ (rs_num_updates_per_train_step settings * rs_batches_to_group settings
      = Z.max 1 (replay_ratio * n_envs / batch_size))%Z
  /\ (1 <= rs_update_period settings)%Z
  /\ rs_min_replay_history settings = min_replay_history / IZR n_envs.
Proof.
  intros Hbtg. unfold set_replay_settings.
  set (num := Z.max 1 (replay_ratio * n_envs / batch_size)).
  set (btg := Z.min batches_to_group num).
  repeat case_decide; try done. intros [= <-]. cbn.
  assert (1 <= btg <= num)%Z as [Hb1 Hb2] by lia.
  assert (num = btg * (num / btg))%Z as Hq by (apply Z.div_exact; lia).
  assert (1 <= num / btg)%Z as Hq1 by (apply Z.div_le_lower_bound; lia).
  assert (IZR num / IZR btg = IZR (num / btg)) as ->.
  { rewrite Hq at 1. rewrite mult_IZR. field.
    apply not_0_IZR. lia. }
  rewrite Rmax_right by (by apply (IZR_le 1)).
  unfold int_trunc. rewrite decide_True by (apply (IZR_le 0); lia).
  rewrite floor_IZR. repeat split; lia.
Qed.

Lemma set_replay_settings_groups_witness :
  (1 <= 2 <= 2)%Z
  /\ (1 <= 1)%Z
  /\ (1 * 2 = Z.max 1 (64 * 1 / 32))%Z
  /\ (1 <= 1)%Z
  /\ 2000 / IZR 1 = 2000 / IZR 1.
Proof.
  apply (set_replay_settings_groups 64 1 32 2 2000
           {| rs_num_updates_per_train_step := 1;
              rs_update_period := 1;
              rs_min_replay_history := 2000 / IZR 1;
              rs_batches_to_group := 2 |}); [lia|].
  unfold set_replay_settings. cbn -[IZR Rdiv Rmax int_trunc Z.max Z.min Z.div Z.mul].
  change (Z.max 1 (64 * 1 / 32))%Z with 2%Z. change (Z.min 2 2) with 2%Z.
  f_equal. f_equal.
  replace (IZR 2 / IZR 2) with (IZR 1) by lra.
  rewrite Rmax_right by lra.
  unfold int_trunc. rewrite decide_True by lra. apply floor_IZR.
Defined.

(** ** The reset check of _train_step *)

(** After the reset check no reset is due.  When none was due before, the
    agent is left exactly as it was.  When one was due, it has been counted
    and the next one is set [reset_every] steps ahead.  In both cases the
    configuration and the step counter are not touched. *)
Theorem reset_check_settles {key obs O : Type} (self self' : BBFAgent.t key obs O) :
  BBFAgent.reset_check self = Some self' ->
  BBFAgent.reset_triggered self' = false
  /\ BBFAgent.config self' = BBFAgent.config self
  /\ BBFAgent.training_steps self' = BBFAgent.training_steps self
  /\ (BBFAgent.reset_triggered self = false -> self' = self)
  /\ (BBFAgent.reset_triggered self = true ->
      BBFAgent.cumulative_resets self'
      = (BBFAgent.cumulative_resets self + 1)%Z
      /\ BBFAgent.next_reset self'
         = (BBFAgent.reset_every (BBFAgent.config self)
            + BBFAgent.training_steps self)%Z).
Proof.
  unfold BBFAgent.reset_check.
  destruct (BBFAgent.reset_triggered self) eqn:Htrig.
  - assert (BBFAgent.reset_every (BBFAgent.config self) > 0)%Z as Hevery.
    { unfold BBFAgent.reset_triggered in Htrig.
      apply andb_prop in Htrig as [H _]. by apply bool_decide_eq_true in H. }
    unfold BBFAgent.reset_weights. case_bool_decide.
    + intros [= <-]. unfold BBFAgent.reset_triggered. cbn.
      split; [|by repeat split].
      rewrite (bool_decide_eq_false_2 (_ > _ + _)%Z) by lia.
      apply andb_false_r.
    + destruct (split _ _) as [rng reset_rng].
      destruct (jit_reset _ _ _ _ _ _ _ _ _ _ _ _ _ _ _) as [[[[o t] s] r]|];
        [|done].
      cbn. intros [= <-]. unfold BBFAgent.reset_triggered. cbn.
      split; [|by repeat split].
      rewrite (bool_decide_eq_false_2 (_ > _ + _)%Z) by lia.
      apply andb_false_r.
  - intros [= <-]. by repeat split.
Qed.

Lemma reset_check_settles_witness :
  BBFAgent.reset_triggered ex_agent_skipped = false
  /\ BBFAgent.config ex_agent_skipped = BBFAgent.config ex_agent_due
  /\ BBFAgent.training_steps ex_agent_skipped
     = BBFAgent.training_steps ex_agent_due
  /\ (BBFAgent.reset_triggered ex_agent_due = false ->
      ex_agent_skipped = ex_agent_due)
  /\ (BBFAgent.reset_triggered ex_agent_due = true ->
      BBFAgent.cumulative_resets ex_agent_skipped
      = (BBFAgent.cumulative_resets ex_agent_due + 1)%Z
      /\ BBFAgent.next_reset ex_agent_skipped
         = (BBFAgent.reset_every (BBFAgent.config ex_agent_due)
            + BBFAgent.training_steps ex_agent_due)%Z).
Proof.
  apply (reset_check_settles ex_agent_due ex_agent_skipped). reflexivity.
Defined.

(** ** The loss weights *)

Lemma foldl_Rmax_spec (l : list R) (x : R) :
  (foldl Rmax x l = x \/ foldl Rmax x l ∈ l)
  /\ x <= foldl Rmax x l
  /\ Forall (fun y => y <= foldl Rmax x l) l.
Proof.
  revert x. induction l as [|y l IH]; intros x; cbn.
  - split; [by left|]. split; [lra | constructor].
  - destruct (IH (Rmax x y)) as (Hin & Hge & Hall).
    pose proof (Rmax_l x y). pose proof (Rmax_r x y).
    split; [|split].
    + destruct Hin as [Heq|Hin].
      * rewrite Heq. unfold Rmax. destruct (Rle_dec x y); [right|left]; [|done].
        apply list_elem_of_here.
      * right. by apply list_elem_of_further.
    + lra.
    + constructor; [lra | done].
Qed.

Lemma np_max_spec (l : list R) (m : R) :
  np_max l = Some m -> m ∈ l /\ Forall (fun y => y <= m) l.
Proof.
  destruct l as [|x l]; [done|]. cbn. intros [= <-].
  destruct (foldl_Rmax_spec l x) as (Hin & Hge & Hall). split.
  - destruct Hin as [->|Hin]; [apply list_elem_of_here | by apply list_elem_of_further].
  - by constructor.
Qed.

(** On a batch that is not empty, with sampling probabilities that are not
    negative, the loss weights are defined, one per sample; they are positive
    and at most one, one of them is exactly one, and a sample drawn with a
    larger probability never gets a larger weight. *)
Theorem loss_weights_normalised (probs : list R) :
  probs <> [] ->
  Forall (fun p => 0 <= p) probs ->
  exists w,
    loss_weights probs = Some w
    /\ length w = length probs
    /\ Forall (fun x => 0 < x <= 1) w
    /\ 1 ∈ w
    /\ forall i j p_i p_j w_i w_j,
         probs !! i = Some p_i -> probs !! j = Some p_j ->
         w !! i = Some w_i -> w !! j = Some w_j ->
         p_i <= p_j -> w_j <= w_i.
Proof.
  intros Hne Hprobs. unfold loss_weights.
  set (raw := map (fun p => 1 / sqrt (p + 1 / 10 ^ 10)) probs).
  assert (Forall (fun r => 0 < r) raw) as Hraw.
  { unfold raw. apply Forall_map. eapply list.Forall_impl; [exact Hprobs|].
    intros p Hp. cbn beta. apply Rdiv_lt_0_compat; [lra|].
    apply sqrt_lt_R0. assert (0 < 1 / 10 ^ 10) by (apply Rdiv_lt_0_compat; lra).
    lra. }
  destruct (np_max raw) as [m|] eqn:Hmax.
  2:{ unfold raw in Hmax. by destruct probs. }
  destruct (np_max_spec raw m Hmax) as [Hin Hall].
  assert (0 < m) as Hm.
  { rewrite list.Forall_forall in Hraw. by apply Hraw. }
  cbn [mbind option_bind]. eexists. split; [done|].
  split; [by unfold raw; rewrite !length_map|]. split; [|split].
  - apply Forall_map. rewrite list.Forall_forall in Hraw, Hall |- *.
    intros r Hr. cbn beta. split.
    + apply Rdiv_lt_0_compat; auto.
    + apply Rmult_le_reg_r with m; [done|].
      replace (r / m * m) with r by (field; lra).
      specialize (Hall r Hr). lra.
  - apply list_elem_of_fmap. exists m. split; [field; lra | done].
  - intros i j p_i p_j w_i w_j Hi Hj Hwi Hwj Hle.
    unfold raw in Hwi, Hwj. rewrite !list_lookup_fmap in Hwi, Hwj.
    rewrite Hi in Hwi. rewrite Hj in Hwj.
    cbn [fmap option_fmap option_map] in Hwi, Hwj.
    apply (inj Some) in Hwi, Hwj. subst w_i w_j.
    rewrite list.Forall_forall in Hprobs.
    assert (0 <= p_i) by (eapply Hprobs, list_elem_of_lookup_2; eauto).
    assert (0 < 1 / 10 ^ 10) by (apply Rdiv_lt_0_compat; lra).
    set (eps := 1 / 10 ^ 10) in *.
    assert (0 < sqrt (p_i + eps)) by (apply sqrt_lt_R0; lra).
    assert (sqrt (p_i + eps) <= sqrt (p_j + eps)) by (apply sqrt_le_1_alt; lra).
    apply Rmult_le_compat_r; [left; by apply Rinv_0_lt_compat|].
    apply Rmult_le_compat_l; [lra|]. apply Rinv_le_contravar; lra.
Qed.

Lemma loss_weights_normalised_witness :
  exists w,
    loss_weights [1 / 2; 1 / 4] = Some w
    /\ length w = length [1 / 2; 1 / 4]
    /\ Forall (fun x => 0 < x <= 1) w
    /\ 1 ∈ w
    /\ forall i j p_i p_j w_i w_j,
         [1 / 2; 1 / 4] !! i = Some p_i -> [1 / 2; 1 / 4] !! j = Some p_j ->
         w !! i = Some w_i -> w !! j = Some w_j ->
         p_i <= p_j -> w_j <= w_i.
Proof.
  apply (loss_weights_normalised [1 / 2; 1 / 4]); [done|].
  repeat constructor; lra.
Defined.

(** ** delete_one *)

(** Deleting the environment at a position of the state (counted from the
    front, or from the end by a negative index other than -1) removes that
    row and keeps the others in order. *)
Theorem delete_one_in_range {A} (state : list A) (env_id : Z) :
  (0 <= env_id < Z.of_nat (length state))%Z
  \/ (- Z.of_nat (length state) <= env_id < -1)%Z ->
  delete_one state env_id
  = take (Z.to_nat (env_id `mod` Z.of_nat (length state))) state
    ++ drop (S (Z.to_nat (env_id `mod` Z.of_nat (length state)))) state.
Proof.
  intros Hrange. unfold delete_one, slice_bound.
  destruct Hrange as [Hpos|Hneg].
  - rewrite Z.mod_small by lia. rewrite !decide_False by lia.
    do 2 f_equal; lia.
  - rewrite !decide_True by lia.
    replace (env_id `mod` Z.of_nat (length state))%Z
      with (env_id + Z.of_nat (length state))%Z.
    + do 2 f_equal; lia.
    + apply Z.mod_unique with (-1)%Z; lia.
Qed.

Lemma delete_one_in_range_witness :
  delete_one [10; 20; 30; 40]%nat (-3)
  = take (Z.to_nat ((-3) `mod` Z.of_nat (length [10; 20; 30; 40]%nat)))
      [10; 20; 30; 40]%nat
    ++ drop (S (Z.to_nat ((-3) `mod` Z.of_nat (length [10; 20; 30; 40]%nat))))
         [10; 20; 30; 40]%nat.
Proof.
  apply (delete_one_in_range [10; 20; 30; 40]%nat (-3)). right. cbn. lia.
Defined.

(** The function never raises.  An index at or beyond the end leaves the
    state as it is, and the index -1 does not delete the last row: it
    appends the whole state to the state without its last row. *)
Theorem delete_one_out_of_range {A} (state : list A) (env_id : Z) :
  ((Z.of_nat (length state) <= env_id)%Z -> delete_one state env_id = state)
  /\ delete_one state (-1) = take (length state - 1) state ++ state.
Proof.
  unfold delete_one, slice_bound. split.
  - intros Hge. rewrite !decide_False by lia.
    rewrite !Z.min_r by lia. rewrite Nat2Z.id.
    by rewrite firstn_all, drop_all, app_nil_r.
  - rewrite decide_True by lia. rewrite decide_False by lia.
    replace (Z.to_nat (Z.min (-1 + 1) (Z.of_nat (length state)))) with 0%nat by lia.
    cbn [drop]. do 2 f_equal. lia.
Qed.

(** ** select_action: probabilities and the greedy action *)

Lemma argmax_from_spec (l : list R) (best : R) (best_i i : nat) :
  (argmax_from best best_i i l = best_i /\ Forall (fun y => y <= best) l)
  \/ exists k x,
       argmax_from best best_i i l = (i + k)%nat /\ l !! k = Some x
       /\ best < x /\ Forall (fun y => y <= x) l
       /\ forall j y, (j < k)%nat -> l !! j = Some y -> y < x.
Proof.
  revert best best_i i. induction l as [|x l IH]; intros best best_i i; cbn.
  - left. by split.
  - destruct (decide (best < x)) as [Hlt|Hge].
    + right.
      destruct (IH x i (S i))
        as [[Hr Hall]|(k & x' & Hr & Hk & Hx & Hall & Hfirst)].
      * exists 0%nat, x. rewrite Hr. split; [lia|]. split; [done|].
        split; [done|]. split; [constructor; [lra | done]|].
        intros j y Hj. lia.
      * exists (S k), x'. rewrite Hr. split; [lia|]. split; [done|].
        split; [lra|]. split; [constructor; [lra | done]|].
        intros [|j] y Hj Hy; cbn in Hy.
        -- injection Hy as <-. done.
        -- apply (Hfirst j); [lia | done].
    + destruct (IH best best_i (S i))
        as [[Hr Hall]|(k & x' & Hr & Hk & Hx & Hall & Hfirst)].
      * left. split; [done|]. constructor; [lra | done].
      * right. exists (S k), x'. rewrite Hr. split; [lia|]. split; [done|].
        split; [done|]. split; [constructor; [lra | done]|].
        intros [|j] y Hj Hy; cbn in Hy.
        -- injection Hy as <-. lra.
        -- apply (Hfirst j); [lia | done].
Qed.

(** [argmax] gives the first position of the largest entry. *)
Lemma argmax_first_maximum (l : list R) :
  l <> [] ->
  exists i x, argmax l = Z.of_nat i /\ l !! i = Some x
    /\ Forall (fun y => y <= x) l
    /\ forall j y, (j < i)%nat -> l !! j = Some y -> y < x.
Proof.
  destruct l as [|x l]; [done|]. intros _. unfold argmax.
  destruct (argmax_from_spec l x 0 1)
    as [[Hr Hall]|(k & x' & Hr & Hk & Hx & Hall & Hfirst)].
  - exists 0%nat, x. rewrite Hr. split; [done|]. split; [done|].
    split; [constructor; [lra | done]|]. intros j y Hj. lia.
  - exists (S k), x'. rewrite Hr. split; [done|]. split; [done|].
    split; [constructor; [lra | done]|].
    intros [|j] y Hj Hy; cbn in Hy.
    + injection Hy as <-. done.
    + apply (Hfirst j); [lia | done].
Qed.

Lemma Rsum_exp_positive (l : list R) : l <> [] -> 0 < Rsum (map exp l).
Proof.
  destruct l as [|x l]; [done|]. intros _.
  pose proof (Rsum_exp_pos (x :: l) x (list_elem_of_here _ _)).
  pose proof (exp_pos x). lra.
Qed.

Lemma softmax_distribution (l : list R) :
  l <> [] -> Rsum (softmax l) = 1 /\ Forall (fun p => 0 < p) (softmax l).
Proof.
  intros Hne. pose proof (Rsum_exp_positive l Hne) as Hpos.
  unfold softmax. cbv zeta. split.
  - unfold Rdiv. rewrite (Rsum_map_scale (fun x => x)), map_id. field. lra.
  - apply Forall_map, Forall_map, Forall_true. intros x. cbn beta.
    apply Rdiv_lt_0_compat; [apply exp_pos | done].
Qed.

Lemma softmax_lookup (l : list R) i :
  softmax l !! i = (fun x => exp x / Rsum (map exp l)) <$> l !! i.
Proof.
  unfold softmax. cbv zeta. rewrite !list_lookup_fmap.
  by destruct (l !! i).
Qed.

(** In greedy mode the jitted [select_action] returns, for every observation
    of the batch whose policy head has at least one action, the first action
    of the largest probability; the probabilities it returns are positive
    and sum to one. *)
Theorem select_action_greedy {key obs : Type} (rnd : Random key)
  (network_def : Network key obs) (params : params) (state : list obs)
  (rng : key) (num_actions : Z) :
  Forall2 (fun action probs =>
             probs <> [] ->
             Rsum probs = 1 /\ Forall (fun p => 0 < p) probs
             /\ exists i p, action = Z.of_nat i /\ probs !! i = Some p
                  /\ Forall (fun q => q <= p) probs
                  /\ forall j q, (j < i)%nat -> probs !! j = Some q -> q < p)
    (select_action rnd network_def params state rng num_actions true).1.2
    (select_action rnd network_def params state rng num_actions true).2.
Proof.
  unfold select_action. destruct (split rnd rng) as [rng1 key1].
  destruct (split rnd key1) as [rng2 key2]. cbn [fst snd].
  set (logits := (zip_with _ _ _).*1).
  apply Forall2_fmap, Forall_Forall2_diag, Forall_true. intros l Hne.
  assert (l <> []) as Hl by (intros ->; by apply Hne).
  destruct (softmax_distribution l Hl) as [Hsum Hpos].
  split; [done|]. split; [done|].
  destruct (argmax_first_maximum l Hl) as (i & x & Hi & Hx & Hall & Hfirst).
  pose proof (Rsum_exp_positive l Hl) as HS.
  exists i, (exp x / Rsum (map exp l)). split; [done|].
  split; [by rewrite softmax_lookup, Hx|]. split.
  - unfold softmax. cbv zeta. apply Forall_map, Forall_map.
    eapply list.Forall_impl; [exact Hall|]. intros y Hy. cbn beta.
    apply Rmult_le_compat_r; [left; by apply Rinv_0_lt_compat|].
    by apply exp_monotone.
  - intros j q Hj Hq. rewrite softmax_lookup in Hq.
    destruct (l !! j) as [y|] eqn:Hy; [|done]. injection Hq as <-.
    apply Rmult_lt_compat_r; [by apply Rinv_0_lt_compat|].
    apply exp_increasing. by apply (Hfirst j).
Qed.

(** ** The TD error and the entropy of the policy *)

Lemma ln_le_minus_one x : 0 < x -> ln x <= x - 1.
Proof.
  intros Hx. pose proof (exp_ineq1_le (x - 1)) as Hexp.
  replace (1 + (x - 1)) with x in Hexp by lra.
  rewrite <- (ln_exp (x - 1)). by apply ln_monotone.
Qed.

(** Gibbs' inequality, term by term: against log-probabilities [ls], a
    probability [t] contributes at least [t - exp ls]. *)
Lemma gibbs_terms (ts ls : list R) :
  length ts = length ls ->
  Forall (fun t => 0 <= t) ts ->
  Rsum ts - Rsum (map exp ls)
  <= Rsum (zip_with (fun t l => - (t * l) + xlogx t) ts ls).
Proof.
  intros Hlen Hts. revert ls Hlen.
  induction Hts as [|t ts Ht _ IH]; intros [|l ls] Hlen; try done.
  - cbn [zip_with map]. rewrite !Rsum_nil. lra.
  - cbn [zip_with map]. rewrite !Rsum_cons.
    specialize (IH ls ltac:(by injection Hlen)).
    assert (t - exp l <= - (t * l) + xlogx t); [|lra].
    unfold xlogx. case_decide as Hpos.
    + pose proof (ln_le_minus_one (exp l / t)) as Hln.
      assert (0 < exp l / t) as Hq
        by (apply Rdiv_lt_0_compat; [apply exp_pos | done]).
      specialize (Hln Hq). unfold Rdiv in Hln.
      rewrite ln_mult, ln_exp, ln_Rinv in Hln;
        [|done|apply exp_pos|by apply Rinv_0_lt_compat].
      assert (t * (l + - ln t) <= t * (exp l * / t - 1))
        by (apply Rmult_le_compat_l; lra).
      replace (t * (exp l * / t - 1)) with (exp l - t) in * by (field; lra).
      lra.
    + assert (t = 0) as -> by lra. pose proof (exp_pos l). lra.
Qed.

Lemma zip_with_split_sum (f g : R -> R -> R) (ts ls : list R) :
  Rsum (zip_with (fun t l => f t l + g t l) ts ls)
  = Rsum (zip_with f ts ls) + Rsum (zip_with g ts ls).
Proof.
  revert ls. induction ts as [|t ts IH]; intros [|l ls]; cbn [zip_with];
    rewrite ?Rsum_nil, ?Rsum_cons, ?IH; lra.
Qed.

Lemma zip_with_fst_sum (f : R -> R) (ts ls : list R) :
  length ts = length ls ->
  Rsum (zip_with (fun t _ => f t) ts ls) = Rsum (map f ts).
Proof.
  revert ls. induction ts as [|t ts IH]; intros [|l ls] Hlen; try done.
  cbn [zip_with map]. rewrite !Rsum_cons, IH by (by injection Hlen). done.
Qed.

Lemma exp_log_softmax_sum (l : list R) :
  l <> [] -> Rsum (map exp (log_softmax l)) = 1.
Proof.
  intros Hne. pose proof (Rsum_exp_positive l Hne) as Hpos.
  unfold log_softmax. cbv zeta. rewrite map_map.
  rewrite (map_ext (fun x => exp (x - ln (Rsum (map exp l))))
             (fun x => exp x * / Rsum (map exp l))).
  - rewrite (Rsum_map_scale exp). field. lra.
  - intros x. unfold Rminus. rewrite exp_plus, exp_Ropp, exp_ln by done. done.
Qed.

(** The TD error of a transition is the Kullback-Leibler divergence of the
    target distribution from the predicted one: it is defined and never
    negative when the target is a probability distribution over as many
    atoms as there are logits. *)
Theorem td_error_nonneg (target chosen_action_logits : list R) :
  length target = length chosen_action_logits ->
  Forall (fun t => 0 <= t) target ->
  Rsum target = 1 ->
  exists e, td_error target chosen_action_logits = Some e /\ 0 <= e.
Proof.
  intros Hlen Hpos Hsum. unfold td_error, softmax_cross_entropy_loss_with_logits.
  assert (length target = length (log_softmax chosen_action_logits)) as Hlen'
    by (unfold log_softmax; by rewrite length_map).
  rewrite broadcast_mul_same by done. cbn [mbind option_bind].
  eexists. split; [done|].
  assert (chosen_action_logits <> []) as Hne.
  { intros ->. destruct target; [|done]. rewrite Rsum_nil in Hsum. lra. }
  pose proof (gibbs_terms target (log_softmax chosen_action_logits) Hlen' Hpos)
    as Hg.
  rewrite exp_log_softmax_sum, Hsum in Hg by done.
  rewrite (zip_with_split_sum (fun t l => - (t * l)) (fun t _ => xlogx t)) in Hg.
  assert (Rsum (zip_with (fun t l => - (t * l)) target
                  (log_softmax chosen_action_logits))
          = - Rsum (zip_with Rmult target (log_softmax chosen_action_logits)))
    as Hneg.
  { clear. generalize (log_softmax chosen_action_logits).
    induction target as [|t ts IH]; intros [|l ls]; cbn [zip_with];
      rewrite ?Rsum_nil, ?Rsum_cons, ?IH; lra. }
  rewrite zip_with_fst_sum in Hg by done. lra.
Qed.

Lemma td_error_nonneg_witness :
  exists e, td_error [1 / 2; 1 / 2; 0] [1; 2; 3] = Some e /\ 0 <= e.
Proof.
  apply (td_error_nonneg [1 / 2; 1 / 2; 0] [1; 2; 3]).
  - done.
  - repeat constructor; lra.
  - rewrite !Rsum_cons, Rsum_nil. lra.
Defined.

Lemma jnp_index_Some (a : list R) (i : nat) (x : R) :
  jnp_index a i = Some x -> a <> [].
Proof. unfold jnp_index. by destruct a. Qed.

Lemma Rsum_replicate (n : nat) (c : R) : Rsum (replicate n c) = INR n * c.
Proof.
  induction n as [|n IH]; [cbn; rewrite Rsum_nil; lra|].
  cbn [replicate]. rewrite Rsum_cons, IH, S_INR. lra.
Qed.

Lemma softmax_xlogx (logits : list R) :
  0 < Rsum (map exp logits) ->
  Rsum (map xlogx (softmax logits))
  = Rsum (zip_with Rmult (softmax logits) (log_softmax logits)).
Proof.
  unfold softmax, log_softmax. cbv zeta.
  generalize (Rsum (map exp logits)). intros S HS.
  induction logits as [|x l IH]; cbn [map zip_with]; [done|].
  rewrite !Rsum_cons, IH. f_equal. unfold xlogx.
  assert (0 < exp x / S) by (apply Rdiv_lt_0_compat; [apply exp_pos | done]).
  rewrite decide_True by done. f_equal. unfold Rdiv.
  rewrite ln_mult, ln_exp, ln_Rinv;
    [lra|done|apply exp_pos|by apply Rinv_0_lt_compat].
Qed.

Lemma zip_with_replicate_sum (ts : list R) (c : R) :
  Rsum (zip_with (fun t l => - (t * l)) ts (replicate (length ts) c))
  = - c * Rsum ts.
Proof.
  induction ts as [|t ts IH]; cbn [length replicate zip_with].
  - rewrite !Rsum_nil. lra.
  - rewrite !Rsum_cons, IH. lra.
Qed.

(** The entropy the policy loss reports lies between zero and the logarithm
    of the number of actions. *)
Theorem policy_loss_entropy_range (q_values logits : list R) (samples : nat)
  (x_ent_coef loss x_ent : R) :
  policy_loss q_values logits samples x_ent_coef = Some (loss, x_ent) ->
  0 <= x_ent <= ln (INR (length logits)).
Proof.
  unfold policy_loss.
  destruct (jnp_index q_values samples) as [q_sample|]; [|done].
  cbn [mbind option_bind].
  destruct (broadcast_mul q_values (softmax logits)) as [weighted|]; [|done].
  cbn [mbind option_bind].
  assert (length (softmax logits) = length (log_softmax logits)) as Hlen
    by (unfold softmax, log_softmax; by rewrite !length_map).
  rewrite broadcast_mul_same by done. cbn [mbind option_bind].
  destruct (jnp_index (log_softmax logits) samples) as [lp|] eqn:Hlp; [|done].
  cbn [mbind option_bind]. intros [= _ <-].
  assert (logits <> []) as Hne.
  { apply jnp_index_Some in Hlp. intros ->. by apply Hlp. }
  destruct (softmax_distribution logits Hne) as [Hsum Hpos].
  assert (Forall (fun p => 0 <= p) (softmax logits)) as Hnonneg
    by (eapply list.Forall_impl; [exact Hpos|]; intros p Hp; cbn beta; lra).
  split.
  - pose proof (Rsum_nonpos_products _ _ Hnonneg (log_softmax_nonpos logits)).
    lra.
  - set (n := length logits).
    assert (0 < INR n) as Hn.
    { apply lt_0_INR. unfold n. destruct logits; [done | cbn; lia]. }
    assert (length (softmax logits) = n) as Hsl
      by (unfold softmax, n; by rewrite !length_map).
    pose proof (gibbs_terms (softmax logits) (replicate n (- ln (INR n)))
                  ltac:(by rewrite length_replicate) Hnonneg) as Hg.
    rewrite Hsum in Hg.
    assert (map exp (replicate n (- ln (INR n))) = replicate n (/ INR n)) as Hexp.
    { generalize n at 1 3. intros k. induction k as [|k IH]; [done|].
      cbn [replicate map]. by rewrite IH, exp_Ropp, exp_ln. }
    rewrite Hexp, Rsum_replicate in Hg.
    replace (INR n * / INR n) with 1 in Hg by (field; lra).
    rewrite (zip_with_split_sum (fun t l => - (t * l)) (fun t _ => xlogx t)) in Hg.
    assert (Rsum (zip_with (fun t l => - (t * l)) (softmax logits)
                    (replicate n (- ln (INR n))))
            = ln (INR n)) as Huniform.
    { pose proof (zip_with_replicate_sum (softmax logits) (- ln (INR n))) as Hu.
      rewrite Hsl, Hsum in Hu. lra. }
    assert (Rsum (zip_with (fun t _ => xlogx t) (softmax logits)
                    (replicate n (- ln (INR n))))
            = Rsum (zip_with Rmult (softmax logits) (log_softmax logits)))
      as Hself.
    { rewrite zip_with_fst_sum by (by rewrite length_replicate).
      apply softmax_xlogx, Rsum_exp_positive, Hne. }
    lra.
Qed.

Lemma policy_loss_entropy_range_witness :
  0 <= - Rsum (zip_with Rmult (softmax [0; 0]) (log_softmax [0; 0]))
    <= ln (INR (length [0; 0])).
Proof.
  apply (policy_loss_entropy_range [1; 2] [0; 0] 1 (1 / 100)
           (- ((2 - Rsum (zip_with Rmult [1; 2] (softmax [0; 0])))
               * (0 - ln (Rsum (map exp [0; 0]))))
            + 1 / 100
              * - - Rsum (zip_with Rmult (softmax [0; 0]) (log_softmax [0; 0])))).
  reflexivity.
Defined.

(** ** The SPR loss: range and invariance under scaling *)

Lemma Rsum_squares_nonneg (v : list R) : 0 <= Rsum (map (fun x => x ^ 2) v).
Proof.
  apply Rsum_nonneg, Forall_map, Forall_true. intros x. cbn beta. nra.
Qed.

(** A normalized vector has unit length. *)
Lemma normalize_squares (v : list R) :
  norm2 v <> 0 -> Rsum (map (fun x => x ^ 2) (normalize v)) = 1.
Proof.
  intros Hn. unfold normalize. rewrite map_map.
  rewrite (map_ext (fun x => (x / norm2 v) ^ 2)
             (fun x => x ^ 2 * (/ norm2 v) ^ 2))
    by (intros x; unfold Rdiv; ring).
  rewrite (Rsum_map_scale (fun x => x ^ 2)).
  assert (norm2 v ^ 2 = Rsum (map (fun x => x ^ 2) v)) as Hsq.
  { unfold norm2. rewrite <- Rsqr_pow2. apply Rsqr_sqrt, Rsum_squares_nonneg. }
  rewrite <- Hsq. field. done.
Qed.

Lemma distance_range (u v : list R) :
  0 <= Rsum (zip_with (fun a b => (a - b) ^ 2) u v)
    <= 2 * Rsum (map (fun x => x ^ 2) u) + 2 * Rsum (map (fun x => x ^ 2) v).
Proof.
  revert v. induction u as [|a u IH]; intros [|b v]; cbn [zip_with map];
    rewrite ?Rsum_nil, ?Rsum_cons.
  - lra.
  - pose proof (Rsum_squares_nonneg v). nra.
  - pose proof (Rsum_squares_nonneg u). nra.
  - specialize (IH v). pose proof (pow2_ge_0 (a + b)).
    pose proof (pow2_ge_0 (a - b)). nra.
Qed.

Lemma squared_distance_range (p t : list R) :
  nonzero_groups p -> nonzero_groups t ->
  0 <= squared_distance (normalized_groups p) (normalized_groups t) <= 8.
Proof.
  intros [Hp1 Hp2] [Ht1 Ht2]. unfold squared_distance, normalized_groups.
  cbn [map zip_with]. rewrite !Rsum_cons, Rsum_nil.
  pose proof (distance_range (normalize (take 2048 p)) (normalize (take 2048 t))).
  pose proof (distance_range (normalize (drop 2048 p)) (normalize (drop 2048 t))).
  rewrite !normalize_squares in * by done. lra.
Qed.

Lemma mean_range (l : list R) (lo hi : R) :
  l <> [] -> Forall (fun x => lo <= x <= hi) l -> lo <= mean l <= hi.
Proof.
  intros Hne Hall. unfold mean.
  assert (INR (length l) * lo <= Rsum l <= INR (length l) * hi) as [Hlo Hhi].
  { induction Hall as [|x l Hx _ IH].
    - cbn. rewrite Rsum_nil. lra.
    - rewrite Rsum_cons. cbn [length]. rewrite S_INR.
      destruct l as [|y l].
      + cbn. rewrite Rsum_nil. lra.
      + specialize (IH ltac:(done)). lra. }
  assert (0 < INR (length l)) as Hn
    by (apply lt_0_INR; destruct l; [done | cbn; lia]).
  split.
  - apply Rmult_le_reg_r with (INR (length l)); [done|].
    replace (Rsum l / INR (length l) * INR (length l)) with (Rsum l)
      by (field; lra).
    lra.
  - apply Rmult_le_reg_r with (INR (length l)); [done|].
    replace (Rsum l / INR (length l) * INR (length l)) with (Rsum l)
      by (field; lra).
    lra.
Qed.

Lemma spr_loss_example_range (predictions targets : list (list R))
  (flags : list bool) :
  predictions <> [] ->
  length predictions = length targets ->
  length predictions = length flags ->
  Forall nonzero_groups predictions ->
  Forall nonzero_groups targets ->
  0 <= spr_loss_example predictions targets flags <= 4.
Proof.
  intros Hne Hlt Hlf Hp Ht. unfold spr_loss_example.
  set (l := zip_with _ _ flags).
  assert (0 <= mean l <= 8) as [? ?]; [|lra].
  apply mean_range.
  - unfold l. destruct predictions, targets, flags; done.
  - unfold l. clear l Hne Hlt Hlf. revert targets flags Ht.
    induction Hp as [|p ps Hp _ IH]; intros [|t ts] [|f fs] Ht;
      cbn [map zip_with]; try by constructor.
    inversion Ht as [|? ? Ht1 Ht2]; subst.
    constructor; [|by apply IH].
    pose proof (squared_distance_range p t Hp Ht1).
    unfold mask_value. destruct f; lra.
Qed.

Lemma Forall_zip_with_pairs {A B C D} (f : A * B -> C -> D)
  (PA : A -> Prop) (PB : B -> Prop) (PC : C -> Prop) (Q : D -> Prop)
  (l1 : list A) (l2 : list B) (l3 : list C) :
  Forall PA l1 -> Forall PB l2 -> Forall PC l3 ->
  (forall a b c, PA a -> PB b -> PC c -> Q (f (a, b) c)) ->
  Forall Q (zip_with f (zip l1 l2) l3).
Proof.
  intros H1. revert l2 l3. induction H1 as [|a l1 Ha _ IH];
    intros l2 l3 H2 H3 Hf; [constructor|].
  destruct H2 as [|b l2 Hb H2]; [constructor|].
  destruct H3 as [|c l3 Hc H3]; [constructor|].
  cbn. constructor; [by apply Hf | by apply IH].
Qed.

(** On latents whose groups have norms other than zero, with at least one
    prediction step, the SPR loss of every example lies between 0 and 4. *)
Theorem spr_loss_range (T B : nat)
  (spr_predictions spr_targets : list (list (list R)))
  (same_traj_mask : list (list bool)) :
  (1 <= T)%nat ->
  latents B T spr_predictions ->
  latents T B spr_targets ->
  rect B T same_traj_mask ->
  Forall (Forall nonzero_groups) spr_predictions ->
  Forall (Forall nonzero_groups) spr_targets ->
  exists out,
    spr_loss T B spr_predictions spr_targets same_traj_mask = Some out
    /\ length out = B
    /\ Forall (fun x => 0 <= x <= 4) out.
Proof.
  intros HT HP HQ HM HPn HQn.
  rewrite (spr_loss_by_example T B) by done. eexists. split; [done|].
  destruct HP as [[HPlen HProws] _]. destruct HQ as [HQrect _].
  destruct HM as [HMlen HMrows].
  pose proof (transpose_rows _ _ _ HQrect) as [HQtlen HQtrows].
  split.
  - rewrite length_zip_with, length_zip. lia.
  - apply (Forall_zip_with_pairs _
             (fun p => length p = T /\ Forall nonzero_groups p)
             (fun t => length t = T /\ Forall nonzero_groups t)
             (fun flags : list bool => length flags = T)).
    + apply list.Forall_and. by split.
    + apply list.Forall_and. split; [done|]. by apply transpose_Forall.
    + done.
    + intros p t flags [Hp Hpn] [Ht Htn] Hf. cbn [fst snd].
      apply spr_loss_example_range; try done; try congruence.
      destruct p; [cbn in Hp; lia | done].
Qed.

Lemma spr_loss_range_witness :
  exists out,
    spr_loss 3 1 [[ex_u; ex_u; ex_u]] [[ex_v]; [ex_v]; [ex_v]]
      [[true; false; false]] = Some out
    /\ length out = 1%nat
    /\ Forall (fun x => 0 <= x <= 4) out.
Proof.
  apply (spr_loss_range 3 1); [lia|..];
    repeat first [apply ex_latent_lengths | apply nonzero_groups_ex
                 | reflexivity | split | constructor].
Defined.

Lemma norm2_scale (c : R) (v : list R) :
  0 < c -> norm2 (map (fun x => c * x) v) = c * norm2 v.
Proof.
  intros Hc. unfold norm2. rewrite map_map.
  rewrite (map_ext (fun x => (c * x) ^ 2) (fun x => x ^ 2 * c ^ 2))
    by (intros x; ring).
  rewrite (Rsum_map_scale (fun x => x ^ 2)).
  rewrite sqrt_mult_alt by apply Rsum_squares_nonneg.
  rewrite <- Rsqr_pow2, sqrt_Rsqr by lra. ring.
Qed.

Lemma normalize_scale (c : R) (v : list R) :
  0 < c -> normalize (map (fun x => c * x) v) = normalize v.
Proof.
  intros Hc. unfold normalize. rewrite norm2_scale by done.
  rewrite map_map. apply map_ext. intros x. unfold Rdiv.
  rewrite Rinv_mult.
  replace (c * x * (/ c * / norm2 v)) with (c * / c * (x * / norm2 v)) by ring.
  rewrite Rinv_r by lra. ring.
Qed.

Lemma normalized_groups_scale (c : R) (v : list R) :
  0 < c -> normalized_groups (map (fun x => c * x) v) = normalized_groups v.
Proof.
  intros Hc. unfold normalized_groups. cbn [map].
  change (map (fun x => c * x) v) with ((fun x => c * x) <$> v).
  rewrite <- fmap_take, <- fmap_drop.
  change ((fun x => c * x) <$> take 2048 v) with (map (fun x => c * x) (take 2048 v)).
  change ((fun x => c * x) <$> drop 2048 v) with (map (fun x => c * x) (drop 2048 v)).
  by rewrite !normalize_scale.
Qed.

(** The SPR loss does not change when the predicted latents are scaled by a
    positive factor: only their directions count. *)
Theorem spr_loss_scale_invariant (T B : nat)
  (spr_predictions spr_targets : list (list (list R)))
  (same_traj_mask : list (list bool)) (c : R) :
  0 < c ->
  latents B T spr_predictions ->
  latents T B spr_targets ->
  rect B T same_traj_mask ->
  spr_loss T B (map (map (map (fun x => c * x))) spr_predictions) spr_targets
    same_traj_mask
  = spr_loss T B spr_predictions spr_targets same_traj_mask.
Proof.
  intros Hc HP HQ HM.
  assert (latents B T (map (map (map (fun x => c * x))) spr_predictions)) as HP'.
  { destruct HP as [HPrect HPv]. split; [by apply fmap_rect|].
    apply Forall_map. eapply list.Forall_impl; [exact HPv|].
    intros row Hrow. apply Forall_map.
    eapply list.Forall_impl; [exact Hrow|]. intros v Hv. cbn beta.
    by rewrite length_map. }
  rewrite !(spr_loss_by_example T B) by done. f_equal.
  generalize (transpose B spr_targets). generalize same_traj_mask. clear -Hc.
  induction spr_predictions as [|p ps IH]; intros M TQ; [done|].
  destruct TQ as [|t ts]; [done|]. destruct M as [|flags M]; [done|].
  cbn [map zip zip_with fst snd]. rewrite IH. f_equal.
  unfold spr_loss_example. do 4 f_equal. rewrite map_map.
  apply map_ext. intros v. by apply normalized_groups_scale.
Qed.

Lemma spr_loss_scale_invariant_witness :
  spr_loss 3 1 (map (map (map (fun x => 2 * x))) [[ex_u; ex_u; ex_u]])
    [[ex_v]; [ex_v]; [ex_v]] [[true; false; false]]
  = spr_loss 3 1 [[ex_u; ex_u; ex_u]] [[ex_v]; [ex_v]; [ex_v]]
      [[true; false; false]].
Proof.
  apply (spr_loss_scale_invariant 3 1); [lra|..];
    repeat first [apply ex_latent_lengths | reflexivity | split | constructor].
Defined.
